(** * SF2000 memory subsystem: pool allocator, bulk mover and ROM loader

    A shallow embedding of [Src/Memory/Memory_SF2000.c] (with the constants
    and the pool record of [Src/Memory/Memory_SF2000.h]) and the properties
    of the memory subsystem that can be established on it.

    Conventions of the embedding:
    - a [UInt32] is a [Z] and every place where the C arithmetic can wrap
      is written with [wrap32];
    - a pointer is its address, a [Z]; [0] is [NULL]; arithmetic on a
      pointer that walks an object ([dst32++], [write_ptr += n]) is plain
      addition, the address computations that the code makes on [UInt32]
      casts wrap;
    - byte-addressed memory is a total function from addresses to bytes;
    - the calls that leave the translation unit ([malloc], [free],
      [memcpy], [memset], [fopen], [fread]) are either modelled by their
      libc contract or answered by an explicit environment argument. *)

From stdpp Require Import base list strings.
From Stdlib Require Import ZArith Lia.

Local Open Scope Z_scope.

(* ================================================================== *)
(** * Part I: the program                                              *)
(* ================================================================== *)

(** ** Machine integers and constants *)

Definition wrap32 (x : Z) : Z := x mod 2 ^ 32.

Definition SF2000_CACHE_LINE_SIZE : Z := 32.
Definition SF2000_PAGE_SIZE : Z := 0x2000.
Definition SF2000_MAX_ROM_SIZE : Z := 0x200000.
Definition SF2000_POOL_COUNT : nat := 8.
Definition SF2000_POOL_SIZES : list Z := [32; 64; 128; 256; 512; 1024; 2048; 4096].

(** What can go wrong at a memory access of the allocator. *)
Inductive fault : Type :=
| NullDeref      (* an access through a null pointer *)
| OutOfBounds    (* an access outside the array that is indexed *)
| DivByZero.     (* an integer division by zero *)

Inductive result (A : Type) : Type :=
| Ok (a : A)
| Fault (f : fault).
Arguments Ok {A} a.
Arguments Fault {A} f.

(** ** Byte-addressed memory *)

Definition mem : Type := Z → Z.

Definition load8 (m : mem) (a : Z) : Z := m a.

Definition store8 (m : mem) (a v : Z) : mem :=
  λ x, if x =? a then v else m x.

(** Byte [k] (counted from the least significant one) of a 32-bit word. *)
Definition byte_of (w k : Z) : Z := Z.land (Z.shiftr w (8 * k)) 255.

(** The position in a word of the byte stored at offset [k]. *)
Definition lane (big_endian : bool) (k : Z) : Z :=
  if big_endian then 3 - k else k.

Definition load32 (big_endian : bool) (m : mem) (a : Z) : Z :=
  Z.shiftl (m (a + 0)) (8 * lane big_endian 0) +
  Z.shiftl (m (a + 1)) (8 * lane big_endian 1) +
  Z.shiftl (m (a + 2)) (8 * lane big_endian 2) +
  Z.shiftl (m (a + 3)) (8 * lane big_endian 3).

Definition store32 (big_endian : bool) (m : mem) (a w : Z) : mem :=
  store8 (store8 (store8 (store8 m
    (a + 0) (byte_of w (lane big_endian 0)))
    (a + 1) (byte_of w (lane big_endian 1)))
    (a + 2) (byte_of w (lane big_endian 2)))
    (a + 3) (byte_of w (lane big_endian 3)).

(** ** libc: [memcpy] and [memset], by their contract on disjoint regions:
    a forward byte-by-byte loop. *)

Fixpoint copy_bytes (n : nat) (m : mem) (dst8 src8 : Z) : mem :=
  match n with
  | O => m
  | S n' => copy_bytes n' (store8 m dst8 (load8 m src8)) (dst8 + 1) (src8 + 1)
  end.

Fixpoint set_bytes (n : nat) (m : mem) (dst8 value : Z) : mem :=
  match n with
  | O => m
  | S n' => set_bytes n' (store8 m dst8 value) (dst8 + 1) value
  end.

Definition memcpy (m : mem) (dst src size : Z) : mem :=
  copy_bytes (Z.to_nat size) m dst src.

Definition memset (m : mem) (dst value size : Z) : mem :=
  set_bytes (Z.to_nat size) m dst value.

(** ** MIPS-optimized memory copy functions *)

Section BulkMover.

Variable big_endian : bool.

(** [for (i = 0; i < word_count; i++) *dst32++ = *src32++;]
    The loop leaves the memory and the two advanced pointers. *)
Fixpoint copy_words (n : nat) (m : mem) (dst32 src32 : Z) : mem * Z * Z :=
  match n with
  | O => (m, dst32, src32)
  | S n' =>
      copy_words n' (store32 big_endian m dst32 (load32 big_endian m src32))
                 (dst32 + 4) (src32 + 4)
  end.

Definition sf2000_memcpy_aligned (m : mem) (dst src size : Z) : mem :=
  let word_count := Z.shiftr size 2 in
  let remainder := Z.land size 3 in
  if (Z.land dst 3 =? 0) && (Z.land src 3 =? 0) then
    let '(m1, dst32, src32) := copy_words (Z.to_nat word_count) m dst src in
    if 0 <? remainder
    then copy_bytes (Z.to_nat remainder) m1 dst32 src32
    else m1
  else memcpy m dst src size.

(** [for (i = 0; i < word_count; i++) *dst32++ = pattern;] *)
Fixpoint set_words (n : nat) (m : mem) (dst32 pattern : Z) : mem * Z :=
  match n with
  | O => (m, dst32)
  | S n' => set_words n' (store32 big_endian m dst32 pattern) (dst32 + 4) pattern
  end.

Definition sf2000_memset_aligned (m : mem) (dst value size : Z) : mem :=
  let word_count := Z.shiftr size 2 in
  let remainder := Z.land size 3 in
  let pattern :=
    wrap32 (Z.lor (Z.lor (Z.lor (Z.shiftl value 24) (Z.shiftl value 16))
                         (Z.shiftl value 8)) value) in
  if Z.land dst 3 =? 0 then
    let '(m1, dst32) := set_words (Z.to_nat word_count) m dst pattern in
    if 0 <? remainder
    then set_bytes (Z.to_nat remainder) m1 dst32 value
    else m1
  else memset m dst value size.

(** One unrolled burst: [dst32[k] = src32[k]] for [k = 0 .. 7]. *)
Definition burst (m : mem) (dst32 src32 : Z) : mem :=
  let m := store32 big_endian m (dst32 + 4 * 0) (load32 big_endian m (src32 + 4 * 0)) in
  let m := store32 big_endian m (dst32 + 4 * 1) (load32 big_endian m (src32 + 4 * 1)) in
  let m := store32 big_endian m (dst32 + 4 * 2) (load32 big_endian m (src32 + 4 * 2)) in
  let m := store32 big_endian m (dst32 + 4 * 3) (load32 big_endian m (src32 + 4 * 3)) in
  let m := store32 big_endian m (dst32 + 4 * 4) (load32 big_endian m (src32 + 4 * 4)) in
  let m := store32 big_endian m (dst32 + 4 * 5) (load32 big_endian m (src32 + 4 * 5)) in
  let m := store32 big_endian m (dst32 + 4 * 6) (load32 big_endian m (src32 + 4 * 6)) in
  store32 big_endian m (dst32 + 4 * 7) (load32 big_endian m (src32 + 4 * 7)).

Fixpoint copy_bursts (n : nat) (m : mem) (dst32 src32 : Z) : mem * Z * Z :=
  match n with
  | O => (m, dst32, src32)
  | S n' => copy_bursts n' (burst m dst32 src32) (dst32 + 4 * 8) (src32 + 4 * 8)
  end.

Definition sf2000_memcpy_burst (m : mem) (dst src size : Z) : mem :=
  if (SF2000_CACHE_LINE_SIZE <=? size) &&
     (Z.land dst 3 =? 0) && (Z.land src 3 =? 0) then
    let burst_count := size / SF2000_CACHE_LINE_SIZE in
    let remaining_size := size mod SF2000_CACHE_LINE_SIZE in
    let '(m1, dst32, src32) := copy_bursts (Z.to_nat burst_count) m dst src in
    if 0 <? remaining_size
    then sf2000_memcpy_aligned m1 dst32 src32 remaining_size
    else m1
  else sf2000_memcpy_aligned m dst src size.

End BulkMover.


(** ** Fast memory allocation pools *)

(** [SF2000_MemoryPool]. The free list is the array [free_list] points to,
    owned by the pool: [None] is the null pointer, [Some l] an array of
    [length l] cells. *)
Record SF2000_MemoryPool : Type := mkPool {
  pool_memory : Z;
  block_size : Z;
  block_count : Z;
  free_count : Z;
  free_list : option (list Z)
}.

(** The pools before [sf2000_memory_pools_init]: a global, zero-initialised. *)
Definition zero_pool : SF2000_MemoryPool := mkPool 0 0 0 0 None.
Definition zero_pools : list SF2000_MemoryPool := replicate SF2000_POOL_COUNT zero_pool.

(** [(addr + SF2000_CACHE_LINE_SIZE - 1) & ~(SF2000_CACHE_LINE_SIZE - 1)]
    on a [UInt32]. *)
Definition align_cache_line (addr : Z) : Z :=
  Z.land (wrap32 (addr + SF2000_CACHE_LINE_SIZE - 1))
         (wrap32 (Z.lnot (SF2000_CACHE_LINE_SIZE - 1))).

Definition blocks_per_pool : list Z := [256; 128; 64; 32; 16; 8; 4; 2].

(** What the general-purpose [malloc] answers to the two requests that
    [sf2000_memory_pools_init] makes for one pool ([0] when it fails). *)
Record pool_mallocs : Type := mkMallocs {
  backing_malloc : Z;     (* malloc(total_size + SF2000_CACHE_LINE_SIZE - 1) *)
  free_list_malloc : Z    (* malloc(block_count * sizeof(UInt32)) *)
}.

(** [for (j = 0; j < block_count; j++) free_list[j] = j;] *)
Fixpoint init_free_list (n : nat) (j : Z) (fl : list Z) : list Z :=
  match n with
  | O => fl
  | S n' => init_free_list n' (j + 1) (<[Z.to_nat j := j]> fl)
  end.

(** The body of the loop of [sf2000_memory_pools_init] for one pool. The
    array that [malloc] returns for the free list has [block_count] cells
    (their initial content is immaterial: each is written before it is
    read); the result of that [malloc] is not tested by the code, so a
    null answer is written through. *)
Definition init_pool (pool : SF2000_MemoryPool) (size count : Z)
    (sys : pool_mallocs) : result SF2000_MemoryPool :=
  let block_size' := size in
  let block_count' := count in
  let free_count' := block_count' in
  let pool_memory' := backing_malloc sys in
  if pool_memory' =? 0 then
    Ok (mkPool pool_memory' block_size' block_count' free_count' (free_list pool))
  else
    let addr := align_cache_line pool_memory' in
    if free_list_malloc sys =? 0 then
      if 0 <? block_count'
      then Fault NullDeref
      else Ok (mkPool addr block_size' block_count' free_count' None)
    else
      Ok (mkPool addr block_size' block_count' free_count'
            (Some (init_free_list (Z.to_nat block_count') 0
                     (replicate (Z.to_nat block_count') 0)))).

(** The size of the request for the backing storage of a pool. *)
Definition backing_request (size count : Z) : Z :=
  wrap32 (wrap32 (size * count) + SF2000_CACHE_LINE_SIZE - 1).

Fixpoint pools_init_loop (n i : nat) (sys : nat → pool_mallocs)
    (st : list SF2000_MemoryPool) : result (list SF2000_MemoryPool) :=
  match n with
  | O => Ok st
  | S n' =>
      match st !! i, SF2000_POOL_SIZES !! i, blocks_per_pool !! i with
      | Some pool, Some size, Some count =>
          match init_pool pool size count (sys i) with
          | Ok pool' => pools_init_loop n' (S i) sys (<[i := pool']> st)
          | Fault f => Fault f
          end
      | _, _, _ => Fault OutOfBounds
      end
  end.

Definition sf2000_memory_pools_init (sys : nat → pool_mallocs)
    (st : list SF2000_MemoryPool) : result (list SF2000_MemoryPool) :=
  pools_init_loop SF2000_POOL_COUNT 0 sys st.

(** How [sf2000_malloc_fast] returns: with a block of pool [i] (the loop
    index at the [return]) and the pools updated, or with whatever the
    general-purpose [malloc (size)] answers. *)
Inductive malloc_outcome : Type :=
| Block (i : nat) (st : list SF2000_MemoryPool) (block_addr : Z)
| SysMalloc (size : Z)
| MallocFault (f : fault).

(** The body of the [if] of [sf2000_malloc_fast], for pool [i]:
    [pool->free_count--; block_index = pool->free_list[pool->free_count];
     return pool->pool_memory + block_index * pool->block_size;] *)
Definition take_block (i : nat) (pool : SF2000_MemoryPool)
    (st : list SF2000_MemoryPool) : malloc_outcome :=
  let free_count' := wrap32 (free_count pool - 1) in
  match free_list pool with
  | None => MallocFault NullDeref
  | Some fl =>
      match fl !! Z.to_nat free_count' with
      | None => MallocFault OutOfBounds
      | Some block_index =>
          let block_addr :=
            wrap32 (pool_memory pool + wrap32 (block_index * block_size pool)) in
          Block i
            (<[i := mkPool (pool_memory pool) (block_size pool)
                           (block_count pool) free_count' (Some fl)]> st)
            block_addr
      end
  end.

(** The test of that [if]. *)
Definition fits (size : Z) (pool : SF2000_MemoryPool) : bool :=
  (size <=? block_size pool) && (0 <? free_count pool).

Fixpoint malloc_loop (n i : nat) (st : list SF2000_MemoryPool) (size : Z)
    : malloc_outcome :=
  match n with
  | O => SysMalloc size
  | S n' =>
      match st !! i with
      | None => MallocFault OutOfBounds
      | Some pool =>
          if fits size pool then take_block i pool st
          else malloc_loop n' (S i) st size
      end
  end.

Definition sf2000_malloc_fast (st : list SF2000_MemoryPool) (size : Z)
    : malloc_outcome :=
  malloc_loop SF2000_POOL_COUNT 0 st size.

(** The range test of [sf2000_free_fast]:
    [ptr >= pool_memory && ptr < pool_memory + block_size * block_count]. *)
Definition in_span (pool : SF2000_MemoryPool) (ptr : Z) : bool :=
  (pool_memory pool <=? ptr) &&
  (ptr <? wrap32 (pool_memory pool + wrap32 (block_size pool * block_count pool))).

(** How [sf2000_free_fast] returns: by itself, with the pools as they then
    are, or through the general-purpose [free (ptr)]. *)
Inductive free_outcome : Type :=
| Returned (st : list SF2000_MemoryPool)
| SysFree (ptr : Z)
| FreeFault (f : fault).

(** The body of the [if] of [sf2000_free_fast], for pool [i]: the block
    index is computed, and pushed when the pool is not full. *)
Definition return_block (i : nat) (pool : SF2000_MemoryPool)
    (st : list SF2000_MemoryPool) (ptr : Z) : free_outcome :=
  let offset := wrap32 (ptr - pool_memory pool) in
  if block_size pool =? 0 then FreeFault DivByZero
  else
    let block_index := offset / block_size pool in
    if free_count pool <? block_count pool then
      match free_list pool with
      | None => FreeFault NullDeref
      | Some fl =>
          if (Z.to_nat (free_count pool) <? length fl)%nat then
            Returned
              (<[i := mkPool (pool_memory pool) (block_size pool)
                             (block_count pool)
                             (wrap32 (free_count pool + 1))
                             (Some (<[Z.to_nat (free_count pool)
                                      := block_index]> fl))]> st)
          else FreeFault OutOfBounds
      end
    else Returned st.

Fixpoint free_loop (n i : nat) (st : list SF2000_MemoryPool) (ptr : Z)
    : free_outcome :=
  match n with
  | O => SysFree ptr
  | S n' =>
      match st !! i with
      | None => FreeFault OutOfBounds
      | Some pool =>
          if in_span pool ptr then return_block i pool st ptr
          else free_loop n' (S i) st ptr
      end
  end.

Definition sf2000_free_fast (st : list SF2000_MemoryPool) (ptr : Z)
    : free_outcome :=
  if ptr =? 0 then Returned st
  else free_loop SF2000_POOL_COUNT 0 st ptr.

(** ** The memory system: initialisation and reset *)

Record SF2000_RomInfo : Type := mkRomInfo {
  rom_data : Z;
  rom_size : Z;
  rom_crc32 : Z;
  mapper_type : Z;
  slot_config : Z;
  rom_padding : list Z
}.

Record SF2000_SlotState : Type := mkSlotState {
  page_data : list Z;
  page_flags : list Z;
  mapper_regs : list Z;
  slot_select : Z;
  subslot_select : Z;
  ram_config : Z;
  slot_padding : list Z
}.

(** The globals of the translation unit. *)
Record memory_system : Type := mkSystem {
  sf2000_memory_pools : list SF2000_MemoryPool;
  sf2000_rom_cache : list SF2000_RomInfo;
  sf2000_slot_states : list SF2000_SlotState
}.

(** [memset (x, 0, sizeof (x))] on the two arrays. *)
Definition zero_rom_info : SF2000_RomInfo :=
  mkRomInfo 0 0 0 0 0 (replicate 5 0).
Definition zero_slot_state : SF2000_SlotState :=
  mkSlotState (replicate 4 0) (replicate 4 0) (replicate 16 0) 0 0 0 (replicate 5 0).

Definition sf2000_memory_init (sys : nat → pool_mallocs) (g : memory_system)
    : result memory_system :=
  match sf2000_memory_pools_init sys (sf2000_memory_pools g) with
  | Ok st => Ok (mkSystem st (replicate 16 zero_rom_info) (replicate 4 zero_slot_state))
  | Fault f => Fault f
  end.

Definition sf2000_memory_reset (g : memory_system) : memory_system :=
  mkSystem (sf2000_memory_pools g)
           (replicate 16 zero_rom_info) (replicate 4 zero_slot_state).

(** ** Optimized ROM loading *)

(** An open file as the C library shows it to the loader: the bytes that
    the device delivers, from the start of the file, and the position
    that [ftell] reports after [fseek (file, 0, SEEK_END)] (a [long]; the
    two differ when the device fails before the end, and [ftell] reports
    [-1] when it fails itself). *)
Record FILE : Type := mkFile {
  stored : list Z;
  told : Z
}.

(** [fread (ptr, 1, n, file)] at position [pos]: the bytes delivered. A
    read is short when the stored bytes end before [pos + n]. *)
Definition fread (file : FILE) (pos n : Z) : list Z :=
  take (Z.to_nat n) (drop (Z.to_nat pos) (stored file)).

(** The bytes that [fread] delivers are written from [ptr] on. *)
Fixpoint store_bytes (m : mem) (ptr : Z) (data : list Z) : mem :=
  match data with
  | [] => m
  | b :: data' => store_bytes (store8 m ptr b) (ptr + 1) data'
  end.

Definition chunk_size : Z := 8192.

(** How the read loop ends. *)
Inductive read_outcome : Type :=
| ReadDone (m : mem)     (* [bytes_read] reached [file_size] *)
| ReadError (m : mem)    (* a chunk came short *)
| ReadMore.              (* the iterations given do not end the loop *)

(** [while (bytes_read < file_size) { ... }], for at most [fuel] tests of
    the condition. The position of the file is [bytes_read]: every read
    before was complete. The comparisons are those of the 32-bit target,
    where [long] and [UInt32] meet as unsigned 32-bit integers. *)
Fixpoint read_chunks (fuel : nat) (file : FILE) (file_size : Z) (m : mem)
    (bytes_read write_ptr : Z) : read_outcome :=
  match fuel with
  | O => ReadMore
  | S fuel' =>
      if bytes_read <? wrap32 file_size then
        let to_read :=
          if wrap32 (file_size - bytes_read) <? chunk_size
          then wrap32 (file_size - bytes_read)
          else chunk_size in
        let data := fread file bytes_read to_read in
        let m1 := store_bytes m write_ptr data in
        let actually_read := Z.of_nat (length data) in
        if actually_read =? to_read then
          read_chunks fuel' file file_size m1
                      (wrap32 (bytes_read + actually_read))
                      (write_ptr + actually_read)
        else ReadError m1
      else ReadDone m
  end.

(** How [sf2000_rom_load_optimized] returns: the pointer returned, the
    value left in [*size], the pools and the memory as they then are, and
    the pointer given to the general-purpose [free], if any. *)
Inductive load_outcome : Type :=
| Loaded (buffer size : Z) (st : list SF2000_MemoryPool) (m : mem)
         (sys_freed : option Z)
| LoadFault (f : fault)
| LoadRunning.

(** [fopen] and the general-purpose [malloc] are the environment. The
    read loop is given one test of its condition per chunk of a file of
    [file_size] bytes and one to leave. *)
Definition sf2000_rom_load_optimized
    (fopen : string → option FILE) (malloc : Z → Z)
    (st : list SF2000_MemoryPool) (m : mem) (filename : string)
    : load_outcome :=
  match fopen filename with
  | None => Loaded 0 0 st m None
  | Some file =>
      let file_size := told file in
      if (file_size <=? 0) || (SF2000_MAX_ROM_SIZE <? file_size) then
        Loaded 0 0 st m None
      else
        let allocated :=
          match sf2000_malloc_fast st (wrap32 (file_size + SF2000_CACHE_LINE_SIZE)) with
          | Block _ st1 block_addr => Ok (st1, block_addr)
          | SysMalloc size => Ok (st, malloc size)
          | MallocFault f => Fault f
          end in
        match allocated with
        | Fault f => LoadFault f
        | Ok (st1, buffer) =>
            if buffer =? 0 then Loaded 0 0 st1 m None
            else
              let aligned_buffer := align_cache_line buffer in
              match read_chunks (Z.to_nat (file_size / chunk_size) + 2) file
                                file_size m 0 aligned_buffer with
              | ReadMore => LoadRunning
              | ReadError m1 =>
                  match sf2000_free_fast st1 buffer with
                  | Returned st2 => Loaded 0 0 st2 m1 None
                  | SysFree ptr => Loaded 0 0 st1 m1 (Some ptr)
                  | FreeFault f => LoadFault f
                  end
              | ReadDone m1 => Loaded aligned_buffer file_size st1 m1 None
              end
        end
  end.

(** ** Cleanup of the pools *)

(** The calls of the general-purpose [free] that
    [sf2000_memory_pools_cleanup] makes. What [free] does with an address
    is outside this file: a call is recorded, and the functions below
    give the run in which every call of [free] returns. *)
Inductive sys_free : Type :=
| FreeMemory (ptr : Z)    (* [free (pool->pool_memory)] *)
| FreeList (i : nat).     (* [free (pool->free_list)], of pool [i] *)

(** The body of the loop of [sf2000_memory_pools_cleanup] for pool [i]:
    each of the two pointers is freed and nulled when it is not null. *)
Definition cleanup_pool (i : nat) (pool : SF2000_MemoryPool)
    : list sys_free * SF2000_MemoryPool :=
  let '(log1, pool_memory') :=
    if pool_memory pool =? 0
    then ([], pool_memory pool)
    else ([FreeMemory (pool_memory pool)], 0) in
  let '(log2, free_list') :=
    match free_list pool with
    | Some _ => ([FreeList i], None)
    | None => ([], None)
    end in
  (log1 ++ log2,
   mkPool pool_memory' (block_size pool) (block_count pool) (free_count pool)
          free_list').

(** [for (i = 0; i < SF2000_POOL_COUNT; i++) { ... }]: the calls of
    [free] made so far, in order, and the pools as they then are, when
    each of these calls has returned. *)
Fixpoint pools_cleanup_loop (n i : nat) (st : list SF2000_MemoryPool)
    (log : list sys_free) : result (list sys_free * list SF2000_MemoryPool) :=
  match n with
  | O => Ok (log, st)
  | S n' =>
      match st !! i with
      | None => Fault OutOfBounds
      | Some pool =>
          let '(l, pool') := cleanup_pool i pool in
          pools_cleanup_loop n' (S i) (<[i := pool']> st) (log ++ l)
      end
  end.

Definition sf2000_memory_pools_cleanup (st : list SF2000_MemoryPool)
    : result (list sys_free * list SF2000_MemoryPool) :=
  pools_cleanup_loop SF2000_POOL_COUNT 0 st [].

Definition sf2000_memory_cleanup (g : memory_system)
    : result (list sys_free * memory_system) :=
  match sf2000_memory_pools_cleanup (sf2000_memory_pools g) with
  | Ok (log, st) => Ok (log, mkSystem st (sf2000_rom_cache g) (sf2000_slot_states g))
  | Fault f => Fault f
  end.

(** ** Cache-friendly memory access *)

(** [for (offset = 0; offset < SF2000_PAGE_SIZE; offset += SF2000_CACHE_LINE_SIZE)
       dummy = page_data[offset];]
    for at most [fuel] tests of the condition: the addresses read, in
    order. *)
Fixpoint prefetch_loop (fuel : nat) (page_data offset : Z) (reads : list Z)
    : list Z :=
  match fuel with
  | O => reads
  | S fuel' =>
      if offset <? SF2000_PAGE_SIZE then
        prefetch_loop fuel' page_data (wrap32 (offset + SF2000_CACHE_LINE_SIZE))
                      (reads ++ [page_data + offset])
      else reads
  end.

(** The addresses that [sf2000_prefetch_page] reads; it writes nothing. *)
Definition sf2000_prefetch_page (page_data : Z) : list Z :=
  if page_data =? 0 then []
  else prefetch_loop
         (Z.to_nat (SF2000_PAGE_SIZE / SF2000_CACHE_LINE_SIZE) + 1)
         page_data 0 [].

(* ================================================================== *)
(** * Part II: the vocabulary of the properties                        *)
(* ================================================================== *)

(** ** Memories *)

(** Every cell of a memory holds a byte. *)
Definition byte_mem (m : mem) : Prop := ∀ a, 0 ≤ m a < 256.

(** [copied m m' dst src n]: [m'] is [m] with the [n] bytes at [src]
    transferred to [dst], the result of the naive byte-wise copy. *)
Definition copied (m m' : mem) (dst src n : Z) : Prop :=
  ∀ a, m' a = if (dst <=? a) && (a <? dst + n) then m (src + (a - dst)) else m a.

(** [filled m m' dst v n]: [m'] is [m] with the [n] bytes at [dst] set to [v]. *)
Definition filled (m m' : mem) (dst v n : Z) : Prop :=
  ∀ a, m' a = if (dst <=? a) && (a <? dst + n) then v else m a.

(** The two regions of [n] bytes do not overlap. *)
Definition disjoint (dst src n : Z) : Prop := dst + n ≤ src ∨ src + n ≤ dst.

(** A memory to run the bulk mover on: address [a] holds [a mod 256]. *)
Definition ramp : mem := λ a, a mod 256.


(** ** Pools *)

(** The fields of a pool are [UInt32] values and a 32-bit address. *)
Definition uint32 (x : Z) : Prop := 0 ≤ x < 2 ^ 32.

Record pool_typed (pool : SF2000_MemoryPool) : Prop := mkTyped {
  typed_memory : uint32 (pool_memory pool);
  typed_size : uint32 (block_size pool);
  typed_count : uint32 (block_count pool);
  typed_free : uint32 (free_count pool)
}.

(** Answers of the general-purpose allocator to [sf2000_memory_pools_init]
    used in the examples: every request is served, at addresses that are
    not cache-line aligned. *)
Definition served (i : nat) : pool_mallocs :=
  mkMallocs (0x100004 + 0x3000 * Z.of_nat i) (0x200000 + 0x1000 * Z.of_nat i).

(** The same, but the request for the backing storage of the first pool
    fails. *)
Definition first_refused (i : nat) : pool_mallocs :=
  match i with
  | O => mkMallocs 0 0
  | S _ => served i
  end.

(** The pools after an initialisation answered by [served]. *)
Definition booted : list SF2000_MemoryPool :=
  match sf2000_memory_pools_init served zero_pools with
  | Ok st => st
  | Fault _ => []
  end.

(** The pools after an initialisation answered by [first_refused]. *)
Definition degraded : list SF2000_MemoryPool :=
  match sf2000_memory_pools_init first_refused zero_pools with
  | Ok st => st
  | Fault _ => []
  end.

(** ** Sequences of calls *)

(** A call of the client. [Allocate size sys] is [sf2000_malloc_fast (size)],
    [sys] being what the general-purpose [malloc] answers when the call
    reaches it ([0] when it fails); [Free ptr] is [sf2000_free_fast (ptr)]. *)
Inductive call : Type :=
| Allocate (size sys : Z)
| Free (ptr : Z).

(** The pools, and the pointers that [Allocate] returned and that were not
    given to [Free] since. *)
Record heap : Type := mkHeap {
  pools : list SF2000_MemoryPool;
  live : list Z
}.

Definition step (h : heap) (c : call) : result heap :=
  match c with
  | Allocate size sys =>
      match sf2000_malloc_fast (pools h) size with
      | Block _ st ptr => Ok (mkHeap st (ptr :: live h))
      | SysMalloc _ =>
          Ok (mkHeap (pools h) (if sys =? 0 then live h else sys :: live h))
      | MallocFault f => Fault f
      end
  | Free ptr =>
      match sf2000_free_fast (pools h) ptr with
      | Returned st => Ok (mkHeap st (filter (λ q, q ≠ ptr) (live h)))
      | SysFree _ => Ok (mkHeap (pools h) (filter (λ q, q ≠ ptr) (live h)))
      | FreeFault f => Fault f
      end
  end.

Fixpoint run (h : heap) (cs : list call) : result heap :=
  match cs with
  | [] => Ok h
  | c :: cs' =>
      match step h c with
      | Ok h' => run h' cs'
      | Fault f => Fault f
      end
  end.

(** The number of blocks of a pool that are currently allocated. *)
Definition allocated_from (pool : SF2000_MemoryPool) (live : list Z) : Z :=
  Z.of_nat (length (filter (λ q, in_span pool q = true) live)).

(** The contract of a call. The general-purpose allocator answers null or
    a block that is not allocated already and that lies outside the
    backing storage of the pools (which it allocated itself); the client
    frees null or a pointer that it holds, hence no pointer twice. *)
Definition call_ok (h : heap) (c : call) : Prop :=
  match c with
  | Allocate size sys =>
      sys = 0 ∨
      (sys ∉ live h) ∧ (∀ pool, pool ∈ pools h → in_span pool sys = false)
  | Free ptr => ptr = 0 ∨ ptr ∈ live h
  end.

Fixpoint well_behaved (h : heap) (cs : list call) : Prop :=
  match cs with
  | [] => True
  | c :: cs' => call_ok h c ∧ ∀ h', step h c = Ok h' → well_behaved h' cs'
  end.

(** A successful initialisation: each of the requests is answered with a
    block of the requested size inside the address space, and the blocks
    for the backing storages do not overlap. *)
Definition init_succeeds (sys : nat → pool_mallocs) : Prop :=
  (∀ i size count,
     SF2000_POOL_SIZES !! i = Some size → blocks_per_pool !! i = Some count →
     0 < backing_malloc (sys i) ∧
     backing_malloc (sys i) + backing_request size count < 2 ^ 32 ∧
     free_list_malloc (sys i) ≠ 0) ∧
  (∀ i j si ci sj cj,
     i ≠ j →
     SF2000_POOL_SIZES !! i = Some si → blocks_per_pool !! i = Some ci →
     SF2000_POOL_SIZES !! j = Some sj → blocks_per_pool !! j = Some cj →
     backing_malloc (sys i) + backing_request si ci ≤ backing_malloc (sys j) ∨
     backing_malloc (sys j) + backing_request sj cj ≤ backing_malloc (sys i)).

(** ** Invariants of the pools *)

(** The part of a pool that no call changes: a non-null backing storage of
    [block_count] blocks of [block_size] bytes inside the address space. *)
Definition geometry (pool : SF2000_MemoryPool) : Prop :=
  0 < pool_memory pool ∧ 0 < block_size pool ∧ 0 ≤ block_count pool ∧
  pool_memory pool + block_size pool * block_count pool < 2 ^ 32.

(** The free list is an array of [block_count] block indices, of which
    [free_count] are in use. *)
Definition bounded (pool : SF2000_MemoryPool) : Prop :=
  0 ≤ free_count pool ≤ block_count pool ∧
  ∃ fl, free_list pool = Some fl ∧
        length fl = Z.to_nat (block_count pool) ∧
        Forall (λ x, 0 ≤ x < block_count pool) fl.

(** The free indices are distinct, the live pointers into the pool are the
    blocks whose index is not free, and the two make up the pool. *)
Definition accounted (pool : SF2000_MemoryPool) (live : list Z) : Prop :=
  (∀ fl, free_list pool = Some fl → NoDup (take (Z.to_nat (free_count pool)) fl)) ∧
  (∀ q, q ∈ live → in_span pool q = true →
        ∃ idx, 0 ≤ idx < block_count pool ∧
               q = pool_memory pool + idx * block_size pool ∧
               ∀ fl, free_list pool = Some fl →
                     idx ∉ take (Z.to_nat (free_count pool)) fl) ∧
  free_count pool + allocated_from pool live = block_count pool.

(** The invariant of the pools under every sequence of calls. *)
Definition pools_sound (st : list SF2000_MemoryPool) : Prop :=
  length st = SF2000_POOL_COUNT ∧
  ∀ pool, pool ∈ st → geometry pool ∧ bounded pool.

(** The spans of two pools have no address in common. *)
Definition apart (st : list SF2000_MemoryPool) : Prop :=
  ∀ i j p q x, st !! i = Some p → st !! j = Some q →
               in_span p x = true → in_span q x = true → i = j.

(** The invariant under the sequences of calls that keep to the contract. *)
Definition heap_inv (h : heap) : Prop :=
  pools_sound (pools h) ∧
  NoDup (live h) ∧
  apart (pools h) ∧
  ∀ pool, pool ∈ pools h → accounted pool (live h).

(** ** Loading *)

(** The pointer that [sf2000_malloc_fast (size)] returns, the
    general-purpose allocator being [malloc]. *)
Definition allocation (malloc : Z → Z) (st : list SF2000_MemoryPool) (size : Z)
    : option Z :=
  match sf2000_malloc_fast st size with
  | Block _ _ block_addr => Some block_addr
  | SysMalloc n => Some (malloc n)
  | MallocFault _ => None
  end.

(** The size of the [k]-th chunk that the loader requests of a file of
    [file_size] bytes. *)
Definition chunk_request (file_size k : Z) : Z :=
  Z.min chunk_size (file_size - chunk_size * k).

(** Some chunk read returns fewer bytes than requested. *)
Definition short_read (file : FILE) : Prop :=
  ∃ k, 0 ≤ k ∧ chunk_size * k < told file ∧
       Z.of_nat (length (fread file (chunk_size * k) (chunk_request (told file) k)))
       < chunk_request (told file) k.

(** The failures of the loader: the file cannot be opened, its length is
    not positive or exceeds the maximum, the allocator returns null, or a
    chunk read comes short. *)
Definition load_failure (fopen : string → option FILE) (malloc : Z → Z)
    (st : list SF2000_MemoryPool) (filename : string) : Prop :=
  match fopen filename with
  | None => True
  | Some file =>
      told file ≤ 0 ∨ SF2000_MAX_ROM_SIZE < told file ∨
      allocation malloc st (told file + SF2000_CACHE_LINE_SIZE) = Some 0 ∨
      short_read file
  end.

(** The same without the failure of the allocator. *)
Definition file_failure (fopen : string → option FILE)
    (filename : string) : Prop :=
  match fopen filename with
  | None => True
  | Some file =>
      told file ≤ 0 ∨ SF2000_MAX_ROM_SIZE < told file ∨ short_read file
  end.

(** Three files: one of 5000 bytes, one of 100 bytes, and one whose
    device fails after 3000 of its 5000 bytes; and the file system that
    holds them. *)
Definition game_rom : FILE := mkFile ((λ i, i mod 256) <$> seqZ 0 5000) 5000.
Definition boot_rom : FILE := mkFile ((λ i, (3 * i) mod 256) <$> seqZ 0 100) 100.
Definition cut_rom : FILE := mkFile ((λ i, i mod 256) <$> seqZ 0 3000) 5000.

Definition roms (filename : string) : option FILE :=
  if String.eqb filename "game.rom" then Some game_rom
  else if String.eqb filename "boot.rom" then Some boot_rom
  else if String.eqb filename "cut.rom" then Some cut_rom
  else None.

(** A general-purpose allocator with one answer, outside the pools. *)
Definition sys_malloc (n : Z) : Z := 0x300004.

(** The pool that [sf2000_memory_pools_init] leaves when both requests
    are served: the backing storage aligned, every block free, the free
    list in the order of the blocks. *)
Definition fresh_pool (size count : Z) (sys : pool_mallocs) : SF2000_MemoryPool :=
  mkPool (align_cache_line (backing_malloc sys)) size count count (Some (seqZ 0 count)).

(** ** More vocabulary *)

(** What no call of the allocator changes in a pool. *)
Definition layout (pool : SF2000_MemoryPool) : Z * Z * Z :=
  (pool_memory pool, block_size pool, block_count pool).

(** The backing storage and the blocks of every pool start on a cache
    line, as they do after [sf2000_memory_pools_init]. *)
Definition cache_aligned (st : list SF2000_MemoryPool) : Prop :=
  ∀ pool, pool ∈ st →
    pool_memory pool mod SF2000_CACHE_LINE_SIZE = 0 ∧
    block_size pool mod SF2000_CACHE_LINE_SIZE = 0.

(** A block of the general-purpose allocator: null, or [n] bytes inside
    the address space that no span of a pool meets. *)
Definition sys_block (st : list SF2000_MemoryPool) (p n : Z) : Prop :=
  p = 0 ∨
  (0 < p ∧ p + n < 2 ^ 32 ∧
   ∀ a pool, p ≤ a < p + n → pool ∈ st → in_span pool a = false).

(** The pools of [booted] after [sf2000_malloc_fast (40)]. *)
Definition busy : list SF2000_MemoryPool :=
  match sf2000_malloc_fast booted 40 with
  | Block _ st _ => st
  | _ => []
  end.

(** Answers to [sf2000_memory_pools_init] where the free list of the
    third pool is refused. *)
Definition list_refused (i : nat) : pool_mallocs :=
  match i with
  | 2%nat => mkMallocs (backing_malloc (served i)) 0
  | _ => served i
  end.

(** The request for the backing storage is served and the one for the
    free list is refused: the case that [sf2000_memory_pools_init] does
    not test. *)
Definition list_unchecked (sys : pool_mallocs) : bool :=
  negb (backing_malloc sys =? 0) && (free_list_malloc sys =? 0).

(** The pool that the initialisation leaves in place of [prev] when it
    returns: with a null backing storage when that request is refused,
    every block counted free and the free-list pointer as it was. *)
Definition initialised (prev : SF2000_MemoryPool) (size count : Z)
    (sys : pool_mallocs) : SF2000_MemoryPool :=
  if backing_malloc sys =? 0
  then mkPool 0 size count count (free_list prev)
  else fresh_pool size count sys.

(** The pools and the pointers held after two allocations of 40 bytes on
    [booted]. *)
Definition busier : heap :=
  match run (mkHeap booted []) [Allocate 40 0; Allocate 40 0] with
  | Ok h => h
  | Fault _ => mkHeap [] []
  end.

(** A pool with both pointers null and its three counters as they are. *)
Definition released (pool : SF2000_MemoryPool) : SF2000_MemoryPool :=
  mkPool 0 (block_size pool) (block_count pool) (free_count pool) None.

(** The calls of [free] for pool [i] when both of its pointers are set,
    [memory] being its [pool_memory]. *)
Definition both_freed (memory : Z) (i : nat) : list sys_free :=
  [FreeMemory memory; FreeList i].

(* ================================================================== *)
(** * Part III: properties                                             *)
(* ================================================================== *)

(** ** Bytes and words *)

Lemma byte_of_range w k : 0 ≤ byte_of w k < 256.
Proof.
  unfold byte_of. change 255 with (Z.ones 8).
  rewrite Z.land_ones by lia. apply Z.mod_pos_bound. lia.
Qed.

Lemma byte_of_load32 be m a k :
  byte_mem m → 0 ≤ k < 4 →
  byte_of (load32 be m a) (lane be k) = m (a + k).
Proof.
  intros Hm Hk. unfold byte_of, load32. change 255 with (Z.ones 8).
  rewrite Z.land_ones by lia.
  pose proof (Hm (a + 0)) as H0. pose proof (Hm (a + 1)) as H1.
  pose proof (Hm (a + 2)) as H2. pose proof (Hm (a + 3)) as H3.
  assert (k = 0 ∨ k = 1 ∨ k = 2 ∨ k = 3) as Hcase by lia.
  destruct be; unfold lane;
    destruct Hcase as [-> | [-> | [-> | ->]]]; simpl Z.sub; simpl Z.mul;
    rewrite ?Z.shiftl_mul_pow2, ?Z.shiftr_div_pow2 by lia;
    change (2 ^ 0) with 1; change (2 ^ 8) with 256;
    change (2 ^ 16) with 65536; change (2 ^ 24) with 16777216;
    Z.div_mod_to_equations; lia.
Qed.

Lemma store32_other be m a w x :
  (x < a ∨ a + 4 ≤ x) → store32 be m a w x = m x.
Proof.
  intros Hx. unfold store32, store8.
  repeat (case_match; [lia |]). done.
Qed.

Lemma store32_at be m a w k :
  0 ≤ k < 4 → store32 be m a w (a + k) = byte_of w (lane be k).
Proof.
  intros Hk. unfold store32, store8.
  assert (k = 0 ∨ k = 1 ∨ k = 2 ∨ k = 3) as [-> | [-> | [-> | ->]]] by lia;
    repeat (case_match; [done || lia |]); lia.
Qed.

Lemma store8_byte_mem m a v : byte_mem m → 0 ≤ v < 256 → byte_mem (store8 m a v).
Proof. intros Hm Hv x. unfold store8. case_match; [done | apply Hm]. Qed.

Lemma store32_byte_mem be m a w : byte_mem m → byte_mem (store32 be m a w).
Proof.
  intros Hm. unfold store32.
  repeat apply store8_byte_mem; auto using byte_of_range.
Qed.

(** ** The bulk mover: every path is a naive copy (or fill) *)

Ltac range_cases :=
  repeat match goal with
    | |- context [?x <=? ?y] => destruct (Z.leb_spec x y)
    | |- context [?x <? ?y] => destruct (Z.ltb_spec x y)
    | |- context [?x =? ?y] => destruct (Z.eqb_spec x y)
    end; simpl; try (done || lia || (f_equal; lia)).

Lemma copied_refl m dst src : copied m m dst src 0.
Proof. intros a. range_cases. Qed.

Lemma copied_byte m dst src : copied m (store8 m dst (load8 m src)) dst src 1.
Proof. intros a. unfold store8, load8. range_cases. Qed.

Lemma copied_word be m dst src :
  byte_mem m → copied m (store32 be m dst (load32 be m src)) dst src 4.
Proof.
  intros Hm a.
  destruct (Z.leb_spec dst a); destruct (Z.ltb_spec a (dst + 4)); simpl;
    try (apply store32_other; lia).
  replace a with (dst + (a - dst)) at 1 by lia.
  rewrite store32_at by lia. apply byte_of_load32; [done | lia].
Qed.

Lemma copied_seq m m1 m2 dst src n1 n2 :
  0 ≤ n1 → 0 ≤ n2 → disjoint dst src (n1 + n2) →
  copied m m1 dst src n1 →
  copied m1 m2 (dst + n1) (src + n1) n2 →
  copied m m2 dst src (n1 + n2).
Proof.
  intros Hn1 Hn2 Hd H1 H2 a. rewrite (H2 a).
  destruct (Z.leb_spec (dst + n1) a); destruct (Z.ltb_spec a (dst + n1 + n2)); simpl.
  - rewrite (H1 (src + n1 + (a - (dst + n1)))).
    unfold disjoint in Hd. range_cases.
  - rewrite (H1 a). range_cases.
  - rewrite (H1 a). range_cases.
  - rewrite (H1 a). range_cases.
Qed.

Lemma copied_byte_mem m m' dst src n : byte_mem m → copied m m' dst src n → byte_mem m'.
Proof. intros Hm Hc a. rewrite (Hc a). case_match; apply Hm. Qed.

Lemma copied_ext m m1 m2 dst src n :
  copied m m1 dst src n → copied m m2 dst src n → ∀ a, m1 a = m2 a.
Proof. intros H1 H2 a. by rewrite (H1 a), (H2 a). Qed.

Lemma disjoint_mono dst src n n' : 0 ≤ n' ≤ n → disjoint dst src n → disjoint dst src n'.
Proof. unfold disjoint. lia. Qed.

Lemma disjoint_shift dst src k n :
  0 ≤ k → 0 ≤ n → disjoint dst src (k + n) → disjoint (dst + k) (src + k) n.
Proof. unfold disjoint. lia. Qed.

Lemma copy_bytes_copied n : ∀ m dst src,
  disjoint dst src (Z.of_nat n) →
  copied m (copy_bytes n m dst src) dst src (Z.of_nat n).
Proof.
  induction n as [| n IH]; intros m dst src Hd; simpl copy_bytes.
  - apply copied_refl.
  - replace (Z.of_nat (S n)) with (1 + Z.of_nat n) in * by lia.
    eapply copied_seq; [lia | lia | done | apply copied_byte |].
    apply IH. apply disjoint_shift; [lia | lia | done].
Qed.

Lemma copy_words_copied be n : ∀ m dst src,
  byte_mem m → disjoint dst src (4 * Z.of_nat n) →
  ∃ m', copy_words be n m dst src = (m', dst + 4 * Z.of_nat n, src + 4 * Z.of_nat n) ∧
        copied m m' dst src (4 * Z.of_nat n).
Proof.
  induction n as [| n IH]; intros m dst src Hm Hd; simpl copy_words.
  - exists m. split; [f_equal; [f_equal |]; lia | apply copied_refl].
  - replace (4 * Z.of_nat (S n)) with (4 + 4 * Z.of_nat n) in * by lia.
    destruct (IH (store32 be m dst (load32 be m src)) (dst + 4) (src + 4))
      as (m' & Heq & Hc).
    { by apply store32_byte_mem. }
    { apply disjoint_shift; [lia | lia | done]. }
    exists m'. split.
    + rewrite Heq. f_equal; [f_equal |]; lia.
    + eapply copied_seq; [lia | lia | done | by apply copied_word | done].
Qed.

Lemma shiftr2_land3 size : 0 ≤ size → size = 4 * Z.shiftr size 2 + Z.land size 3 ∧
  0 ≤ Z.shiftr size 2 ∧ 0 ≤ Z.land size 3 < 4.
Proof.
  intros Hs. rewrite Z.shiftr_div_pow2 by lia. change 3 with (Z.ones 2).
  rewrite Z.land_ones by lia. change (2 ^ 2) with 4.
  Z.div_mod_to_equations. lia.
Qed.

Lemma memcpy_copied m dst src size :
  0 ≤ size → disjoint dst src size → copied m (memcpy m dst src size) dst src size.
Proof.
  intros Hs Hd. unfold memcpy.
  rewrite <- (Z2Nat.id size) at 2 by done. apply copy_bytes_copied.
  by rewrite Z2Nat.id.
Qed.

Lemma sf2000_memcpy_aligned_copied be m dst src size :
  byte_mem m → 0 ≤ size → disjoint dst src size →
  copied m (sf2000_memcpy_aligned be m dst src size) dst src size.
Proof.
  intros Hm Hs Hd. unfold sf2000_memcpy_aligned.
  case_match; [| by apply memcpy_copied].
  destruct (shiftr2_land3 size Hs) as (Hsplit & Hw & Hr).
  set (w := Z.shiftr size 2) in *. set (r := Z.land size 3) in *.
  clearbody w r. subst size.
  destruct (copy_words_copied be (Z.to_nat w) m dst src Hm) as (m1 & Heq & Hc).
  { rewrite Z2Nat.id by done. eapply disjoint_mono; [| done]. lia. }
  rewrite Heq. rewrite Z2Nat.id in Hc |- * by done.
  destruct (Z.ltb_spec 0 r).
  - eapply copied_seq; [lia | lia | done | done |].
    rewrite <- (Z2Nat.id r) at 2 by lia.
    apply copy_bytes_copied. rewrite Z2Nat.id by lia.
    apply disjoint_shift; [lia | lia | done].
  - replace (4 * w + r) with (4 * w) by lia. done.
Qed.

Lemma copied_snoc_word be m m1 dst src n dst1 src1 :
  byte_mem m → 0 ≤ n → disjoint dst src (n + 4) →
  dst1 = dst + n → src1 = src + n →
  copied m m1 dst src n →
  copied m (store32 be m1 dst1 (load32 be m1 src1)) dst src (n + 4).
Proof.
  intros Hm Hn Hd -> -> Hc.
  eapply copied_seq; [lia | lia | done | done |].
  apply copied_word. by eapply copied_byte_mem.
Qed.

Lemma burst_copied be m dst src :
  byte_mem m → disjoint dst src 32 → copied m (burst be m dst src) dst src 32.
Proof.
  intros Hm Hd. unfold burst.
  change 32 with (0 + 4 + 4 + 4 + 4 + 4 + 4 + 4 + 4).
  repeat (eapply copied_snoc_word;
          [done | lia | eapply disjoint_mono; [| exact Hd]; lia | lia | lia |]).
  apply copied_refl.
Qed.

Lemma copy_bursts_copied be n : ∀ m dst src,
  byte_mem m → disjoint dst src (32 * Z.of_nat n) →
  ∃ m', copy_bursts be n m dst src = (m', dst + 32 * Z.of_nat n, src + 32 * Z.of_nat n) ∧
        copied m m' dst src (32 * Z.of_nat n).
Proof.
  induction n as [| n IH]; intros m dst src Hm Hd; simpl copy_bursts.
  - exists m. split; [f_equal; [f_equal |]; lia | apply copied_refl].
  - replace (32 * Z.of_nat (S n)) with (32 + 32 * Z.of_nat n) in * by lia.
    assert (copied m (burst be m dst src) dst src 32) as Hb.
    { apply burst_copied; [done |]. eapply disjoint_mono; [| done]. lia. }
    destruct (IH (burst be m dst src) (dst + 4 * 8) (src + 4 * 8)) as (m' & Heq & Hc).
    { by eapply copied_byte_mem. }
    { apply (disjoint_shift dst src 32); [lia | lia | done]. }
    exists m'. split.
    + rewrite Heq. f_equal; [f_equal |]; lia.
    + eapply copied_seq; [lia | lia | done | done | done].
Qed.

Lemma sf2000_memcpy_burst_copied be m dst src size :
  byte_mem m → 0 ≤ size → disjoint dst src size →
  copied m (sf2000_memcpy_burst be m dst src size) dst src size.
Proof.
  intros Hm Hs Hd. unfold sf2000_memcpy_burst, SF2000_CACHE_LINE_SIZE.
  case_match; [| by apply sf2000_memcpy_aligned_copied].
  pose proof (Z.div_mod size 32 ltac:(lia)) as Hsplit.
  pose proof (Z.mod_pos_bound size 32 ltac:(lia)) as Hr.
  assert (0 ≤ size / 32) as Hq by (apply Z.div_pos; lia).
  set (q := size / 32) in *. set (r := size mod 32) in *.
  clearbody q r. subst size.
  destruct (copy_bursts_copied be (Z.to_nat q) m dst src Hm) as (m1 & Heq & Hc).
  { rewrite Z2Nat.id by done. eapply disjoint_mono; [| done]. lia. }
  rewrite Heq. rewrite Z2Nat.id in Hc |- * by done.
  destruct (Z.ltb_spec 0 r).
  - eapply copied_seq; [lia | lia | done | done |].
    apply sf2000_memcpy_aligned_copied; [by eapply copied_byte_mem | lia |].
    apply disjoint_shift; [lia | lia | done].
  - replace (32 * q + r) with (32 * q) by lia. done.
Qed.

(** *** Fill *)

Lemma filled_refl m dst v : filled m m dst v 0.
Proof. intros a. range_cases. Qed.

Lemma filled_byte m dst v : filled m (store8 m dst v) dst v 1.
Proof. intros a. unfold store8. range_cases. Qed.

Lemma filled_seq m m1 m2 dst v n1 n2 :
  0 ≤ n1 → 0 ≤ n2 →
  filled m m1 dst v n1 → filled m1 m2 (dst + n1) v n2 →
  filled m m2 dst v (n1 + n2).
Proof.
  intros Hn1 Hn2 H1 H2 a. rewrite (H2 a), (H1 a). range_cases.
Qed.

(** The word pattern of [sf2000_memset_aligned] holds the byte four times;
    checked on each of the 256 bytes. *)
Lemma pattern_bytes value k :
  0 ≤ value < 256 → 0 ≤ k < 4 →
  byte_of (wrap32 (Z.lor (Z.lor (Z.lor (Z.shiftl value 24) (Z.shiftl value 16))
                                (Z.shiftl value 8)) value)) k = value.
Proof.
  intros Hv Hk.
  assert (forallb (λ v, forallb (λ k,
            byte_of (wrap32 (Z.lor (Z.lor (Z.lor (Z.shiftl v 24) (Z.shiftl v 16))
                                          (Z.shiftl v 8)) v)) k =? v)
            (seqZ 0 4)) (seqZ 0 256) = true) as Hall by (vm_compute; reflexivity).
  rewrite forallb_forall in Hall.
  specialize (Hall value). rewrite forallb_forall in Hall.
  apply Z.eqb_eq, Hall; apply list_elem_of_In, elem_of_seqZ; lia.
Qed.

Lemma filled_word be m dst value :
  0 ≤ value < 256 →
  filled m (store32 be m dst
              (wrap32 (Z.lor (Z.lor (Z.lor (Z.shiftl value 24) (Z.shiftl value 16))
                                    (Z.shiftl value 8)) value))) dst value 4.
Proof.
  intros Hv a.
  destruct (Z.leb_spec dst a); destruct (Z.ltb_spec a (dst + 4)); simpl;
    try (apply store32_other; lia).
  replace a with (dst + (a - dst)) at 1 by lia.
  rewrite store32_at by lia. apply pattern_bytes; [done |].
  unfold lane. destruct be; lia.
Qed.

Lemma set_bytes_filled n : ∀ m dst v,
  filled m (set_bytes n m dst v) dst v (Z.of_nat n).
Proof.
  induction n as [| n IH]; intros m dst v; simpl set_bytes.
  - apply filled_refl.
  - replace (Z.of_nat (S n)) with (1 + Z.of_nat n) by lia.
    eapply filled_seq; [lia | lia | apply filled_byte | apply IH].
Qed.

Lemma set_words_filled be n value : ∀ m dst,
  0 ≤ value < 256 →
  let pattern := wrap32 (Z.lor (Z.lor (Z.lor (Z.shiftl value 24) (Z.shiftl value 16))
                                      (Z.shiftl value 8)) value) in
  ∃ m', set_words be n m dst pattern = (m', dst + 4 * Z.of_nat n) ∧
        filled m m' dst value (4 * Z.of_nat n).
Proof.
  induction n as [| n IH]; intros m dst Hv pattern; simpl set_words.
  - exists m. split; [f_equal; lia | apply filled_refl].
  - replace (4 * Z.of_nat (S n)) with (4 + 4 * Z.of_nat n) by lia.
    destruct (IH (store32 be m dst pattern) (dst + 4) Hv) as (m' & Heq & Hf).
    exists m'. split.
    + fold pattern in Heq. rewrite Heq. f_equal; lia.
    + eapply filled_seq; [lia | lia | by apply filled_word | done].
Qed.

Lemma memset_filled m dst value size :
  0 ≤ size → filled m (memset m dst value size) dst value size.
Proof.
  intros Hs. unfold memset.
  rewrite <- (Z2Nat.id size) at 2 by done. apply set_bytes_filled.
Qed.

Lemma sf2000_memset_aligned_filled be m dst value size :
  0 ≤ value < 256 → 0 ≤ size →
  filled m (sf2000_memset_aligned be m dst value size) dst value size.
Proof.
  intros Hv Hs. unfold sf2000_memset_aligned.
  case_match; [| by apply memset_filled].
  destruct (shiftr2_land3 size Hs) as (Hsplit & Hw & Hr).
  set (w := Z.shiftr size 2) in *. set (r := Z.land size 3) in *.
  clearbody w r. subst size.
  destruct (set_words_filled be (Z.to_nat w) value m dst Hv) as (m1 & Heq & Hf).
  rewrite Heq. rewrite Z2Nat.id in Hf |- * by done.
  destruct (Z.ltb_spec 0 r).
  - eapply filled_seq; [lia | lia | done |].
    rewrite <- (Z2Nat.id r) at 2 by lia. apply set_bytes_filled.
  - replace (4 * w + r) with (4 * w) by lia. done.
Qed.

(** *** The properties of the bulk mover *)

(** C6. For every byte count from 0 to 4096, whatever the alignment of the
    two addresses (no hypothesis constrains them, so each of the 4 x 4
    alignments and both the word path and the byte path are covered), and
    for regions that do not overlap: [sf2000_memcpy_aligned] leaves exactly
    the memory a naive byte-wise copy ([memcpy]) leaves, namely the source
    bytes in the destination and every other byte as it was; and
    [sf2000_memset_aligned] leaves [byteValue] in each of the [byteCount]
    destination bytes and every other byte as it was. *)
Theorem copy_fill_correct be (m : mem) (dst src byteCount byteValue : Z) :
  byte_mem m →
  0 ≤ byteCount ≤ 4096 →
  0 ≤ byteValue < 256 →
  disjoint dst src byteCount →
  (∀ a, sf2000_memcpy_aligned be m dst src byteCount a = memcpy m dst src byteCount a) ∧
  (∀ i, 0 ≤ i < byteCount →
        sf2000_memcpy_aligned be m dst src byteCount (dst + i) = m (src + i)) ∧
  (∀ a, ¬ (dst ≤ a < dst + byteCount) →
        sf2000_memcpy_aligned be m dst src byteCount a = m a) ∧
  (∀ i, 0 ≤ i < byteCount →
        sf2000_memset_aligned be m dst byteValue byteCount (dst + i) = byteValue) ∧
  (∀ a, ¬ (dst ≤ a < dst + byteCount) →
        sf2000_memset_aligned be m dst byteValue byteCount a = m a).
Proof.
  intros Hm Hn Hv Hd.
  pose proof (sf2000_memcpy_aligned_copied be m dst src byteCount Hm (proj1 Hn) Hd) as Hc.
  pose proof (memcpy_copied m dst src byteCount (proj1 Hn) Hd) as Hnaive.
  pose proof (sf2000_memset_aligned_filled be m dst byteValue byteCount Hv (proj1 Hn)) as Hf.
  repeat split.
  - by eapply copied_ext.
  - intros i Hi. rewrite (Hc (dst + i)). range_cases.
  - intros a Ha. rewrite (Hc a). range_cases.
  - intros i Hi. rewrite (Hf (dst + i)). range_cases.
  - intros a Ha. rewrite (Hf a). range_cases.
Qed.

(** C7. For every byte count, whatever the alignment of the two addresses,
    and for regions that do not overlap, [sf2000_memcpy_burst] leaves the
    same memory as [sf2000_memcpy_aligned]. *)
Theorem burst_equivalence be (m : mem) (dst src n : Z) :
  byte_mem m →
  0 ≤ n →
  disjoint dst src n →
  ∀ a, sf2000_memcpy_burst be m dst src n a = sf2000_memcpy_aligned be m dst src n a.
Proof.
  intros Hm Hn Hd. eapply copied_ext.
  - by apply sf2000_memcpy_burst_copied.
  - by apply sf2000_memcpy_aligned_copied.
Qed.

Lemma ramp_byte_mem : byte_mem ramp.
Proof. intros a. apply Z.mod_pos_bound. lia. Qed.

Lemma copy_fill_correct_witness :
  let m' := sf2000_memcpy_aligned false ramp 1024 16 10 in
  let f' := sf2000_memset_aligned false ramp 1024 7 10 in
  (∀ a, m' a = memcpy ramp 1024 16 10 a) ∧
  (∀ i, 0 ≤ i < 10 → m' (1024 + i) = ramp (16 + i)) ∧
  (∀ a, ¬ (1024 ≤ a < 1024 + 10) → m' a = ramp a) ∧
  (∀ i, 0 ≤ i < 10 → f' (1024 + i) = 7) ∧
  (∀ a, ¬ (1024 ≤ a < 1024 + 10) → f' a = ramp a).
Proof.
  apply (copy_fill_correct false ramp 1024 16 10 7).
  - exact ramp_byte_mem.
  - lia.
  - lia.
  - unfold disjoint. lia.
Defined.

Lemma burst_equivalence_witness :
  disjoint 4096 64 77 ∧
  ∀ a, sf2000_memcpy_burst true ramp 4096 64 77 a
       = sf2000_memcpy_aligned true ramp 4096 64 77 a.
Proof.
  assert (disjoint 4096 64 77) as Hd by (unfold disjoint; lia).
  split; [exact Hd |].
  apply (burst_equivalence true ramp 4096 64 77).
  - exact ramp_byte_mem.
  - lia.
  - exact Hd.
Defined.

(** The scenario of the specification: 10 bytes between aligned addresses
    are 2 word copies and 2 byte copies. *)
Example copy_10_aligned :
  map (sf2000_memcpy_aligned false ramp 1024 16 10) (seqZ 1022 14)
  = [254; 255; 16; 17; 18; 19; 20; 21; 22; 23; 24; 25; 10; 11].
Proof. vm_compute. reflexivity. Qed.

Example burst_77_aligned :
  map (sf2000_memcpy_burst true ramp 4096 64 77) (seqZ 4094 81)
  = map (λ a, if (4096 <=? a) && (a <? 4096 + 77) then ramp (64 + (a - 4096)) else ramp a)
        (seqZ 4094 81).
Proof. vm_compute. reflexivity. Qed.

(** ** The pool allocator: the two scans *)

Lemma malloc_loop_skip n : ∀ i st size,
  (∀ j q, (i ≤ j < i + n)%nat → st !! j = Some q → fits size q = false) →
  (∀ j, (i ≤ j < i + n)%nat → is_Some (st !! j)) →
  malloc_loop n i st size = SysMalloc size.
Proof.
  induction n as [| n IH]; intros i st size Hno Hlen; simpl; [done |].
  destruct (Hlen i ltac:(lia)) as [pool Hpool]. rewrite Hpool.
  rewrite (Hno i pool) by (done || lia).
  apply IH.
  - intros j q Hj Hq. apply (Hno j q); [lia | done].
  - intros j Hj. apply Hlen. lia.
Qed.

Lemma malloc_loop_first n : ∀ i st size k pool,
  (i ≤ k < i + n)%nat →
  st !! k = Some pool → fits size pool = true →
  (∀ j q, (i ≤ j < k)%nat → st !! j = Some q → fits size q = false) →
  (∀ j, (i ≤ j < k)%nat → is_Some (st !! j)) →
  malloc_loop n i st size = take_block k pool st.
Proof.
  induction n as [| n IH]; intros i st size k pool Hk Hpool Hfit Hno Hlen; [lia |].
  simpl. destruct (decide (i = k)) as [-> | Hne].
  - by rewrite Hpool, Hfit.
  - destruct (Hlen i ltac:(lia)) as [q Hq]. rewrite Hq.
    rewrite (Hno i q) by (done || lia).
    apply IH; try done; try lia.
    + intros j q' Hj Hq'. apply (Hno j q'); [lia | done].
    + intros j Hj. apply Hlen. lia.
Qed.

(** What the scan of [sf2000_malloc_fast] returns, read backwards. *)
Lemma malloc_loop_inv n : ∀ i st size,
  match malloc_loop n i st size with
  | Block k st' a =>
      ∃ pool, (i ≤ k < i + n)%nat ∧ st !! k = Some pool ∧ fits size pool = true ∧
        (∀ j q, (i ≤ j < k)%nat → st !! j = Some q → fits size q = false) ∧
        take_block k pool st = Block k st' a
  | SysMalloc size' =>
      size' = size ∧
      ∀ j q, (i ≤ j < i + n)%nat → st !! j = Some q → fits size q = false
  | MallocFault _ => True
  end.
Proof.
  induction n as [| n IH]; intros i st size; simpl.
  - split; [done | intros; lia].
  - destruct (st !! i) as [pool |] eqn:Hpool; [| done].
    destruct (fits size pool) eqn:Hfit.
    + destruct (take_block i pool st) as [k st' a | |] eqn:Htake; try done.
      * assert (k = i) as ->.
        { unfold take_block in Htake. repeat case_match; congruence. }
        exists pool. repeat split; try done; try lia; try (intros; lia).
      * unfold take_block in Htake. repeat case_match; congruence.
    + specialize (IH (S i) st size).
      destruct (malloc_loop n (S i) st size) as [k st' a | size' |]; [| | done].
      * destruct IH as (p & Hk & Hp & Hf & Hno & Htake).
        exists p. repeat split; try done; try lia.
        intros j q Hj Hq. destruct (decide (j = i)) as [-> | Hne].
        -- congruence.
        -- eapply Hno; [| done]. lia.
      * destruct IH as [-> Hno]. split; [done |].
        intros j q Hj Hq. destruct (decide (j = i)) as [-> | Hne].
        -- congruence.
        -- eapply Hno; [| done]. lia.
Qed.

Lemma free_loop_skip n : ∀ i st ptr,
  (∀ j q, (i ≤ j < i + n)%nat → st !! j = Some q → in_span q ptr = false) →
  (∀ j, (i ≤ j < i + n)%nat → is_Some (st !! j)) →
  free_loop n i st ptr = SysFree ptr.
Proof.
  induction n as [| n IH]; intros i st ptr Hno Hlen; simpl; [done |].
  destruct (Hlen i ltac:(lia)) as [pool Hpool]. rewrite Hpool.
  rewrite (Hno i pool) by (done || lia).
  apply IH.
  - intros j q Hj Hq. apply (Hno j q); [lia | done].
  - intros j Hj. apply Hlen. lia.
Qed.

Lemma free_loop_first n : ∀ i st ptr k pool,
  (i ≤ k < i + n)%nat →
  st !! k = Some pool → in_span pool ptr = true →
  (∀ j q, (i ≤ j < k)%nat → st !! j = Some q → in_span q ptr = false) →
  (∀ j, (i ≤ j < k)%nat → is_Some (st !! j)) →
  free_loop n i st ptr = return_block k pool st ptr.
Proof.
  induction n as [| n IH]; intros i st ptr k pool Hk Hpool Hin Hno Hlen; [lia |].
  simpl. destruct (decide (i = k)) as [-> | Hne].
  - by rewrite Hpool, Hin.
  - destruct (Hlen i ltac:(lia)) as [q Hq]. rewrite Hq.
    rewrite (Hno i q) by (done || lia).
    apply IH; try done; try lia.
    + intros j q' Hj Hq'. apply (Hno j q'); [lia | done].
    + intros j Hj. apply Hlen. lia.
Qed.

Lemma lookup_pool (st : list SF2000_MemoryPool) j :
  length st = SF2000_POOL_COUNT → (j < SF2000_POOL_COUNT)%nat → is_Some (st !! j).
Proof. intros Hlen Hj. apply lookup_lt_is_Some. lia. Qed.

Lemma wrap32_small x : 0 ≤ x < 2 ^ 32 → wrap32 x = x.
Proof. intros Hx. unfold wrap32. by apply Z.mod_small. Qed.

Lemma wrap32_range x : 0 ≤ wrap32 x < 2 ^ 32.
Proof. unfold wrap32. apply Z.mod_pos_bound. lia. Qed.

Lemma wrap32_le x : 0 ≤ x → wrap32 x ≤ x.
Proof. intros Hx. unfold wrap32. apply Z.mod_le; lia. Qed.

(** ** Free: the two defensive cases *)

(** C5. [sf2000_free_fast] returns by itself and leaves every field of
    every pool as it was: when it is given the null pointer; and when the
    pointer lies in the span of a pool (the first one whose span holds it)
    whose [free_count] already equals its [block_count]. *)
Theorem free_defensive (st : list SF2000_MemoryPool) :
  sf2000_free_fast st 0 = Returned st ∧
  (∀ ptr k pool,
     st !! k = Some pool → (k < SF2000_POOL_COUNT)%nat →
     pool_typed pool →
     in_span pool ptr = true →
     (∀ j q, (j < k)%nat → st !! j = Some q → in_span q ptr = false) →
     free_count pool = block_count pool →
     sf2000_free_fast st ptr = Returned st).
Proof.
  split; [done |].
  intros ptr k pool Hpool Hk Hty Hin Hno Hfull. unfold sf2000_free_fast.
  case_match; [done |].
  rewrite (free_loop_first _ 0 st ptr k pool); try done; try lia.
  - unfold return_block.
    destruct (Z.eqb_spec (block_size pool) 0) as [Hz | Hnz].
    + (* an empty span holds no pointer *)
      exfalso. unfold in_span in Hin. rewrite Hz in Hin.
      rewrite Z.mul_0_l, (wrap32_small 0), Z.add_0_r in Hin by done.
      rewrite wrap32_small in Hin by apply Hty.
      apply andb_true_iff in Hin as [H1 H2].
      apply Z.leb_le in H1. apply Z.ltb_lt in H2. lia.
    + rewrite Hfull, Z.ltb_irrefl. done.
  - intros j q Hj Hq. apply (Hno j q); [lia | done].
  - intros j Hj. destruct (st !! j) eqn:Hj'; [done |].
    apply lookup_ge_None in Hj'. apply lookup_lt_Some in Hpool. lia.
Qed.

(** ** Reset *)

(** C10. [sf2000_memory_reset] zeroes the ROM cache and the slot states
    and nothing else: the pools (block size, block count, free count, free
    list and backing storage of each) are the same after it, so that
    [sf2000_free_fast] and [sf2000_malloc_fast] behave after a reset as
    they would have without it. *)
Theorem reset_keeps_pools (g : memory_system) :
  sf2000_memory_pools (sf2000_memory_reset g) = sf2000_memory_pools g ∧
  sf2000_rom_cache (sf2000_memory_reset g) = replicate 16 zero_rom_info ∧
  sf2000_slot_states (sf2000_memory_reset g) = replicate 4 zero_slot_state ∧
  (∀ ptr, sf2000_free_fast (sf2000_memory_pools (sf2000_memory_reset g)) ptr
          = sf2000_free_fast (sf2000_memory_pools g) ptr) ∧
  (∀ size, sf2000_malloc_fast (sf2000_memory_pools (sf2000_memory_reset g)) size
           = sf2000_malloc_fast (sf2000_memory_pools g) size).
Proof. by destruct g. Qed.

(** A pointer that no span holds goes to the general-purpose [free]. *)
Lemma free_foreign (st : list SF2000_MemoryPool) ptr :
  length st = SF2000_POOL_COUNT → ptr ≠ 0 →
  (∀ pool, pool ∈ st → in_span pool ptr = false) →
  sf2000_free_fast st ptr = SysFree ptr.
Proof.
  intros Hlen Hptr Hout. unfold sf2000_free_fast.
  destruct (Z.eqb_spec ptr 0); [done |].
  apply free_loop_skip.
  - intros j q _ Hq. apply Hout. by eapply list_elem_of_lookup_2.
  - intros j Hj. apply lookup_pool; [done | lia].
Qed.

(** ** A pool whose reservation failed *)

(** C1, on the code. When the request for the backing storage of the first
    pool fails, [sf2000_memory_pools_init] leaves that pool with a null
    [pool_memory], a null [free_list] and [free_count = block_count = 256];
    the next [sf2000_malloc_fast (16)] selects it and reads its free list
    through the null pointer. *)
Lemma failed_pool_is_selected :
  sf2000_memory_pools_init first_refused zero_pools = Ok degraded ∧
  degraded !! 0%nat = Some (mkPool 0 32 256 256 None) ∧
  sf2000_malloc_fast degraded 16 = MallocFault NullDeref.
Proof. vm_compute. done. Qed.

(** C2, on the code. In the same state the first pool is the first one
    with [size <= block_size] and [free_count > 0] for a request of 16
    bytes, no pool coming before it; [sf2000_malloc_fast (16)] neither
    returns a block of it nor goes to the general-purpose allocator: it
    stops on the read of the free list through the null pointer. *)
Lemma first_fit_faults :
  sf2000_memory_pools_init first_refused zero_pools = Ok degraded ∧
  (∃ pool, degraded !! 0%nat = Some pool ∧
           16 ≤ block_size pool ∧ 0 < free_count pool ∧ free_list pool = None) ∧
  match sf2000_malloc_fast degraded 16 with
  | MallocFault f => f = NullDeref
  | Block _ _ _ | SysMalloc _ => False
  end.
Proof.
  split; [vm_compute; reflexivity |]. split.
  - exists (mkPool 0 32 256 256 None).
    split; [vm_compute; reflexivity |]. simpl. split; [lia |]. split; [lia | done].
  - vm_compute. reflexivity.
Qed.

(** The scan of [sf2000_malloc_fast] never divides. *)
Lemma malloc_never_divides st size :
  sf2000_malloc_fast st size ≠ MallocFault DivByZero.
Proof.
  unfold sf2000_malloc_fast. generalize 0%nat as i.
  induction SF2000_POOL_COUNT as [| n IH]; intros i; simpl; [done |].
  destruct (st !! i) as [pool |]; [| done].
  destruct (fits size pool); [| apply IH].
  unfold take_block. repeat case_match; done.
Qed.

(** Whenever the first pool that fits has a null free list, as a pool
    whose reservation failed has, the allocation reads through it. *)
Lemma null_free_list_is_read (st : list SF2000_MemoryPool) size k pool :
  length st = SF2000_POOL_COUNT →
  st !! k = Some pool → fits size pool = true → free_list pool = None →
  (∀ j q, (j < k)%nat → st !! j = Some q → fits size q = false) →
  sf2000_malloc_fast st size = MallocFault NullDeref.
Proof.
  intros Hlen Hpool Hfit Hnull Hno. unfold sf2000_malloc_fast.
  rewrite (malloc_loop_first _ 0 st size k pool); try done.
  - unfold take_block. by rewrite Hnull.
  - apply lookup_lt_Some in Hpool. lia.
  - intros j q Hj Hq. apply (Hno j q); [lia | done].
  - intros j Hj. apply lookup_pool; [done |]. apply lookup_lt_Some in Hpool. lia.
Qed.

Lemma booted_pool_0 :
  booted !! 0%nat = Some (mkPool 1048608 32 256 256 (Some (seqZ 0 256))).
Proof. vm_compute. reflexivity. Qed.

Lemma booted_pool_1 :
  booted !! 1%nat = Some (mkPool 1060896 64 128 128 (Some (seqZ 0 128))).
Proof. vm_compute. reflexivity. Qed.

Lemma free_defensive_witness :
  sf2000_free_fast booted 0 = Returned booted ∧
  sf2000_free_fast booted (1060896 + 127 * 64) = Returned booted.
Proof.
  destruct (free_defensive booted) as [Hnull Hfull].
  split; [exact Hnull |].
  apply (Hfull _ 1%nat (mkPool 1060896 64 128 128 (Some (seqZ 0 128)))).
  - exact booted_pool_1.
  - unfold SF2000_POOL_COUNT. lia.
  - split; unfold uint32; simpl; lia.
  - vm_compute. reflexivity.
  - intros j q Hj Hq. assert (j = 0%nat) as -> by lia.
    rewrite booted_pool_0 in Hq. injection Hq as <-. vm_compute. reflexivity.
  - reflexivity.
Defined.

(** ** The pools under sequences of calls *)

Lemma geometry_bounds pool :
  geometry pool →
  0 ≤ block_size pool * block_count pool ∧
  block_count pool < 2 ^ 32 ∧
  wrap32 (pool_memory pool + wrap32 (block_size pool * block_count pool))
  = pool_memory pool + block_size pool * block_count pool.
Proof.
  intros (Hb & Hs & Hc & He).
  assert (0 ≤ block_size pool * block_count pool) by nia.
  assert (block_count pool ≤ block_size pool * block_count pool) by nia.
  repeat split; [done | lia |].
  rewrite (wrap32_small (_ * _)) by lia. apply wrap32_small. lia.
Qed.

Lemma in_span_geometry pool x :
  geometry pool →
  in_span pool x = true ↔
  pool_memory pool ≤ x < pool_memory pool + block_size pool * block_count pool.
Proof.
  intros Hg. destruct (geometry_bounds pool Hg) as (_ & _ & Hw).
  unfold in_span. rewrite Hw, andb_true_iff, Z.leb_le, Z.ltb_lt. done.
Qed.

Lemma block_offset pool idx :
  geometry pool → 0 ≤ idx < block_count pool →
  0 ≤ idx * block_size pool ∧
  idx * block_size pool + block_size pool ≤ block_size pool * block_count pool.
Proof. intros (Hb & Hs & Hc & He) Hi. nia. Qed.

Lemma block_addr_geometry pool idx :
  geometry pool → 0 ≤ idx < block_count pool →
  wrap32 (pool_memory pool + wrap32 (idx * block_size pool))
  = pool_memory pool + idx * block_size pool.
Proof.
  intros Hg Hi. pose proof (block_offset pool idx Hg Hi) as [H1 H2].
  destruct Hg as (Hb & Hs & Hc & He).
  rewrite (wrap32_small (_ * _)) by lia. apply wrap32_small. lia.
Qed.

Lemma block_in_span pool idx :
  geometry pool → 0 ≤ idx < block_count pool →
  in_span pool (pool_memory pool + idx * block_size pool) = true.
Proof.
  intros Hg Hi. apply in_span_geometry; [done |].
  pose proof (block_offset pool idx Hg Hi) as [H1 H2].
  destruct Hg as (Hb & Hs & Hc & He). lia.
Qed.

(** The index that [sf2000_free_fast] computes for a pointer of the span. *)
Lemma span_index pool ptr :
  geometry pool → in_span pool ptr = true →
  0 ≤ wrap32 (ptr - pool_memory pool) / block_size pool < block_count pool.
Proof.
  intros Hg Hin. apply in_span_geometry in Hin; [| done].
  destruct Hg as (Hb & Hs & Hc & He).
  rewrite wrap32_small by nia. split.
  - apply Z.div_pos; lia.
  - apply Z.div_lt_upper_bound; lia.
Qed.

Lemma block_index_back pool idx :
  geometry pool → 0 ≤ idx < block_count pool →
  wrap32 (pool_memory pool + idx * block_size pool - pool_memory pool)
  / block_size pool = idx.
Proof.
  intros Hg Hi. pose proof (block_offset pool idx Hg Hi) as [H1 H2].
  destruct Hg as (Hb & Hs & Hc & He).
  replace (pool_memory pool + idx * block_size pool - pool_memory pool)
    with (idx * block_size pool) by lia.
  rewrite wrap32_small by lia. apply Z.div_mul. lia.
Qed.

Lemma malloc_loop_cases n : ∀ i st size,
  (∀ j, (i ≤ j < i + n)%nat → is_Some (st !! j)) →
  (malloc_loop n i st size = SysMalloc size ∧
   ∀ j q, (i ≤ j < i + n)%nat → st !! j = Some q → fits size q = false) ∨
  (∃ k pool, (i ≤ k < i + n)%nat ∧ st !! k = Some pool ∧ fits size pool = true ∧
     (∀ j q, (i ≤ j < k)%nat → st !! j = Some q → fits size q = false) ∧
     malloc_loop n i st size = take_block k pool st).
Proof.
  induction n as [| n IH]; intros i st size Hlen; simpl.
  - left. split; [done | intros; lia].
  - destruct (Hlen i ltac:(lia)) as [pool Hpool]. rewrite Hpool.
    destruct (fits size pool) eqn:Hfit.
    + right. exists i, pool. repeat split; try done; try lia; try (intros; lia).
    + destruct (IH (S i) st size) as [[Heq Hno] | (k & p & Hk & Hp & Hf & Hno & Heq)].
      * intros j Hj. apply Hlen. lia.
      * left. split; [done |]. intros j q Hj Hq.
        destruct (decide (j = i)) as [-> | Hne]; [congruence |].
        apply (Hno j q); [lia | done].
      * right. exists k, p. repeat split; try done; try lia.
        intros j q Hj Hq.
        destruct (decide (j = i)) as [-> | Hne]; [congruence |].
        apply (Hno j q); [lia | done].
Qed.

Lemma free_loop_cases n : ∀ i st ptr,
  (∀ j, (i ≤ j < i + n)%nat → is_Some (st !! j)) →
  (free_loop n i st ptr = SysFree ptr ∧
   ∀ j q, (i ≤ j < i + n)%nat → st !! j = Some q → in_span q ptr = false) ∨
  (∃ k pool, (i ≤ k < i + n)%nat ∧ st !! k = Some pool ∧ in_span pool ptr = true ∧
     (∀ j q, (i ≤ j < k)%nat → st !! j = Some q → in_span q ptr = false) ∧
     free_loop n i st ptr = return_block k pool st ptr).
Proof.
  induction n as [| n IH]; intros i st ptr Hlen; simpl.
  - left. split; [done | intros; lia].
  - destruct (Hlen i ltac:(lia)) as [pool Hpool]. rewrite Hpool.
    destruct (in_span pool ptr) eqn:Hin.
    + right. exists i, pool. repeat split; try done; try lia; try (intros; lia).
    + destruct (IH (S i) st ptr) as [[Heq Hno] | (k & p & Hk & Hp & Hf & Hno & Heq)].
      * intros j Hj. apply Hlen. lia.
      * left. split; [done |]. intros j q Hj Hq.
        destruct (decide (j = i)) as [-> | Hne]; [congruence |].
        apply (Hno j q); [lia | done].
      * right. exists k, p. repeat split; try done; try lia.
        intros j q Hj Hq.
        destruct (decide (j = i)) as [-> | Hne]; [congruence |].
        apply (Hno j q); [lia | done].
Qed.

(** What [sf2000_malloc_fast] does on sound pools. *)
Lemma malloc_shape st size :
  pools_sound st →
  (sf2000_malloc_fast st size = SysMalloc size ∧
   ∀ k q, st !! k = Some q → fits size q = false) ∨
  (∃ k pool fl idx,
     st !! k = Some pool ∧ fits size pool = true ∧ 0 < free_count pool ∧
     free_list pool = Some fl ∧
     fl !! Z.to_nat (free_count pool - 1) = Some idx ∧
     0 ≤ idx < block_count pool ∧
     sf2000_malloc_fast st size =
       Block k
         (<[k := mkPool (pool_memory pool) (block_size pool) (block_count pool)
                        (free_count pool - 1) (Some fl)]> st)
         (pool_memory pool + idx * block_size pool)).
Proof.
  intros [Hlen Hsound]. unfold sf2000_malloc_fast.
  destruct (malloc_loop_cases SF2000_POOL_COUNT 0 st size)
    as [[Heq Hno] | (k & pool & Hk & Hpool & Hfit & Hno & Heq)].
  - intros j Hj. apply lookup_pool; [done | lia].
  - left. split; [done |]. intros k q Hq. apply (Hno k q); [| done].
    apply lookup_lt_Some in Hq. lia.
  - right. destruct (Hsound pool) as [Hg ((Hfc0 & Hfc) & fl & Hfl & Hlenfl & Hall)].
    { by eapply list_elem_of_lookup_2. }
    destruct (geometry_bounds pool Hg) as (_ & Hbc & _).
    assert (0 < free_count pool) as Hpos.
    { unfold fits in Hfit. apply andb_true_iff in Hfit as [_ H]. by apply Z.ltb_lt. }
    destruct (lookup_lt_is_Some_2 fl (Z.to_nat (free_count pool - 1))) as [idx Hidx];
      [lia |].
    assert (0 ≤ idx < block_count pool) as Hrange.
    { rewrite Forall_lookup in Hall. by apply (Hall _ _ Hidx). }
    exists k, pool, fl, idx. repeat split; try done; try lia.
    rewrite Heq. unfold take_block.
    rewrite (wrap32_small (free_count pool - 1)) by lia.
    rewrite Hfl, Hidx, block_addr_geometry by done. done.
Qed.

(** What [sf2000_free_fast] does on sound pools, for any pointer. *)
Lemma free_shape st ptr :
  pools_sound st → ptr ≠ 0 →
  (sf2000_free_fast st ptr = SysFree ptr ∧
   ∀ k q, st !! k = Some q → in_span q ptr = false) ∨
  (∃ k pool fl,
     st !! k = Some pool ∧ in_span pool ptr = true ∧
     (∀ j q, (j < k)%nat → st !! j = Some q → in_span q ptr = false) ∧
     free_list pool = Some fl ∧
     ((free_count pool = block_count pool ∧ sf2000_free_fast st ptr = Returned st) ∨
      (free_count pool < block_count pool ∧
       sf2000_free_fast st ptr =
         Returned
           (<[k := mkPool (pool_memory pool) (block_size pool) (block_count pool)
                          (free_count pool + 1)
                          (Some (<[Z.to_nat (free_count pool)
                                   := wrap32 (ptr - pool_memory pool) / block_size pool]>
                                   fl))]> st)))).
Proof.
  intros [Hlen Hsound] Hptr. unfold sf2000_free_fast.
  destruct (Z.eqb_spec ptr 0) as [| _]; [done |].
  destruct (free_loop_cases SF2000_POOL_COUNT 0 st ptr)
    as [[Heq Hno] | (k & pool & Hk & Hpool & Hin & Hno & Heq)].
  - intros j Hj. apply lookup_pool; [done | lia].
  - left. split; [done |]. intros k q Hq. apply (Hno k q); [| done].
    apply lookup_lt_Some in Hq. lia.
  - right. destruct (Hsound pool) as [Hg ((Hfc0 & Hfc) & fl & Hfl & Hlenfl & Hall)].
    { by eapply list_elem_of_lookup_2. }
    destruct (geometry_bounds pool Hg) as (_ & Hbc & _).
    exists k, pool, fl. repeat split; try done.
    { intros j q Hj Hq. apply (Hno j q); [lia | done]. }
    rewrite Heq. unfold return_block.
    destruct (Z.eqb_spec (block_size pool) 0) as [Hz | _].
    { destruct Hg as (_ & Hs & _). lia. }
    destruct (Z.ltb_spec (free_count pool) (block_count pool)) as [Hlt | Hge].
    + right. split; [done |]. rewrite Hfl.
      destruct (Nat.ltb_spec (Z.to_nat (free_count pool)) (length fl)) as [_ | Hbad];
        [| lia].
      rewrite (wrap32_small (free_count pool + 1)) by lia. done.
    + left. split; [lia | done].
Qed.

(** *** Soundness of the pools under every call *)

Lemma elem_of_insert_inv {A} (l : list A) i x y :
  y ∈ <[i := x]> l → y = x ∨ y ∈ l.
Proof.
  intros Hy. apply list_elem_of_lookup in Hy as [j Hj].
  apply list_lookup_insert_Some in Hj as [(-> & -> & _) | [_ Hj]]; [by left |].
  right. by eapply list_elem_of_lookup_2.
Qed.

Lemma sound_insert st k pool' :
  pools_sound st → geometry pool' → bounded pool' →
  pools_sound (<[k := pool']> st).
Proof.
  intros [Hlen Hsound] Hg Hb. split; [by rewrite length_insert |].
  intros q Hq. apply elem_of_insert_inv in Hq as [-> | Hq]; [done | by apply Hsound].
Qed.

Lemma step_sound h c :
  pools_sound (pools h) → ∃ h', step h c = Ok h' ∧ pools_sound (pools h').
Proof.
  intros Hs. destruct c as [size sys | ptr]; simpl.
  - destruct (malloc_shape (pools h) size Hs)
      as [[Heq _] | (k & pool & fl & idx & Hpool & _ & Hpos & Hfl & _ & _ & Heq)];
      rewrite Heq; eexists; (split; [done |]); simpl; [done |].
    destruct Hs as [Hlen Hsound].
    destruct (Hsound pool) as [Hg ((Hfc0 & Hfc) & fl' & Hfl' & Hlenfl & Hall)].
    { by eapply list_elem_of_lookup_2. }
    apply sound_insert; [done | done |].
    split; simpl; [lia |]. exists fl'. by rewrite Hfl in Hfl'.
  - destruct (decide (ptr = 0)) as [-> | Hptr].
    { eexists. by split. }
    destruct (free_shape (pools h) ptr Hs Hptr)
      as [[Heq _] | (k & pool & fl & Hpool & Hin & _ & Hfl & [[_ Heq] | [Hlt Heq]])];
      rewrite Heq; eexists; (split; [done |]); simpl; [done | done |].
    destruct Hs as [Hlen Hsound].
    destruct (Hsound pool) as [Hg ((Hfc0 & Hfc) & fl' & Hfl' & Hlenfl & Hall)].
    { by eapply list_elem_of_lookup_2. }
    rewrite Hfl in Hfl'. injection Hfl' as <-.
    apply sound_insert; [done | done |].
    split; simpl; [lia |]. eexists. split; [done |].
    split; [by rewrite length_insert |].
    apply Forall_insert; [done |]. by apply span_index.
Qed.

Lemma run_sound cs : ∀ h,
  pools_sound (pools h) → ∃ h', run h cs = Ok h' ∧ pools_sound (pools h').
Proof.
  induction cs as [| c cs IH]; intros h Hs; simpl.
  - by exists h.
  - destruct (step_sound h c Hs) as (h1 & -> & Hs1). by apply IH.
Qed.

(** *** Counting the live pointers of a span *)

Lemma allocated_from_cons pool x live :
  allocated_from pool (x :: live)
  = (if in_span pool x then 1 else 0) + allocated_from pool live.
Proof.
  unfold allocated_from. destruct (in_span pool x) eqn:Hin.
  - rewrite filter_cons_True by done. simpl length. lia.
  - rewrite filter_cons_False by congruence. lia.
Qed.

Lemma allocated_from_release_out pool x live :
  in_span pool x = false →
  allocated_from pool (filter (λ q, q ≠ x) live) = allocated_from pool live.
Proof.
  intros Hout. induction live as [| y live IH]; [done |].
  destruct (decide (y = x)) as [-> | Hne].
  - rewrite filter_cons_False by naive_solver.
    rewrite allocated_from_cons, Hout. lia.
  - rewrite filter_cons_True by done.
    rewrite !allocated_from_cons. lia.
Qed.

Lemma allocated_from_release_in pool x live :
  NoDup live → x ∈ live → in_span pool x = true →
  allocated_from pool (filter (λ q, q ≠ x) live) + 1 = allocated_from pool live.
Proof.
  intros Hnd Hx Hin. induction live as [| y live IH]; [by apply elem_of_nil in Hx |].
  apply NoDup_cons in Hnd as [Hy Hnd].
  destruct (decide (y = x)) as [-> | Hne].
  - rewrite filter_cons_False by naive_solver.
    rewrite allocated_from_cons, Hin.
    assert (filter (λ q, q ≠ x) live = live) as ->; [| lia].
    clear IH Hx Hnd. induction live as [| z live IH]; [done |].
    apply not_elem_of_cons in Hy as [Hz Hy].
    rewrite filter_cons_True by done. f_equal. by apply IH.
  - rewrite filter_cons_True by done. rewrite !allocated_from_cons.
    apply elem_of_cons in Hx as [-> | Hx]; [done |].
    specialize (IH Hnd Hx). lia.
Qed.

Lemma in_span_same pool pool' x :
  pool_memory pool' = pool_memory pool →
  block_size pool' = block_size pool →
  block_count pool' = block_count pool →
  in_span pool' x = in_span pool x.
Proof. intros H1 H2 H3. unfold in_span. by rewrite H1, H2, H3. Qed.

Lemma allocated_from_same pool pool' live :
  pool_memory pool' = pool_memory pool →
  block_size pool' = block_size pool →
  block_count pool' = block_count pool →
  allocated_from pool' live = allocated_from pool live.
Proof.
  intros H1 H2 H3. induction live as [| y live IH]; [done |].
  rewrite !allocated_from_cons, IH, (in_span_same pool pool'); done.
Qed.

Lemma accounted_release_other pool x live :
  in_span pool x = false →
  accounted pool live → accounted pool (filter (λ q, q ≠ x) live).
Proof.
  intros Hout (Hnd & Hlive & Hcount). split; [done | split].
  - intros q Hq Hin. apply list_elem_of_filter in Hq as [_ Hq]. by apply Hlive.
  - by rewrite allocated_from_release_out.
Qed.

Lemma accounted_cons_other pool x live :
  in_span pool x = false →
  accounted pool live → accounted pool (x :: live).
Proof.
  intros Hout (Hnd & Hlive & Hcount). split; [done | split].
  - intros q Hq Hin. apply elem_of_cons in Hq as [-> | Hq]; [congruence |].
    by apply Hlive.
  - rewrite allocated_from_cons, Hout. lia.
Qed.

(** *** The accounts of the pool that serves a call *)

Lemma accounted_take pool fl idx live :
  geometry pool → bounded pool → accounted pool live →
  0 < free_count pool → free_list pool = Some fl →
  fl !! Z.to_nat (free_count pool - 1) = Some idx →
  (pool_memory pool + idx * block_size pool ∉ live) ∧
  accounted (mkPool (pool_memory pool) (block_size pool) (block_count pool)
                    (free_count pool - 1) (Some fl))
            (pool_memory pool + idx * block_size pool :: live).
Proof.
  intros Hg ((Hfc0 & Hfc) & fl' & Hfl' & Hlenfl & Hall) (Hnd & Hlive & Hcount) Hpos Hfl Hidx.
  rewrite Hfl in Hfl'. injection Hfl' as <-.
  assert (0 ≤ idx < block_count pool) as Hrange.
  { rewrite Forall_lookup in Hall. by apply (Hall _ _ Hidx). }
  pose proof (block_in_span pool idx Hg Hrange) as Hin.
  assert (take (Z.to_nat (free_count pool)) fl
          = take (Z.to_nat (free_count pool - 1)) fl ++ [idx]) as Htake.
  { replace (Z.to_nat (free_count pool)) with (S (Z.to_nat (free_count pool - 1))) by lia.
    by apply take_S_r. }
  specialize (Hnd fl Hfl). rewrite Htake in Hnd.
  apply NoDup_app in Hnd as (Hnd1 & Hnd2 & _).
  assert (idx ∈ take (Z.to_nat (free_count pool)) fl) as Hfree.
  { rewrite Htake. apply elem_of_app. right. by apply list_elem_of_singleton. }
  assert (pool_memory pool + idx * block_size pool ∉ live) as Hfresh.
  { intros Hq. destruct (Hlive _ Hq Hin) as (idx' & Hr' & Heq & Hnot).
    assert (idx' = idx) as -> by (destruct Hg as (_ & Hs & _); nia).
    by apply (Hnot fl). }
  split; [done |]. split; [| split]; simpl.
  - intros fl' Hfl'. by injection Hfl' as <-.
  - intros q Hq Hinq. apply elem_of_cons in Hq as [-> | Hq].
    + exists idx. repeat split; try done; try lia.
      intros fl' Hfl' Hmem. injection Hfl' as <-.
      apply (Hnd2 idx Hmem). by apply list_elem_of_singleton.
    + destruct (Hlive q Hq) as (idx' & Hr' & Heq & Hnot).
      { by rewrite <- Hinq. }
      exists idx'. repeat split; try done; try lia.
      intros fl' Hfl' Hmem. injection Hfl' as <-.
      apply (Hnot fl Hfl). rewrite Htake. apply elem_of_app. by left.
  - rewrite allocated_from_cons.
    rewrite (in_span_same pool) by done. rewrite Hin.
    rewrite (allocated_from_same pool) by done. lia.
Qed.

Lemma accounted_return pool fl ptr live :
  geometry pool → bounded pool → accounted pool live →
  NoDup live → ptr ∈ live → in_span pool ptr = true →
  free_list pool = Some fl →
  free_count pool < block_count pool ∧
  accounted (mkPool (pool_memory pool) (block_size pool) (block_count pool)
                    (free_count pool + 1)
                    (Some (<[Z.to_nat (free_count pool)
                             := wrap32 (ptr - pool_memory pool) / block_size pool]> fl)))
            (filter (λ q, q ≠ ptr) live).
Proof.
  intros Hg ((Hfc0 & Hfc) & fl' & Hfl' & Hlenfl & Hall) (Hnd & Hlive & Hcount)
         Hndl Hptr Hin Hfl.
  rewrite Hfl in Hfl'. injection Hfl' as <-.
  destruct (Hlive ptr Hptr Hin) as (idx & Hrange & -> & Hnot).
  rewrite block_index_back by done.
  pose proof (allocated_from_release_in pool _ live Hndl Hptr Hin) as Hrel.
  assert (0 ≤ allocated_from pool
                 (filter (λ q, q ≠ pool_memory pool + idx * block_size pool) live)) as Hnn.
  { unfold allocated_from. lia. }
  assert (free_count pool < block_count pool) as Hlt by lia.
  split; [done |].
  assert (take (Z.to_nat (free_count pool + 1))
               (<[Z.to_nat (free_count pool) := idx]> fl)
          = take (Z.to_nat (free_count pool)) fl ++ [idx]) as Htake.
  { replace (Z.to_nat (free_count pool + 1)) with (S (Z.to_nat (free_count pool))) by lia.
    rewrite (take_S_r _ _ idx) by (apply list_lookup_insert_eq; lia).
    by rewrite take_insert_ge by lia. }
  split; [| split]; simpl.
  - intros fl' Hfl'. injection Hfl' as <-. rewrite Htake.
    apply NoDup_app. split; [by apply Hnd |]. split; [| apply NoDup_singleton].
    intros x Hx Hx'. apply list_elem_of_singleton in Hx' as ->. by apply (Hnot fl).
  - intros q Hq Hinq. apply list_elem_of_filter in Hq as [Hne Hq].
    destruct (Hlive q Hq) as (idx' & Hr' & Heq & Hnot').
    { by rewrite <- Hinq. }
    exists idx'. repeat split; try done; try lia.
    intros fl' Hfl' Hmem. injection Hfl' as <-. rewrite Htake in Hmem.
    apply elem_of_app in Hmem as [Hmem | Hmem]; [by apply (Hnot' fl) |].
    apply list_elem_of_singleton in Hmem as ->. done.
  - rewrite (allocated_from_same pool) by done. lia.
Qed.

(** *** The invariant under the calls that keep to the contract *)

Lemma heap_inv_insert h k pool pool' live' :
  heap_inv h → pools h !! k = Some pool →
  pool_memory pool' = pool_memory pool →
  block_size pool' = block_size pool →
  block_count pool' = block_count pool →
  bounded pool' →
  NoDup live' →
  accounted pool' live' →
  (∀ j q, j ≠ k → pools h !! j = Some q → accounted q live') →
  heap_inv (mkHeap (<[k := pool']> (pools h)) live').
Proof.
  intros (Hs & Hnd & Hdisj & Hacc) Hpool H1 H2 H3 Hb Hnd' Hacc' Hrest.
  assert (geometry pool') as Hg'.
  { destruct Hs as [_ Hsound]. destruct (Hsound pool) as [Hg _].
    { by eapply list_elem_of_lookup_2. }
    unfold geometry. by rewrite H1, H2, H3. }
  split; [by apply sound_insert |]. split; [done |]. split; simpl.
  - intros i j p q x Hp Hq Hinp Hinq.
    apply list_lookup_insert_Some in Hp as [(-> & -> & _) | [Hik Hp]];
      apply list_lookup_insert_Some in Hq as [(-> & -> & _) | [Hjk Hq]]; try done.
    + rewrite (in_span_same pool) in Hinp by done. by apply (Hdisj i j pool q x).
    + rewrite (in_span_same pool) in Hinq by done. by apply (Hdisj i j p pool x).
    + by apply (Hdisj i j p q x).
  - intros q Hq. apply list_elem_of_lookup in Hq as [j Hj].
    apply list_lookup_insert_Some in Hj as [(-> & -> & _) | [Hjk Hj]]; [done |].
    by apply (Hrest j).
Qed.

Lemma heap_inv_live h live' :
  heap_inv h → NoDup live' →
  (∀ q, q ∈ pools h → accounted q live') →
  heap_inv (mkHeap (pools h) live').
Proof.
  intros (Hs & Hnd & Hdisj & Hacc) Hnd' Hacc'.
  split; [done |]. split; [done |]. split; done.
Qed.

Lemma step_inv h c h' :
  heap_inv h → call_ok h c → step h c = Ok h' → heap_inv h'.
Proof.
  intros Hinv Hok Hstep.
  pose proof Hinv as (Hs & Hnd & Hdisj & Hacc).
  pose proof Hs as [Hlen Hsound].
  destruct c as [size sys | ptr]; simpl in Hstep, Hok.
  - (* Allocate *)
    destruct (malloc_shape (pools h) size Hs)
      as [[Heq _] | (k & pool & fl & idx & Hpool & _ & Hpos & Hfl & Hidx & Hrange & Heq)];
      rewrite Heq in Hstep; injection Hstep as <-.
    + (* the general-purpose allocator answers *)
      destruct (Z.eqb_spec sys 0) as [-> | Hsys]; [by destruct h |].
      destruct Hok as [-> | [Hfresh Hout]]; [done |].
      apply heap_inv_live; [done | by apply NoDup_cons |].
      intros q Hq. apply accounted_cons_other; [by apply Hout | by apply Hacc].
    + (* a block of pool [k] *)
      assert (pool ∈ pools h) as Hmem by (by eapply list_elem_of_lookup_2).
      destruct (Hsound pool Hmem) as [Hg Hb].
      destruct (accounted_take pool fl idx (live h) Hg Hb (Hacc pool Hmem) Hpos Hfl Hidx)
        as [Hfresh Hacc'].
      eapply heap_inv_insert; try done.
      * destruct Hb as ((Hfc0 & Hfc) & fl' & Hfl' & Hrest).
        split; simpl; [lia |]. exists fl'. by rewrite Hfl in Hfl'.
      * by apply NoDup_cons.
      * intros j q Hjk Hq. apply accounted_cons_other.
        -- destruct (in_span q _) eqn:Hin; [| done].
           exfalso. apply Hjk.
           apply (Hdisj j k q pool (pool_memory pool + idx * block_size pool));
             try done. by apply block_in_span.
        -- apply Hacc. by eapply list_elem_of_lookup_2.
  - (* Free *)
    destruct (decide (ptr = 0)) as [-> | Hptr].
    { simpl in Hstep. injection Hstep as <-.
      apply heap_inv_live; [done | by apply NoDup_filter |].
      intros q Hq. apply accounted_release_other; [| by apply Hacc].
      destruct (Hsound q Hq) as [Hg _].
      destruct (in_span q 0) eqn:Hin; [| done].
      apply in_span_geometry in Hin; [| done]. destruct Hg as (Hb & _). lia. }
    destruct Hok as [-> | Hlive]; [done |].
    destruct (free_shape (pools h) ptr Hs Hptr)
      as [[Heq Hno] | (k & pool & fl & Hpool & Hin & _ & Hfl & Hcase)].
    + (* the general-purpose allocator takes it back *)
      rewrite Heq in Hstep. injection Hstep as <-.
      apply heap_inv_live; [done | by apply NoDup_filter |].
      intros q Hq. apply accounted_release_other; [| by apply Hacc].
      apply list_elem_of_lookup in Hq as [j Hj]. by apply (Hno j).
    + (* a block of pool [k] *)
      assert (pool ∈ pools h) as Hmem by (by eapply list_elem_of_lookup_2).
      destruct (Hsound pool Hmem) as [Hg Hb].
      destruct (accounted_return pool fl ptr (live h) Hg Hb (Hacc pool Hmem)
                  Hnd Hlive Hin Hfl) as [Hlt Hacc'].
      destruct Hcase as [[Hfull _] | [_ Heq]]; [lia |].
      rewrite Heq in Hstep. injection Hstep as <-.
      eapply heap_inv_insert; try done.
      * destruct Hb as ((Hfc0 & Hfc) & fl' & Hfl' & Hlenfl & Hall).
        rewrite Hfl in Hfl'. injection Hfl' as <-.
        split; simpl; [lia |]. eexists. split; [done |].
        split; [by rewrite length_insert |].
        apply Forall_insert; [done |]. by apply span_index.
      * by apply NoDup_filter.
      * intros j q Hjk Hq. apply accounted_release_other.
        -- destruct (in_span q ptr) eqn:Hinq; [| done].
           exfalso. apply Hjk. by apply (Hdisj j k q pool ptr).
        -- apply Hacc. by eapply list_elem_of_lookup_2.
Qed.

Lemma run_inv cs : ∀ h,
  heap_inv h → well_behaved h cs →
  ∃ h', run h cs = Ok h' ∧ heap_inv h'.
Proof.
  induction cs as [| c cs IH]; intros h Hinv Hwb; simpl.
  - by exists h.
  - destruct Hwb as [Hok Hrest].
    destruct (step_sound h c) as (h1 & Hstep & _); [apply Hinv |].
    rewrite Hstep. apply IH; [by eapply step_inv | by apply Hrest].
Qed.

Lemma run_app cs1 : ∀ cs2 h h1,
  run h cs1 = Ok h1 → run h (cs1 ++ cs2) = run h1 cs2.
Proof.
  induction cs1 as [| c cs1 IH]; intros cs2 h h1 Hrun; simpl in *.
  - by injection Hrun as ->.
  - destruct (step h c) as [h' |]; [by apply IH | done].
Qed.

Lemma well_behaved_prefix cs1 : ∀ cs2 h,
  well_behaved h (cs1 ++ cs2) → well_behaved h cs1.
Proof.
  induction cs1 as [| c cs1 IH]; intros cs2 h Hwb; simpl in *; [done |].
  destruct Hwb as [Hok Hrest]. split; [done |].
  intros h' Hstep. eapply IH. by apply Hrest.
Qed.

(** ** Initialisation *)

Lemma land_cache_line_mask x :
  0 ≤ x < 2 ^ 32 →
  Z.land x (wrap32 (Z.lnot (SF2000_CACHE_LINE_SIZE - 1))) = 32 * (x / 32).
Proof.
  intros Hx.
  change (wrap32 (Z.lnot (SF2000_CACHE_LINE_SIZE - 1)))
    with (Z.land (Z.ones 32) (Z.lnot (Z.ones 5))).
  rewrite Z.land_assoc, Z.land_ones by lia.
  rewrite Z.mod_small by lia.
  rewrite <- Z.ldiff_land, Z.ldiff_ones_r by lia.
  rewrite Z.shiftl_mul_pow2, Z.shiftr_div_pow2 by lia.
  change (2 ^ 5) with 32. lia.
Qed.

Lemma align_cache_line_eq a :
  0 ≤ a → a + 31 < 2 ^ 32 → align_cache_line a = 32 * ((a + 31) / 32).
Proof.
  intros H0 H1. unfold align_cache_line.
  rewrite land_cache_line_mask by apply wrap32_range.
  unfold SF2000_CACHE_LINE_SIZE.
  replace (a + 32 - 1) with (a + 31) by lia.
  by rewrite wrap32_small by lia.
Qed.

Lemma align_cache_line_bounds a :
  0 ≤ a → a + 31 < 2 ^ 32 →
  a ≤ align_cache_line a ≤ a + 31 ∧ align_cache_line a mod 32 = 0.
Proof.
  intros H0 H1. rewrite align_cache_line_eq by done.
  split; [Z.div_mod_to_equations; lia |].
  rewrite Z.mul_comm. apply Z.mod_mul. lia.
Qed.

Lemma init_free_list_seq n : ∀ j tail,
  0 ≤ j → length tail = n →
  init_free_list n j (seqZ 0 j ++ tail) = seqZ 0 (j + Z.of_nat n).
Proof.
  induction n as [| n IH]; intros j tail Hj Hlen; simpl.
  - destruct tail; [| done]. rewrite app_nil_r. f_equal. lia.
  - destruct tail as [| x tail]; [done |].
    rewrite insert_app_r_alt by (rewrite length_seqZ; lia).
    rewrite length_seqZ, Nat.sub_diag. simpl.
    replace (seqZ 0 j ++ j :: tail) with (seqZ 0 (j + 1) ++ tail).
    + rewrite IH by (simpl in Hlen; lia). f_equal. lia.
    + rewrite (seqZ_app 0 j 1) by lia. rewrite <- app_assoc. done.
Qed.

Lemma init_free_list_fresh count :
  0 ≤ count →
  init_free_list (Z.to_nat count) 0 (replicate (Z.to_nat count) 0) = seqZ 0 count.
Proof.
  intros Hc.
  change (replicate (Z.to_nat count) 0)
    with (seqZ 0 0 ++ replicate (Z.to_nat count) 0).
  rewrite init_free_list_seq; [f_equal; lia | done | apply length_replicate].
Qed.

Lemma init_pool_served pool size count sys :
  0 ≤ count → backing_malloc sys ≠ 0 → free_list_malloc sys ≠ 0 →
  init_pool pool size count sys = Ok (fresh_pool size count sys).
Proof.
  intros Hc Hb Hf. unfold init_pool, fresh_pool.
  destruct (Z.eqb_spec (backing_malloc sys) 0); [done |].
  destruct (Z.eqb_spec (free_list_malloc sys) 0); [done |].
  by rewrite init_free_list_fresh.
Qed.

(** The table of the pools: every pool has 8192 bytes. *)
Lemma pool_table i size count :
  SF2000_POOL_SIZES !! i = Some size → blocks_per_pool !! i = Some count →
  (i < SF2000_POOL_COUNT)%nat ∧ 0 < size ∧ 0 < count ∧ size * count = 8192 ∧
  backing_request size count = 8223.
Proof.
  intros Hs Hc.
  unfold SF2000_POOL_COUNT.
  do 8 (destruct i as [| i];
        [simpl in Hs, Hc; simplify_eq;
         repeat split; (lia || (vm_compute; reflexivity)) |]).
  done.
Qed.

Lemma pool_table_lookup i :
  (i < SF2000_POOL_COUNT)%nat →
  ∃ size count, SF2000_POOL_SIZES !! i = Some size ∧ blocks_per_pool !! i = Some count.
Proof.
  intros Hi. do 8 (destruct i as [| i]; [by eexists _, _ |]).
  unfold SF2000_POOL_COUNT in Hi. lia.
Qed.

Lemma pools_init_loop_served sys n : ∀ i st,
  (∀ j, (i ≤ j < i + n)%nat → is_Some (st !! j)) →
  (i + n ≤ SF2000_POOL_COUNT)%nat →
  (∀ j, (j < SF2000_POOL_COUNT)%nat →
        backing_malloc (sys j) ≠ 0 ∧ free_list_malloc (sys j) ≠ 0) →
  ∃ st', pools_init_loop n i sys st = Ok st' ∧ length st' = length st ∧
    (∀ j, ¬ (i ≤ j < i + n)%nat → st' !! j = st !! j) ∧
    (∀ j size count, (i ≤ j < i + n)%nat →
       SF2000_POOL_SIZES !! j = Some size → blocks_per_pool !! j = Some count →
       st' !! j = Some (fresh_pool size count (sys j))).
Proof.
  induction n as [| n IH]; intros i st Hlen Hn Hsys; simpl.
  - exists st. repeat split; try done. intros; lia.
  - destruct (Hlen i ltac:(lia)) as [pool Hpool]. rewrite Hpool.
    destruct (pool_table_lookup i ltac:(lia)) as (size & count & Hsize & Hcount).
    rewrite Hsize, Hcount.
    destruct (pool_table i size count Hsize Hcount) as (_ & _ & Hc & _).
    destruct (Hsys i ltac:(lia)) as [Hb Hf].
    rewrite init_pool_served by (done || lia).
    destruct (IH (S i) (<[i := fresh_pool size count (sys i)]> st))
      as (st' & Heq & Hlen' & Hout & Hin); [| lia | done |].
    { intros j Hj. apply list_lookup_insert_is_Some. apply Hlen. lia. }
    exists st'. split; [done |]. split; [by rewrite Hlen', length_insert |]. split.
    + intros j Hj. rewrite Hout by lia. apply list_lookup_insert_ne. lia.
    + intros j size' count' Hj Hsize' Hcount'.
      destruct (decide (j = i)) as [-> | Hne].
      * rewrite Hout by lia. simplify_eq.
        apply list_lookup_insert_eq. by apply lookup_lt_is_Some.
      * apply Hin; [lia | done | done].
Qed.

Lemma fresh_pool_geometry i size count sys :
  SF2000_POOL_SIZES !! i = Some size → blocks_per_pool !! i = Some count →
  0 < backing_malloc sys →
  backing_malloc sys + backing_request size count < 2 ^ 32 →
  geometry (fresh_pool size count sys) ∧
  ∀ x, in_span (fresh_pool size count sys) x = true →
       backing_malloc sys ≤ x < backing_malloc sys + backing_request size count.
Proof.
  intros Hs Hc Hpos Hend.
  destruct (pool_table i size count Hs Hc) as (_ & Hsz & Hcn & Hmul & Hreq).
  rewrite Hreq in *.
  destruct (align_cache_line_bounds (backing_malloc sys)) as [Hal _]; [lia | lia |].
  assert (geometry (fresh_pool size count sys)) as Hg.
  { unfold geometry, fresh_pool; simpl. rewrite Hmul. lia. }
  split; [done |]. intros x Hx. apply in_span_geometry in Hx; [| done].
  unfold fresh_pool in Hx; simpl in Hx. rewrite Hmul in Hx. lia.
Qed.

Lemma fresh_pool_bounded size count sys :
  0 ≤ count → bounded (fresh_pool size count sys).
Proof.
  intros Hc. unfold bounded, fresh_pool; simpl. split; [lia |].
  eexists. split; [done |]. split; [apply length_seqZ |].
  apply Forall_seqZ. intros; lia.
Qed.

Lemma fresh_pool_accounted size count sys :
  0 ≤ count → accounted (fresh_pool size count sys) [].
Proof.
  intros Hc. unfold accounted, fresh_pool; simpl. split; [| split].
  - intros fl Hfl. injection Hfl as <-.
    rewrite take_ge by (rewrite length_seqZ; lia). apply NoDup_seqZ.
  - intros q Hq. by apply elem_of_nil in Hq.
  - unfold allocated_from. simpl. lia.
Qed.

(** A successful initialisation establishes the invariant. *)
Lemma init_heap_inv sys :
  init_succeeds sys →
  ∃ st0, sf2000_memory_pools_init sys zero_pools = Ok st0 ∧ heap_inv (mkHeap st0 []).
Proof.
  intros [Hserved Hapart]. unfold sf2000_memory_pools_init.
  destruct (pools_init_loop_served sys SF2000_POOL_COUNT 0 zero_pools)
    as (st0 & Heq & Hlen & _ & Hfresh).
  { intros j Hj. apply lookup_lt_is_Some. unfold zero_pools.
    rewrite length_replicate. lia. }
  { lia. }
  { intros j Hj. destruct (pool_table_lookup j Hj) as (size & count & Hs & Hc).
    destruct (Hserved j size count Hs Hc) as (Hpos & _ & Hf). split; [lia | done]. }
  assert (length st0 = SF2000_POOL_COUNT) as Hlen0.
  { rewrite Hlen. unfold zero_pools. apply length_replicate. }
  assert (∀ j p, st0 !! j = Some p →
            ∃ size count, SF2000_POOL_SIZES !! j = Some size ∧
                          blocks_per_pool !! j = Some count ∧
                          p = fresh_pool size count (sys j)) as Hshape.
  { intros j p Hp. assert (j < SF2000_POOL_COUNT)%nat as Hj.
    { rewrite <- Hlen0. by eapply lookup_lt_Some. }
    destruct (pool_table_lookup j Hj) as (size & count & Hs & Hc).
    exists size, count. split; [done |]. split; [done |].
    rewrite (Hfresh j size count) in Hp by (done || lia). by injection Hp as <-. }
  exists st0. split; [done |]. split; [| split; [| split]]; simpl.
  - split; [done |]. intros p Hp. apply list_elem_of_lookup in Hp as [j Hj].
    destruct (Hshape j p Hj) as (size & count & Hs & Hc & ->).
    destruct (Hserved j size count Hs Hc) as (Hpos & Hend & _).
    destruct (pool_table j size count Hs Hc) as (_ & _ & Hcn & _).
    split.
    + by apply (fresh_pool_geometry j).
    + apply fresh_pool_bounded. lia.
  - apply NoDup_nil_2.
  - intros i j p q x Hp Hq Hinp Hinq.
    destruct (Hshape i p Hp) as (si & ci & Hsi & Hci & ->).
    destruct (Hshape j q Hq) as (sj & cj & Hsj & Hcj & ->).
    destruct (Hserved i si ci Hsi Hci) as (Hposi & Hendi & _).
    destruct (Hserved j sj cj Hsj Hcj) as (Hposj & Hendj & _).
    destruct (fresh_pool_geometry i si ci (sys i) Hsi Hci Hposi Hendi) as [_ Hspani].
    destruct (fresh_pool_geometry j sj cj (sys j) Hsj Hcj Hposj Hendj) as [_ Hspanj].
    specialize (Hspani x Hinp). specialize (Hspanj x Hinq).
    destruct (decide (i = j)) as [| Hne]; [done |].
    destruct (Hapart i j si ci sj cj Hne Hsi Hci Hsj Hcj); lia.
  - intros p Hp. apply list_elem_of_lookup in Hp as [j Hj].
    destruct (Hshape j p Hj) as (size & count & Hs & Hc & ->).
    destruct (pool_table j size count Hs Hc) as (_ & _ & Hcn & _).
    apply fresh_pool_accounted. lia.
Qed.

(** ** Conservation and the free-list invariant *)

(** C3. After a successful initialisation, along every sequence of
    [Allocate] and [Free] calls that frees no pointer twice (each [Free] is
    given null or a pointer that [Allocate] returned and that was not freed
    since), every call returns and after each of them every pool has
    [free_count + (number of its blocks currently allocated) = block_count].
    The sequence [cs] is any prefix of the calls of the client. *)
Theorem pool_conservation sys (cs rest : list call) :
  init_succeeds sys →
  ∃ st0, sf2000_memory_pools_init sys zero_pools = Ok st0 ∧
    (well_behaved (mkHeap st0 []) (cs ++ rest) →
     ∃ h, run (mkHeap st0 []) cs = Ok h ∧
          ∀ pool, pool ∈ pools h →
            free_count pool + allocated_from pool (live h) = block_count pool).
Proof.
  intros Hinit. destruct (init_heap_inv sys Hinit) as (st0 & Heq & Hinv).
  exists st0. split; [done |]. intros Hwb.
  apply well_behaved_prefix in Hwb.
  destruct (run_inv cs _ Hinv Hwb) as (h & Hrun & (_ & _ & _ & Hacc)).
  exists h. split; [done |]. intros pool Hpool. by apply Hacc.
Qed.

(** C4, amended. After a successful initialisation, along
    every sequence of [Allocate] and [Free] calls (whatever pointers are
    freed), every call returns and every pool has
    [free_count <= block_count] and a free list whose first [free_count]
    entries are values in [[0, block_count)]; these entries are pairwise
    distinct as long as no pointer is freed twice. *)
Theorem free_list_invariant sys (cs rest : list call) :
  init_succeeds sys →
  ∃ st0 h,
    sf2000_memory_pools_init sys zero_pools = Ok st0 ∧
    run (mkHeap st0 []) cs = Ok h ∧
    (∀ pool, pool ∈ pools h →
       free_count pool ≤ block_count pool ∧
       ∃ fl, free_list pool = Some fl ∧
             Forall (λ x, 0 ≤ x < block_count pool)
                    (take (Z.to_nat (free_count pool)) fl)) ∧
    (well_behaved (mkHeap st0 []) (cs ++ rest) →
     ∀ pool fl, pool ∈ pools h → free_list pool = Some fl →
                NoDup (take (Z.to_nat (free_count pool)) fl)).
Proof.
  intros Hinit. destruct (init_heap_inv sys Hinit) as (st0 & Heq & Hinv).
  destruct (run_sound cs (mkHeap st0 [])) as (h & Hrun & Hsound); [apply Hinv |].
  exists st0, h. split; [done |]. split; [done |]. split.
  - intros pool Hpool.
    destruct Hsound as [_ Hsound].
    destruct (Hsound pool Hpool) as [_ ((_ & Hfc) & fl & Hfl & _ & Hall)].
    split; [done |]. exists fl. split; [done |]. by apply Forall_take.
  - intros Hwb pool fl Hpool Hfl.
    apply well_behaved_prefix in Hwb.
    destruct (run_inv cs _ Hinv Hwb) as (h' & Hrun' & (_ & _ & _ & Hacc)).
    rewrite Hrun in Hrun'. injection Hrun' as <-.
    destruct (Hacc pool Hpool) as (Hnd & _). by apply Hnd.
Qed.

(** The answers [served] make a successful initialisation. *)
Lemma served_succeeds : init_succeeds served.
Proof.
  split.
  - intros i size count Hs Hc.
    destruct (pool_table i size count Hs Hc) as (Hi & _ & _ & _ & ->).
    unfold served, SF2000_POOL_COUNT in *; simpl. lia.
  - intros i j si ci sj cj Hne Hsi Hci Hsj Hcj.
    destruct (pool_table i si ci Hsi Hci) as (Hi & _ & _ & _ & ->).
    destruct (pool_table j sj cj Hsj Hcj) as (Hj & _ & _ & _ & ->).
    unfold served, SF2000_POOL_COUNT in *; simpl. lia.
Qed.

Lemma served_booted : sf2000_memory_pools_init served zero_pools = Ok booted.
Proof. vm_compute. reflexivity. Qed.

(** C4, as stated, fails: two blocks of the first pool are allocated and
    the first one is freed twice; its index (255) is then twice among the
    first [free_count] entries of the free list. *)
Lemma double_free_duplicates :
  ∃ h pool fl,
    sf2000_memory_pools_init served zero_pools = Ok booted ∧
    run (mkHeap booted [])
        [Allocate 16 0; Allocate 16 0; Free 1056768; Free 1056768] = Ok h ∧
    pool ∈ pools h ∧ free_list pool = Some fl ∧ free_count pool = 256 ∧
    ¬ NoDup (take (Z.to_nat (free_count pool)) fl).
Proof.
  eexists _, (mkPool 1048608 32 256 256 (Some (seqZ 0 254 ++ [255; 255]))), _.
  split; [exact served_booted |].
  split; [vm_compute; reflexivity |].
  split; [apply list_elem_of_here |].
  split; [reflexivity |]. split; [reflexivity |].
  intros Hnd.
  pose proof (NoDup_lookup _ 254%nat 255%nat 255 Hnd) as Heq.
  discriminate Heq; vm_compute; reflexivity.
Qed.

Lemma outside_all st x :
  forallb (λ p, negb (in_span p x)) st = true →
  ∀ pool, pool ∈ st → in_span pool x = false.
Proof.
  intros Hall pool Hpool. rewrite forallb_forall in Hall.
  apply negb_true_iff, Hall. by apply list_elem_of_In.
Qed.

Lemma not_held (x : Z) live :
  forallb (λ y, negb (x =? y)) live = true → x ∉ live.
Proof.
  intros Hall Hx. rewrite forallb_forall in Hall.
  apply list_elem_of_In in Hx. specialize (Hall x Hx).
  by rewrite Z.eqb_refl in Hall.
Qed.

(** The contract of one call, on concrete pools. *)
Ltac contract :=
  match goal with
  | |- call_ok _ (Allocate _ 0) => by left
  | |- call_ok _ (Allocate _ _) =>
      right; split;
      [apply not_held; vm_compute; reflexivity
      | apply outside_all; vm_compute; reflexivity]
  | |- call_ok _ (Free 0) => by left
  | |- call_ok _ (Free _) => right; apply list_elem_of_In; simpl; tauto
  end.

Ltac behave :=
  repeat (split;
          [contract
          | let h := fresh "h" in
            let H := fresh "Hstep" in
            intros h H; vm_compute in H; injection H as <-]);
  try exact I.

Lemma pool_conservation_witness :
  ∃ st0, sf2000_memory_pools_init served zero_pools = Ok st0 ∧
    ∃ h, run (mkHeap st0 [])
             [Allocate 40 0; Allocate 5000 0x300000; Free 1069024;
              Free 0; Free 0x300000; Allocate 16 0] = Ok h ∧
         ∀ pool, pool ∈ pools h →
           free_count pool + allocated_from pool (live h) = block_count pool.
Proof.
  destruct (pool_conservation served
              [Allocate 40 0; Allocate 5000 0x300000; Free 1069024;
               Free 0; Free 0x300000; Allocate 16 0] [] served_succeeds)
    as (st0 & Hinit & Hrun).
  exists st0. split; [exact Hinit |]. apply Hrun.
  rewrite served_booted in Hinit. injection Hinit as <-.
  simpl app. behave.
Defined.

Lemma free_list_invariant_witness :
  ∃ st0 h,
    sf2000_memory_pools_init served zero_pools = Ok st0 ∧
    run (mkHeap st0 [])
        [Allocate 40 0; Free 1069024; Allocate 16 0; Allocate 16 0] = Ok h ∧
    (∀ pool, pool ∈ pools h →
       free_count pool ≤ block_count pool ∧
       ∃ fl, free_list pool = Some fl ∧
             Forall (λ x, 0 ≤ x < block_count pool)
                    (take (Z.to_nat (free_count pool)) fl)) ∧
    (∀ pool fl, pool ∈ pools h → free_list pool = Some fl →
                NoDup (take (Z.to_nat (free_count pool)) fl)).
Proof.
  destruct (free_list_invariant served
              [Allocate 40 0; Free 1069024; Allocate 16 0; Allocate 16 0] []
              served_succeeds)
    as (st0 & h & Hinit & Hrun & Hbound & Hdistinct).
  exists st0, h. split; [exact Hinit |]. split; [exact Hrun |].
  split; [exact Hbound |]. apply Hdistinct.
  rewrite served_booted in Hinit. injection Hinit as <-.
  simpl app. behave.
Defined.

(** The scenarios of the specification. [Allocate (40)] takes a block of
    the 64-byte pool, and [Free] gives it back. *)
Example allocate_40_then_free :
  ∃ st1, sf2000_malloc_fast booted 40 = Block 1 st1 1069024 ∧
         free_count <$> st1 = [256; 127; 64; 32; 16; 8; 4; 2] ∧
         sf2000_free_fast st1 1069024 = Returned booted.
Proof.
  eexists. split; [vm_compute; reflexivity |].
  split; vm_compute; reflexivity.
Qed.

(** With the 32-byte pool exhausted and the larger pools untouched, a
    request of 20 bytes is served by the 64-byte pool; the general-purpose
    allocator is reached only once every pool is exhausted. *)
Example allocate_after_exhaustion :
  ∃ h, run (mkHeap booted []) (replicate 256 (Allocate 20 0)) = Ok h ∧
       free_count <$> pools h = [0; 128; 64; 32; 16; 8; 4; 2] ∧
       ∃ st, sf2000_malloc_fast (pools h) 20 = Block 1 st 1069024.
Proof.
  eexists. split; [vm_compute; reflexivity |].
  split; [vm_compute; reflexivity |].
  eexists. vm_compute. reflexivity.
Qed.

(** ** The loader *)

Lemma store_bytes_app data1 : ∀ m ptr data2,
  store_bytes m ptr (data1 ++ data2)
  = store_bytes (store_bytes m ptr data1) (ptr + Z.of_nat (length data1)) data2.
Proof.
  induction data1 as [| b data1 IH]; intros m ptr data2; simpl.
  - by rewrite Z.add_0_r.
  - rewrite IH. f_equal. lia.
Qed.

Lemma store_bytes_below data : ∀ m ptr x,
  x < ptr → store_bytes m ptr data x = m x.
Proof.
  induction data as [| b data IH]; intros m ptr x Hx; simpl; [done |].
  rewrite IH by lia. unfold store8. destruct (Z.eqb_spec x ptr); [lia | done].
Qed.

Lemma store_bytes_at data : ∀ m ptr i x,
  data !! i = Some x → store_bytes m ptr data (ptr + Z.of_nat i) = x.
Proof.
  induction data as [| b data IH]; intros m ptr i x Hi; [done |].
  destruct i as [| i]; simpl in Hi; simpl store_bytes.
  - injection Hi as ->. rewrite store_bytes_below by lia.
    unfold store8. change (Z.of_nat 0) with 0. by rewrite Z.add_0_r, Z.eqb_refl.
  - replace (ptr + Z.of_nat (S i)) with (ptr + 1 + Z.of_nat i) by lia.
    by apply IH.
Qed.

Lemma length_fread file pos n :
  0 ≤ pos → 0 ≤ n →
  Z.of_nat (length (fread file pos n))
  = Z.min n (Z.max 0 (Z.of_nat (length (stored file)) - pos)).
Proof.
  intros Hp Hn. unfold fread. rewrite length_take, length_drop. lia.
Qed.

(** A chunk comes short exactly when the device delivers fewer bytes than
    [ftell] reported. *)
Lemma short_read_length file :
  0 < told file →
  short_read file ↔ Z.of_nat (length (stored file)) < told file.
Proof.
  intros Hpos. unfold short_read, chunk_request, chunk_size. split.
  - intros (k & Hk & Hlt & Hshort).
    rewrite length_fread in Hshort by lia. lia.
  - intros Hlen. exists (Z.of_nat (length (stored file)) / 8192).
    assert (0 ≤ Z.of_nat (length (stored file)) / 8192) by (apply Z.div_pos; lia).
    pose proof (Z.div_mod (Z.of_nat (length (stored file))) 8192 ltac:(lia)).
    pose proof (Z.mod_pos_bound (Z.of_nat (length (stored file))) 8192 ltac:(lia)).
    rewrite length_fread by lia.
    lia.
Qed.

Lemma read_chunks_done file file_size fuel : ∀ m bytes_read write_ptr,
  0 < file_size < 2 ^ 32 →
  file_size ≤ Z.of_nat (length (stored file)) →
  0 ≤ bytes_read ≤ file_size →
  file_size - bytes_read ≤ 8192 * (Z.of_nat fuel - 1) →
  read_chunks fuel file file_size m bytes_read write_ptr
  = ReadDone (store_bytes m write_ptr
                (take (Z.to_nat (file_size - bytes_read))
                      (drop (Z.to_nat bytes_read) (stored file)))).
Proof.
  induction fuel as [| fuel IH]; intros m pos wp size_range Hfull Hpos Hfuel; [lia |].
  simpl read_chunks. rewrite (wrap32_small file_size) by lia.
  destruct (Z.ltb_spec pos file_size) as [Hlt | Hge].
  - rewrite (wrap32_small (file_size - pos)) by lia. unfold chunk_size.
    set (to_read := if file_size - pos <? 8192 then file_size - pos else 8192).
    assert (0 < to_read ≤ 8192 ∧ to_read ≤ file_size - pos ∧
            (to_read = 8192 ∨ to_read = file_size - pos)) as (Htr1 & Htr2 & Htr3).
    { unfold to_read. destruct (Z.ltb_spec (file_size - pos) 8192); lia. }
    rewrite length_fread by lia.
    rewrite Z.min_l by lia. rewrite Z.eqb_refl.
    rewrite (wrap32_small (pos + to_read)) by lia.
    rewrite IH by lia.
    f_equal. unfold fread.
    replace (wp + to_read)
      with (wp + Z.of_nat (length (take (Z.to_nat to_read)
                                        (drop (Z.to_nat pos) (stored file))))).
    + rewrite <- store_bytes_app. f_equal.
      replace (Z.to_nat (pos + to_read)) with (Z.to_nat pos + Z.to_nat to_read)%nat by lia.
      rewrite <- drop_drop, take_take_drop. f_equal. lia.
    + rewrite length_take, length_drop. lia.
  - replace (Z.to_nat (file_size - pos)) with 0%nat by lia. by rewrite take_0.
Qed.

Lemma read_chunks_error file file_size fuel : ∀ m bytes_read write_ptr,
  0 < file_size < 2 ^ 32 →
  Z.of_nat (length (stored file)) < file_size →
  0 ≤ bytes_read ≤ Z.of_nat (length (stored file)) →
  file_size - bytes_read ≤ 8192 * (Z.of_nat fuel - 1) →
  ∃ m', read_chunks fuel file file_size m bytes_read write_ptr = ReadError m'.
Proof.
  induction fuel as [| fuel IH]; intros m pos wp size_range Hshort Hpos Hfuel; [lia |].
  simpl read_chunks. rewrite (wrap32_small file_size) by lia.
  destruct (Z.ltb_spec pos file_size) as [Hlt | Hge]; [| lia].
  rewrite (wrap32_small (file_size - pos)) by lia. unfold chunk_size.
  set (to_read := if file_size - pos <? 8192 then file_size - pos else 8192).
  assert (0 < to_read ≤ 8192 ∧ to_read ≤ file_size - pos ∧
          (to_read = 8192 ∨ to_read = file_size - pos)) as (Htr1 & Htr2 & Htr3).
  { unfold to_read. destruct (Z.ltb_spec (file_size - pos) 8192); lia. }
  rewrite length_fread by lia.
  destruct (Z.eqb_spec (Z.min to_read
              (Z.max 0 (Z.of_nat (length (stored file)) - pos))) to_read) as [Heq | Hne].
  - rewrite Heq. rewrite (wrap32_small (pos + to_read)) by lia.
    apply IH; lia.
  - by eexists.
Qed.

Lemma load_fuel file_size :
  0 < file_size →
  file_size - 0 ≤ 8192 * (Z.of_nat (Z.to_nat (file_size / chunk_size) + 2) - 1).
Proof.
  intros Hpos. unfold chunk_size.
  assert (0 ≤ file_size / 8192) by (apply Z.div_pos; lia).
  pose proof (Z.div_mod file_size 8192 ltac:(lia)).
  pose proof (Z.mod_pos_bound file_size 8192 ltac:(lia)).
  lia.
Qed.

(** *** The buffer goes back where it came from *)

Lemma apart_insert st k pool pool' :
  apart st → st !! k = Some pool →
  pool_memory pool' = pool_memory pool →
  block_size pool' = block_size pool →
  block_count pool' = block_count pool →
  apart (<[k := pool']> st).
Proof.
  intros Hdisj Hpool H1 H2 H3 i j p q x Hp Hq Hinp Hinq.
  apply list_lookup_insert_Some in Hp as [(-> & -> & _) | [Hik Hp]];
    apply list_lookup_insert_Some in Hq as [(-> & -> & _) | [Hjk Hq]]; try done.
  - rewrite (in_span_same pool) in Hinp by done. by apply (Hdisj i j pool q x).
  - rewrite (in_span_same pool) in Hinq by done. by apply (Hdisj i j p pool x).
  - by apply (Hdisj i j p q x).
Qed.

(** A block that [sf2000_malloc_fast] just returned, given to
    [sf2000_free_fast], leaves the pools as they were before the two. *)
Lemma take_then_return st size k st1 ptr :
  pools_sound st → apart st →
  sf2000_malloc_fast st size = Block k st1 ptr →
  ptr ≠ 0 ∧ sf2000_free_fast st1 ptr = Returned st.
Proof.
  intros Hs Hdisj Hmalloc.
  destruct (malloc_shape st size Hs)
    as [[Heq _] | (k' & pool & fl & idx & Hpool & _ & Hpos & Hfl & Hidx & Hrange & Heq)];
    rewrite Heq in Hmalloc; [done |].
  injection Hmalloc as <- <- <-.
  pose proof Hs as [Hlen Hsound].
  destruct (Hsound pool) as [Hg ((Hfc0 & Hfc) & fl' & Hfl' & Hlenfl & Hall)].
  { by eapply list_elem_of_lookup_2. }
  rewrite Hfl in Hfl'. injection Hfl' as <-.
  pose proof (block_offset pool idx Hg Hrange) as [Hoff _].
  assert (pool_memory pool + idx * block_size pool ≠ 0) as Hptr.
  { destruct Hg as (Hb & _). lia. }
  split; [done |].
  set (pool' := mkPool (pool_memory pool) (block_size pool) (block_count pool)
                       (free_count pool - 1) (Some fl)).
  assert (pools_sound (<[k' := pool']> st)) as Hs'.
  { apply sound_insert; [done | done |]. split; simpl; [lia |]. by exists fl. }
  assert (apart (<[k' := pool']> st)) as Hdisj' by (by eapply apart_insert).
  assert (<[k' := pool']> st !! k' = Some pool') as Hpool'.
  { apply list_lookup_insert_eq. by eapply lookup_lt_Some. }
  assert (in_span pool' (pool_memory pool + idx * block_size pool) = true) as Hin'.
  { rewrite (in_span_same pool) by done. by apply block_in_span. }
  destruct (free_shape _ _ Hs' Hptr)
    as [[_ Hno] | (k2 & pool2 & fl2 & Hpool2 & Hin2 & _ & Hfl2 & Hcase)].
  { rewrite (Hno k' pool' Hpool') in Hin'. done. }
  assert (k2 = k') as -> by (by eapply Hdisj').
  rewrite Hpool' in Hpool2. injection Hpool2 as <-.
  simpl in Hfl2. injection Hfl2 as <-.
  destruct Hcase as [[Hfull _] | [_ ->]]; [simpl in Hfull; lia |].
  f_equal. simpl.
  rewrite block_index_back by done.
  rewrite (list_insert_id fl) by done.
  rewrite list_insert_insert_eq.
  apply list_insert_id. rewrite Hpool. f_equal.
  destruct pool; simpl in *. f_equal; [lia | done].
Qed.

(** A block of the general-purpose allocator goes back to it. *)
Lemma sys_block_freed st ptr :
  pools_sound st → ptr ≠ 0 →
  (∀ pool, pool ∈ st → in_span pool ptr = false) →
  sf2000_free_fast st ptr = SysFree ptr.
Proof.
  intros Hs Hptr Hout.
  destruct (free_shape st ptr Hs Hptr)
    as [[Heq _] | (k & pool & fl & Hpool & Hin & _)]; [done |].
  rewrite Hout in Hin; [done |]. by eapply list_elem_of_lookup_2.
Qed.

(** *** Alignment of the buffer *)

Lemma align_cache_line_le p :
  0 ≤ p → 0 ≤ align_cache_line p ≤ p + 31 ∧ align_cache_line p mod 32 = 0.
Proof.
  intros Hp. unfold align_cache_line.
  pose proof (wrap32_range (p + SF2000_CACHE_LINE_SIZE - 1)) as Hr.
  pose proof (wrap32_le (p + SF2000_CACHE_LINE_SIZE - 1)) as Hle.
  rewrite land_cache_line_mask by done.
  unfold SF2000_CACHE_LINE_SIZE in *.
  split; [Z.div_mod_to_equations; lia |].
  rewrite Z.mul_comm. apply Z.mod_mul. lia.
Qed.

(** *** The outcomes of a load *)

(** C8, amended. On sound pools whose spans are apart, and
    with a general-purpose allocator that answers outside the pools,
    [sf2000_rom_load_optimized] returns, and:
    - it returns the failure sentinel (null buffer, size 0) exactly when
      the file cannot be opened, its length is [<= 0], its length exceeds
      2 MiB, the allocator returns a null buffer, or a chunk read returns
      fewer bytes than requested;
    - in the last case the buffer is released before the return: the pools
      are as before the call (a block of a pool is back on its free list)
      and a buffer of the general-purpose allocator was given to [free];
    - otherwise it returns the exact length [L] of the file and a buffer
      whose first [L] bytes are those of the file. *)
Theorem load_outcomes (fopen : string → option FILE) (malloc : Z → Z)
    (st : list SF2000_MemoryPool) (m : mem) (filename : string) :
  pools_sound st → apart st →
  (∀ n pool, pool ∈ st → in_span pool (malloc n) = false) →
  ∃ buffer size st' m' freed,
    sf2000_rom_load_optimized fopen malloc st m filename
    = Loaded buffer size st' m' freed ∧
    ((buffer = 0 ∧ size = 0) ↔ load_failure fopen malloc st filename) ∧
    (∀ file, fopen filename = Some file →
       0 < told file ≤ SF2000_MAX_ROM_SIZE →
       allocation malloc st (told file + SF2000_CACHE_LINE_SIZE) ≠ Some 0 →
       short_read file →
       st' = st ∧
       freed = match sf2000_malloc_fast st (told file + SF2000_CACHE_LINE_SIZE) with
               | SysMalloc n => Some (malloc n)
               | _ => None
               end) ∧
    (¬ load_failure fopen malloc st filename →
       ∃ file, fopen filename = Some file ∧ size = told file ∧
               told file ≤ Z.of_nat (length (stored file)) ∧
               ∀ i x, Z.of_nat i < told file → stored file !! i = Some x →
                      m' (buffer + Z.of_nat i) = x).
Proof.
  intros Hs Hdisj Hout.
  unfold sf2000_rom_load_optimized, load_failure.
  destruct (fopen filename) as [file |] eqn:Hopen.
  2: { exists 0, 0, st, m, None. split; [done |]. split; [done |].
       split; [done |]. intros Hn. by destruct Hn. }
  unfold SF2000_MAX_ROM_SIZE, SF2000_CACHE_LINE_SIZE.
  destruct (Z.leb_spec (told file) 0) as [Hneg | Hpos]; simpl orb.
  { exists 0, 0, st, m, None. split; [done |]. split; [by split; [left |] |].
    split; [intros f Hf Hr; injection Hf as <-; lia |]. intros Hn. exfalso. apply Hn. by left. }
  destruct (Z.ltb_spec 2097152 (told file)) as [Hbig | Hmax].
  { exists 0, 0, st, m, None. split; [done |].
    split; [by split; [right; left |] |].
    split; [intros f Hf Hr; injection Hf as <-; lia |]. intros Hn. exfalso. apply Hn. right. by left. }
  rewrite (wrap32_small (told file + 32)) by lia.
  pose proof (short_read_length file Hpos) as Hshort.
  pose proof (load_fuel (told file) Hpos) as Hfuel.
  assert (0 < told file < 2 ^ 32) as Hrange by lia.
  unfold allocation.
  destruct (malloc_shape st (told file + 32) Hs)
    as [[Heq _] | (k & pool & fl & idx & Hpool & _ & _ & _ & _ & _ & Heq)];
    rewrite Heq.
  - (* the general-purpose allocator answers *)
    destruct (Z.eqb_spec (malloc (told file + 32)) 0) as [Hnull | Hptr].
    { exists 0, 0, st, m, None. split; [done |].
      split; [split; [intros _; right; right; left; by rewrite Hnull | done] |].
      split; [intros f Hf _ Hal; injection Hf as <-; exfalso; apply Hal;
              by rewrite Heq, Hnull |].
      intros Hn. exfalso. apply Hn. right. right. left. by rewrite Hnull. }
    destruct (decide (told file ≤ Z.of_nat (length (stored file)))) as [Hfull | Hcut].
    + rewrite (read_chunks_done file (told file)) by (done || lia).
      eexists _, _, _, _, _. split; [done |]. split; [| split].
      * split; [lia |]. intros [? | [? | [Hal | Hsh]]]; try lia.
        -- injection Hal as Hal. done.
        -- apply Hshort in Hsh. lia.
      * intros f Hf _ _ Hsh. injection Hf as <-. apply Hshort in Hsh. lia.
      * intros _. exists file. split; [done |]. split; [done |]. split; [done |].
        intros i x Hi Hx. apply store_bytes_at.
        rewrite lookup_take_lt by lia. by rewrite drop_0.
    + destruct (read_chunks_error file (told file)
                  (Z.to_nat (told file / chunk_size) + 2) m 0
                  (align_cache_line (malloc (told file + 32)))) as [m' ->];
        [done | lia | lia | done |].
      rewrite sys_block_freed by (done || by apply Hout).
      exists 0, 0, st, m', (Some (malloc (told file + 32))).
      split; [done |]. split; [| split].
      * split; [| done]. intros _. right. right. right. apply Hshort. lia.
      * intros f Hf _ _ _. injection Hf as <-. by rewrite Heq.
      * intros Hn. exfalso. apply Hn. right. right. right. apply Hshort. lia.
  - (* a block of pool [k] *)
    destruct (take_then_return st (told file + 32) k _ _ Hs Hdisj Heq) as [Hptr Hfree].
    destruct (Z.eqb_spec (pool_memory pool + idx * block_size pool) 0) as [| _];
      [done |].
    destruct (decide (told file ≤ Z.of_nat (length (stored file)))) as [Hfull | Hcut].
    + rewrite (read_chunks_done file (told file)) by (done || lia).
      eexists _, _, _, _, _. split; [done |]. split; [| split].
      * split; [lia |]. intros [? | [? | [Hal | Hsh]]]; try lia.
        -- injection Hal as Hal. done.
        -- apply Hshort in Hsh. lia.
      * intros f Hf _ _ Hsh. injection Hf as <-. apply Hshort in Hsh. lia.
      * intros _. exists file. split; [done |]. split; [done |]. split; [done |].
        intros i x Hi Hx. apply store_bytes_at.
        rewrite lookup_take_lt by lia. by rewrite drop_0.
    + destruct (read_chunks_error file (told file)
                  (Z.to_nat (told file / chunk_size) + 2) m 0
                  (align_cache_line (pool_memory pool + idx * block_size pool)))
        as [m' ->]; [done | lia | lia | done |].
      rewrite Hfree.
      exists 0, 0, st, m', None.
      split; [done |]. split; [| split].
      * split; [| done]. intros _. right. right. right. apply Hshort. lia.
      * intros f Hf _ _ _. injection Hf as <-. by rewrite Heq.
      * intros Hn. exfalso. apply Hn. right. right. right. apply Hshort. lia.
Qed.

(** C9. For every base address [p] the cache-line alignment is at most
    31 bytes above [p] (and not below it when [p + 31] is an address), so
    that [align (p) + L <= p + L + 32]; and a successful load of a file of
    length [L] has asked the allocator for [L + 32] bytes and returns the
    alignment of its answer [p], whose [L] bytes end within the [L + 32]
    bytes allocated at [p]. *)
Theorem aligned_buffer_within (fopen : string → option FILE) (malloc : Z → Z)
    (st : list SF2000_MemoryPool) (m : mem) (filename : string) :
  (∀ p L, 0 ≤ p < 2 ^ 32 →
     align_cache_line p + L ≤ p + L + SF2000_CACHE_LINE_SIZE ∧
     align_cache_line p mod SF2000_CACHE_LINE_SIZE = 0 ∧
     (p + L + SF2000_CACHE_LINE_SIZE ≤ 2 ^ 32 → 0 ≤ L → p ≤ align_cache_line p)) ∧
  (∀ buffer size st' m' freed,
     sf2000_rom_load_optimized fopen malloc st m filename
     = Loaded buffer size st' m' freed →
     size ≠ 0 →
     ∃ file p,
       fopen filename = Some file ∧ size = told file ∧
       allocation malloc st (told file + SF2000_CACHE_LINE_SIZE) = Some p ∧
       buffer = align_cache_line p ∧
       (0 ≤ p → buffer + told file ≤ p + told file + SF2000_CACHE_LINE_SIZE)).
Proof.
  split.
  - intros p L Hp. unfold SF2000_CACHE_LINE_SIZE.
    destruct (align_cache_line_le p) as [Hle Hmod]; [lia |].
    split; [lia |]. split; [done |]. intros Hend HL.
    destruct (align_cache_line_bounds p); lia.
  - intros buffer size st' m' freed Hload Hsize.
    unfold sf2000_rom_load_optimized in Hload.
    destruct (fopen filename) as [file |]; [| by injection Hload as <- <-].
    destruct (Z.leb_spec (told file) 0) as [Hneg | Hpos]; simpl orb in Hload;
      [by injection Hload as <- <- |].
    destruct (Z.ltb_spec SF2000_MAX_ROM_SIZE (told file)) as [Hbig | Hmax];
      [by injection Hload as <- <- |].
    unfold SF2000_MAX_ROM_SIZE, SF2000_CACHE_LINE_SIZE in *.
    rewrite (wrap32_small (told file + 32)) in Hload by lia.
    unfold allocation.
    assert (∀ st1 p,
      (if p =? 0 then Loaded 0 0 st1 m None
       else match read_chunks (Z.to_nat (told file / chunk_size) + 2) file
                    (told file) m 0 (align_cache_line p) with
            | ReadDone m1 => Loaded (align_cache_line p) (told file) st1 m1 None
            | ReadError m1 =>
                match sf2000_free_fast st1 p with
                | Returned st2 => Loaded 0 0 st2 m1 None
                | SysFree ptr => Loaded 0 0 st1 m1 (Some ptr)
                | FreeFault f => LoadFault f
                end
            | ReadMore => LoadRunning
            end) = Loaded buffer size st' m' freed →
      size = told file ∧ buffer = align_cache_line p) as Hrest.
    { intros st1 p Hl. destruct (p =? 0); [by injection Hl as <- <- |].
      destruct (read_chunks _ _ _ _ _ _); [by injection Hl as <- <- | | done].
      destruct (sf2000_free_fast st1 p); try done; by injection Hl as <- <-. }
    destruct (sf2000_malloc_fast st (told file + 32)) as [k st1 p | n |] eqn:Hm;
      [| | done].
    + destruct (Hrest st1 p Hload) as [-> ->].
      exists file, p. rewrite Hm. do 4 (split; [done |]).
      intros Hp. destruct (align_cache_line_le p Hp). lia.
    + destruct (Hrest st (malloc n) Hload) as [-> ->].
      exists file, (malloc n). rewrite Hm. do 4 (split; [done |]).
      intros Hp. destruct (align_cache_line_le (malloc n) Hp). lia.
Qed.

(** *** The loader on the booted pools *)

Lemma booted_inv : heap_inv (mkHeap booted []).
Proof.
  destruct (init_heap_inv served served_succeeds) as (st0 & Hinit & Hinv).
  rewrite served_booted in Hinit. by injection Hinit as <-.
Qed.

Lemma game_rom_complete : ¬ short_read game_rom.
Proof.
  intros Hsh. apply short_read_length in Hsh; [| by vm_compute].
  unfold game_rom in Hsh. cbn [stored told] in Hsh.
  rewrite length_fmap, length_seqZ in Hsh. lia.
Qed.

Lemma game_rom_opens : roms "game.rom" = Some game_rom.
Proof. reflexivity. Qed.

(** C8, as stated, fails: the file opens, has 5000 bytes (more than any
    pool block holds, so that the request goes to the general-purpose
    allocator) and no chunk read comes short, but the allocator is out of
    memory; the loader returns the failure sentinel. *)
Lemma load_fails_without_memory :
  sf2000_rom_load_optimized roms (λ _, 0) booted ramp "game.rom"
  = Loaded 0 0 booted ramp None ∧
  ¬ file_failure roms "game.rom".
Proof.
  split; [vm_compute; reflexivity |].
  unfold file_failure. rewrite game_rom_opens.
  change (told game_rom) with 5000. unfold SF2000_MAX_ROM_SIZE.
  intros [H | [H | H]]; [lia | lia |].
  by apply game_rom_complete.
Qed.

Lemma sys_malloc_outside n pool :
  pool ∈ booted → in_span pool (sys_malloc n) = false.
Proof. apply outside_all. vm_compute. reflexivity. Qed.

Lemma load_outcomes_witness :
  ∃ buffer size st' m' freed,
    sf2000_rom_load_optimized roms sys_malloc booted ramp "cut.rom"
    = Loaded buffer size st' m' freed ∧
    ((buffer = 0 ∧ size = 0) ↔ load_failure roms sys_malloc booted "cut.rom") ∧
    (∀ file, roms "cut.rom" = Some file →
       0 < told file ≤ SF2000_MAX_ROM_SIZE →
       allocation sys_malloc booted (told file + SF2000_CACHE_LINE_SIZE) ≠ Some 0 →
       short_read file →
       st' = booted ∧
       freed = match sf2000_malloc_fast booted (told file + SF2000_CACHE_LINE_SIZE) with
               | SysMalloc n => Some (sys_malloc n)
               | _ => None
               end) ∧
    (¬ load_failure roms sys_malloc booted "cut.rom" →
       ∃ file, roms "cut.rom" = Some file ∧ size = told file ∧
               told file ≤ Z.of_nat (length (stored file)) ∧
               ∀ i x, Z.of_nat i < told file → stored file !! i = Some x →
                      m' (buffer + Z.of_nat i) = x).
Proof.
  apply (load_outcomes roms sys_malloc booted ramp "cut.rom").
  - apply booted_inv.
  - apply booted_inv.
  - exact sys_malloc_outside.
Defined.

Lemma aligned_buffer_within_witness :
  (align_cache_line 0x300004 + 5000 ≤ 0x300004 + 5000 + SF2000_CACHE_LINE_SIZE ∧
   align_cache_line 0x300004 mod SF2000_CACHE_LINE_SIZE = 0 ∧
   (0x300004 + 5000 + SF2000_CACHE_LINE_SIZE ≤ 2 ^ 32 → 0 ≤ 5000 →
    0x300004 ≤ align_cache_line 0x300004)) ∧
  ∃ file p,
    roms "boot.rom" = Some file ∧ 100 = told file ∧
    allocation sys_malloc booted (told file + SF2000_CACHE_LINE_SIZE) = Some p ∧
    1093408 = align_cache_line p ∧
    (0 ≤ p → 1093408 + told file ≤ p + told file + SF2000_CACHE_LINE_SIZE).
Proof.
  destruct (aligned_buffer_within roms sys_malloc booted ramp "boot.rom")
    as [Halign Hload].
  split.
  - apply (Halign 0x300004 5000). lia.
  - eapply (Hload 1093408 100).
    + vm_compute. reflexivity.
    + lia.
Defined.

(** The loader at work: a file that is served by the 256-byte pool, a file
    that goes to the general-purpose allocator and is aligned there, a
    file that comes short and whose buffer goes back, and a missing one. *)
Example load_boot_rom :
  match sf2000_rom_load_optimized roms sys_malloc booted ramp "boot.rom" with
  | Loaded buffer size st' m' freed =>
      buffer = 1093408 ∧ size = 100 ∧ freed = None ∧
      free_count <$> st' = [256; 128; 64; 31; 16; 8; 4; 2] ∧
      m' <$> seqZ buffer 100 = stored boot_rom
  | _ => False
  end.
Proof. vm_compute. repeat split; reflexivity. Qed.

Example load_game_rom :
  match sf2000_rom_load_optimized roms sys_malloc booted ramp "game.rom" with
  | Loaded buffer size st' m' freed =>
      buffer = 0x300020 ∧ size = 5000 ∧ freed = None ∧ st' = booted ∧
      m' <$> seqZ buffer 5000 = stored game_rom
  | _ => False
  end.
Proof. vm_compute. repeat split; reflexivity. Qed.

Example load_cut_rom :
  match sf2000_rom_load_optimized roms sys_malloc booted ramp "cut.rom" with
  | Loaded buffer size st' m' freed =>
      buffer = 0 ∧ size = 0 ∧ freed = Some 0x300004 ∧ st' = booted
  | _ => False
  end.
Proof. vm_compute. repeat split; reflexivity. Qed.

Example load_missing_rom :
  sf2000_rom_load_optimized roms sys_malloc booted ramp "missing.rom"
  = Loaded 0 0 booted ramp None.
Proof. vm_compute. reflexivity. Qed.

(* ================================================================== *)
(** * Part IV: further properties of the code                          *)
(* ================================================================== *)

(** ** What the allocator never changes *)

Lemma free_loop_returned n : ∀ i st ptr st',
  free_loop n i st ptr = Returned st' →
  ∃ k pool, st !! k = Some pool ∧ in_span pool ptr = true ∧
            return_block k pool st ptr = Returned st'.
Proof.
  induction n as [| n IH]; intros i st ptr st' Hret; simpl in Hret; [done |].
  destruct (st !! i) as [pool |] eqn:Hpool; [| done].
  destruct (in_span pool ptr) eqn:Hin; [by exists i, pool | by apply IH in Hret].
Qed.

Lemma layout_insert (st : list SF2000_MemoryPool) k pool pool' :
  st !! k = Some pool → layout pool' = layout pool →
  layout <$> <[k := pool']> st = layout <$> st.
Proof.
  intros Hpool Heq. rewrite list_fmap_insert, Heq.
  apply list_insert_id. by rewrite list_lookup_fmap, Hpool.
Qed.

Lemma take_block_layout k pool (st st' : list SF2000_MemoryPool) a :
  st !! k = Some pool → take_block k pool st = Block k st' a →
  layout <$> st' = layout <$> st ∧ ∀ j, j ≠ k → st' !! j = st !! j.
Proof.
  intros Hpool Htake. unfold take_block in Htake.
  destruct (free_list pool) as [fl |]; [| done].
  destruct (fl !! _) as [idx |]; [| done].
  injection Htake as <- _. split.
  - by apply (layout_insert st k pool).
  - intros j Hj. by apply list_lookup_insert_ne.
Qed.

Lemma return_block_layout k pool (st st' : list SF2000_MemoryPool) ptr :
  st !! k = Some pool → return_block k pool st ptr = Returned st' →
  layout <$> st' = layout <$> st ∧ ∀ j, j ≠ k → st' !! j = st !! j.
Proof.
  intros Hpool Hret. unfold return_block in Hret.
  destruct (block_size pool =? 0); [done |].
  destruct (free_count pool <? block_count pool).
  - destruct (free_list pool) as [fl |]; [| done].
    destruct (_ <? _)%nat; [| done].
    injection Hret as <-. split.
    + by apply (layout_insert st k pool).
    + intros j Hj. by apply list_lookup_insert_ne.
  - by injection Hret as <-.
Qed.

Lemma malloc_keeps_layout st size k st' a :
  sf2000_malloc_fast st size = Block k st' a →
  layout <$> st' = layout <$> st ∧ ∀ j, j ≠ k → st' !! j = st !! j.
Proof.
  intros Hret. unfold sf2000_malloc_fast in Hret.
  pose proof (malloc_loop_inv SF2000_POOL_COUNT 0 st size) as Hinv.
  rewrite Hret in Hinv. destruct Hinv as (pool & _ & Hpool & _ & _ & Htake).
  by apply (take_block_layout k pool st st' a).
Qed.

Lemma free_keeps_layout st ptr st' :
  sf2000_free_fast st ptr = Returned st' →
  layout <$> st' = layout <$> st ∧ ∃ k, ∀ j, j ≠ k → st' !! j = st !! j.
Proof.
  intros Hret. unfold sf2000_free_fast in Hret.
  destruct (ptr =? 0); [injection Hret as <-; split; [done | by exists 0%nat] |].
  apply free_loop_returned in Hret as (k & pool & Hpool & _ & Hret).
  destruct (return_block_layout k pool st st' ptr Hpool Hret) as [Hl Hrest].
  split; [done | by exists k].
Qed.

(** X3. In every state, a call of [sf2000_malloc_fast] or of
    [sf2000_free_fast] that returns leaves the backing storage, the block
    size and the block count of every pool as they were, keeps the number
    of pools, and changes at most one pool (the one that serves it). *)
Theorem allocator_keeps_layout (st : list SF2000_MemoryPool) :
  (∀ size k st' a,
     sf2000_malloc_fast st size = Block k st' a →
     layout <$> st' = layout <$> st ∧ length st' = length st ∧
     ∀ j, j ≠ k → st' !! j = st !! j) ∧
  (∀ ptr st',
     sf2000_free_fast st ptr = Returned st' →
     layout <$> st' = layout <$> st ∧ length st' = length st ∧
     ∃ k, ∀ j, j ≠ k → st' !! j = st !! j).
Proof.
  split.
  - intros size k st' a Hret.
    destruct (malloc_keeps_layout st size k st' a Hret) as [Hl Hrest].
    split; [done |]. split; [| done].
    apply (f_equal length) in Hl. by rewrite !length_fmap in Hl.
  - intros ptr st' Hret.
    destruct (free_keeps_layout st ptr st' Hret) as [Hl Hrest].
    split; [done |]. split; [| done].
    apply (f_equal length) in Hl. by rewrite !length_fmap in Hl.
Qed.

(** ** Round trips of the allocator *)

(** X1. On sound pools whose spans are apart, a block that
    [sf2000_malloc_fast] returns is not null and giving it to
    [sf2000_free_fast] at once leaves the pools exactly as they were
    before the allocation. *)
Theorem allocate_then_free (st : list SF2000_MemoryPool) size k st1 ptr :
  pools_sound st → apart st →
  sf2000_malloc_fast st size = Block k st1 ptr →
  ptr ≠ 0 ∧ sf2000_free_fast st1 ptr = Returned st.
Proof. apply take_then_return. Qed.

Lemma allocate_then_free_witness :
  ∃ st1, sf2000_malloc_fast booted 100 = Block 2 st1 1081248 ∧
         1081248 ≠ 0 ∧ sf2000_free_fast st1 1081248 = Returned booted.
Proof.
  eexists. split; [vm_compute; reflexivity |].
  eapply (allocate_then_free booted 100 2).
  - apply booted_inv.
  - apply booted_inv.
  - vm_compute. reflexivity.
Defined.

(** *** Push and pop *)

Lemma interior_index pool idx off :
  geometry pool → 0 ≤ idx < block_count pool → 0 ≤ off < block_size pool →
  in_span pool (pool_memory pool + idx * block_size pool + off) = true ∧
  wrap32 (pool_memory pool + idx * block_size pool + off - pool_memory pool)
  / block_size pool = idx.
Proof.
  intros Hg Hi Ho. pose proof (block_offset pool idx Hg Hi) as [H1 H2].
  split.
  - apply in_span_geometry; [done |]. destruct Hg as (Hb & Hs & Hc & He). lia.
  - destruct Hg as (Hb & Hs & Hc & He).
    replace (pool_memory pool + idx * block_size pool + off - pool_memory pool)
      with (idx * block_size pool + off) by lia.
    rewrite wrap32_small by lia.
    rewrite Z.div_add_l by lia. rewrite Z.div_small by lia. lia.
Qed.

(** [sf2000_free_fast] on a pointer into block [idx] of a pool that is not
    full pushes [idx]. *)
Lemma free_pushes st k pool fl idx off :
  pools_sound st → apart st →
  st !! k = Some pool → free_list pool = Some fl →
  0 ≤ idx < block_count pool → 0 ≤ off < block_size pool →
  free_count pool < block_count pool →
  sf2000_free_fast st (pool_memory pool + idx * block_size pool + off)
  = Returned
      (<[k := mkPool (pool_memory pool) (block_size pool) (block_count pool)
                     (free_count pool + 1)
                     (Some (<[Z.to_nat (free_count pool) := idx]> fl))]> st).
Proof.
  intros Hs Hdisj Hpool Hfl Hi Ho Hroom.
  pose proof Hs as [Hlen Hsound].
  destruct (Hsound pool) as [Hg _]; [by eapply list_elem_of_lookup_2 |].
  destruct (interior_index pool idx off Hg Hi Ho) as [Hin Hidx].
  assert (pool_memory pool + idx * block_size pool + off ≠ 0) as Hptr.
  { pose proof (block_offset pool idx Hg Hi). destruct Hg as (Hb & _). lia. }
  destruct (free_shape st _ Hs Hptr)
    as [[_ Hno] | (k2 & pool2 & fl2 & Hpool2 & Hin2 & _ & Hfl2 & Hcase)].
  { by rewrite (Hno k pool Hpool) in Hin. }
  assert (k2 = k) as -> by (by eapply Hdisj).
  rewrite Hpool in Hpool2. injection Hpool2 as <-.
  rewrite Hfl in Hfl2. injection Hfl2 as <-.
  destruct Hcase as [[Hfull _] | [_ ->]]; [lia |]. by rewrite Hidx.
Qed.

(** [sf2000_malloc_fast] pops the top of the free list of the first pool
    that fits. *)
Lemma malloc_pops st k pool fl idx size :
  pools_sound st →
  st !! k = Some pool → free_list pool = Some fl →
  0 < free_count pool →
  fl !! Z.to_nat (free_count pool - 1) = Some idx →
  size ≤ block_size pool →
  (∀ j q, (j < k)%nat → st !! j = Some q → fits size q = false) →
  sf2000_malloc_fast st size
  = Block k
      (<[k := mkPool (pool_memory pool) (block_size pool) (block_count pool)
                     (free_count pool - 1) (Some fl)]> st)
      (pool_memory pool + idx * block_size pool).
Proof.
  intros Hs Hpool Hfl Hpos Hidx Hsize Hfirst.
  pose proof Hs as [Hlen Hsound].
  destruct (Hsound pool) as [Hg ((Hfc0 & Hfc) & fl' & Hfl' & Hlenfl & Hall)].
  { by eapply list_elem_of_lookup_2. }
  rewrite Hfl in Hfl'. injection Hfl' as <-.
  destruct (geometry_bounds pool Hg) as (_ & Hbc & _).
  assert (0 ≤ idx < block_count pool) as Hrange.
  { rewrite Forall_lookup in Hall. by apply (Hall _ _ Hidx). }
  unfold sf2000_malloc_fast.
  rewrite (malloc_loop_first _ 0 st size k pool); try done.
  - unfold take_block. rewrite (wrap32_small (free_count pool - 1)) by lia.
    by rewrite Hfl, Hidx, block_addr_geometry.
  - apply lookup_lt_Some in Hpool. lia.
  - unfold fits. apply andb_true_iff. split; [by apply Z.leb_le | by apply Z.ltb_lt].
  - intros j q Hj Hq. apply (Hfirst j q); [lia | done].
  - intros j Hj. apply lookup_pool; [done |]. apply lookup_lt_Some in Hpool. lia.
Qed.

Lemma pushed_sound st k pool fl idx :
  pools_sound st → apart st →
  st !! k = Some pool → free_list pool = Some fl →
  0 ≤ idx < block_count pool → free_count pool < block_count pool →
  let pool' := mkPool (pool_memory pool) (block_size pool) (block_count pool)
                      (free_count pool + 1)
                      (Some (<[Z.to_nat (free_count pool) := idx]> fl)) in
  pools_sound (<[k := pool']> st) ∧ apart (<[k := pool']> st) ∧
  <[k := pool']> st !! k = Some pool'.
Proof.
  intros Hs Hdisj Hpool Hfl Hi Hroom pool'.
  pose proof Hs as [Hlen Hsound].
  destruct (Hsound pool) as [Hg ((Hfc0 & Hfc) & fl' & Hfl' & Hlenfl & Hall)].
  { by eapply list_elem_of_lookup_2. }
  rewrite Hfl in Hfl'. injection Hfl' as <-.
  split; [| split].
  - apply sound_insert; [done | done |]. split; simpl; [lia |].
    eexists. split; [done |]. split; [by rewrite length_insert |].
    by apply Forall_insert.
  - by eapply apart_insert.
  - apply list_lookup_insert_eq. by eapply lookup_lt_Some.
Qed.

(** X2. The free list is a stack, and a block is freed through any of its
    addresses. On sound pools whose spans are apart, [sf2000_free_fast] on
    a pointer anywhere inside block [idx] of a pool that is not full
    pushes [idx]; the next [sf2000_malloc_fast] that this pool serves
    returns the start of that same block and leaves the pools as they
    were before the two calls, but for the cell of the free list above
    its top, which now holds [idx]. *)
Theorem free_then_allocate (st : list SF2000_MemoryPool) k pool fl idx off size :
  pools_sound st → apart st →
  st !! k = Some pool → free_list pool = Some fl →
  0 ≤ idx < block_count pool → 0 ≤ off < block_size pool →
  free_count pool < block_count pool →
  size ≤ block_size pool →
  (∀ j q, (j < k)%nat → st !! j = Some q → fits size q = false) →
  ∃ st1,
    sf2000_free_fast st (pool_memory pool + idx * block_size pool + off)
    = Returned st1 ∧
    sf2000_malloc_fast st1 size
    = Block k
        (<[k := mkPool (pool_memory pool) (block_size pool) (block_count pool)
                       (free_count pool)
                       (Some (<[Z.to_nat (free_count pool) := idx]> fl))]> st)
        (pool_memory pool + idx * block_size pool).
Proof.
  intros Hs Hdisj Hpool Hfl Hi Ho Hroom Hsize Hfirst.
  eexists. split; [by apply (free_pushes st k pool fl idx off) |].
  destruct (pushed_sound st k pool fl idx Hs Hdisj Hpool Hfl Hi Hroom)
    as (Hs1 & _ & Hpool1).
  pose proof Hs as [_ Hsound].
  destruct (Hsound pool) as [_ ((Hfc0 & Hfc) & fl' & Hfl' & Hlenfl & _)].
  { by eapply list_elem_of_lookup_2. }
  rewrite Hfl in Hfl'. injection Hfl' as <-.
  rewrite (malloc_pops _ k _ (<[Z.to_nat (free_count pool) := idx]> fl) idx size Hs1 Hpool1);
    simpl; try done; try lia.
  - rewrite list_insert_insert_eq.
    by replace (free_count pool + 1 - 1) with (free_count pool) by lia.
  - replace (free_count pool + 1 - 1) with (free_count pool) by lia.
    apply list_lookup_insert_eq. lia.
  - intros j q Hj Hq. rewrite list_lookup_insert_ne in Hq by lia.
    by apply (Hfirst j q).
Qed.

Lemma busy_inv : pools_sound busy ∧ apart busy.
Proof.
  destruct (run_inv [Allocate 40 0] (mkHeap booted []) booted_inv) as (h & Hrun & Hinv).
  { split; [by left | done]. }
  vm_compute in Hrun. injection Hrun as <-.
  destruct Hinv as (Hs & _ & Hdisj & _). split; [exact Hs | exact Hdisj].
Qed.

Lemma busy_pool_0 :
  busy !! 0%nat = Some (mkPool 1048608 32 256 256 (Some (seqZ 0 256))).
Proof. vm_compute. reflexivity. Qed.

Lemma busy_pool_1 :
  busy !! 1%nat = Some (mkPool 1060896 64 128 127 (Some (seqZ 0 128))).
Proof. vm_compute. reflexivity. Qed.

Lemma free_then_allocate_witness :
  ∃ st1,
    sf2000_free_fast busy (1060896 + 127 * 64 + 5) = Returned st1 ∧
    sf2000_malloc_fast st1 50
    = Block 1
        (<[1%nat := mkPool 1060896 64 128 127
                           (Some (<[127%nat := 127]> (seqZ 0 128)))]> busy)
        (1060896 + 127 * 64).
Proof.
  apply (free_then_allocate busy 1
           (mkPool 1060896 64 128 127 (Some (seqZ 0 128))) (seqZ 0 128) 127 5 50).
  - apply busy_inv.
  - apply busy_inv.
  - exact busy_pool_1.
  - reflexivity.
  - simpl. lia.
  - simpl. lia.
  - simpl. lia.
  - simpl. lia.
  - intros j q Hj Hq. assert (j = 0%nat) as -> by lia.
    rewrite busy_pool_0 in Hq. injection Hq as <-. reflexivity.
Defined.

(** ** Allocation: first fit *)

(** X20. For every requested size and every state of the eight pools, with
    the pools taken in the order of the array (ascending block sizes after
    [sf2000_memory_pools_init]):
    - a block that [sf2000_malloc_fast] returns comes from a pool [k]
      with [size <= block_size] and [free_count > 0] such that no pool
      before [k] has both: it is the block whose index is on top of the
      free list of pool [k], whose [free_count] is decremented, the rest of
      the state being unchanged;
    - the request goes to the general-purpose allocator exactly when no
      pool has [size <= block_size] and [free_count > 0];
    - when there is a first pool that has both and the top of its free
      list can be read, its top block is returned;
    - on pools that satisfy the invariant of the allocator the top can be
      read: a first pool that has both always serves the request, with a
      block inside its span. *)
Theorem first_fit (st : list SF2000_MemoryPool) (size : Z) :
  length st = SF2000_POOL_COUNT →
  (∀ k st' a, sf2000_malloc_fast st size = Block k st' a →
     ∃ pool fl block_index,
       st !! k = Some pool ∧
       size ≤ block_size pool ∧ 0 < free_count pool ∧
       (∀ j q, (j < k)%nat → st !! j = Some q →
               ¬ (size ≤ block_size q ∧ 0 < free_count q)) ∧
       free_list pool = Some fl ∧
       fl !! Z.to_nat (wrap32 (free_count pool - 1)) = Some block_index ∧
       a = wrap32 (pool_memory pool + wrap32 (block_index * block_size pool)) ∧
       st' = <[k := mkPool (pool_memory pool) (block_size pool) (block_count pool)
                           (wrap32 (free_count pool - 1)) (Some fl)]> st) ∧
  (sf2000_malloc_fast st size = SysMalloc size ↔
   ∀ k pool, st !! k = Some pool → ¬ (size ≤ block_size pool ∧ 0 < free_count pool)) ∧
  (∀ k pool fl block_index,
     st !! k = Some pool →
     size ≤ block_size pool → 0 < free_count pool →
     (∀ j q, (j < k)%nat → st !! j = Some q →
             ¬ (size ≤ block_size q ∧ 0 < free_count q)) →
     free_list pool = Some fl →
     fl !! Z.to_nat (wrap32 (free_count pool - 1)) = Some block_index →
     sf2000_malloc_fast st size =
       Block k
         (<[k := mkPool (pool_memory pool) (block_size pool) (block_count pool)
                        (wrap32 (free_count pool - 1)) (Some fl)]> st)
         (wrap32 (pool_memory pool + wrap32 (block_index * block_size pool)))) ∧
  (pools_sound st →
   ∀ k pool,
     st !! k = Some pool →
     size ≤ block_size pool → 0 < free_count pool →
     (∀ j q, (j < k)%nat → st !! j = Some q →
             ¬ (size ≤ block_size q ∧ 0 < free_count q)) →
     ∃ fl block_index,
       free_list pool = Some fl ∧
       fl !! Z.to_nat (free_count pool - 1) = Some block_index ∧
       0 ≤ block_index < block_count pool ∧
       sf2000_malloc_fast st size =
         Block k
           (<[k := mkPool (pool_memory pool) (block_size pool) (block_count pool)
                          (free_count pool - 1) (Some fl)]> st)
           (pool_memory pool + block_index * block_size pool)).
Proof.
  intros Hlen.
  assert (∀ q, fits size q = false ↔ ¬ (size ≤ block_size q ∧ 0 < free_count q)) as Hfits.
  { intros q. unfold fits. rewrite andb_false_iff, Z.leb_gt, Z.ltb_ge. lia. }
  assert (∀ q, fits size q = true ↔ size ≤ block_size q ∧ 0 < free_count q) as Hfits'.
  { intros q. unfold fits. by rewrite andb_true_iff, Z.leb_le, Z.ltb_lt. }
  assert (∀ k pool,
     st !! k = Some pool →
     size ≤ block_size pool → 0 < free_count pool →
     (∀ j q, (j < k)%nat → st !! j = Some q →
             ¬ (size ≤ block_size q ∧ 0 < free_count q)) →
     sf2000_malloc_fast st size = take_block k pool st) as Hselect.
  { intros k pool Hpool Hsz Hfc Hno. unfold sf2000_malloc_fast.
    assert (k < SF2000_POOL_COUNT)%nat as Hk.
    { rewrite <- Hlen. by eapply lookup_lt_Some. }
    apply malloc_loop_first; try done; try lia.
    - by apply Hfits'.
    - intros j q Hj Hq. apply Hfits. apply (Hno j q); [lia | done].
    - intros j Hj. apply lookup_pool; [done | lia]. }
  split; [| split; [| split]].
  - intros k st' a Hret. unfold sf2000_malloc_fast in Hret.
    pose proof (malloc_loop_inv SF2000_POOL_COUNT 0 st size) as Hinv.
    rewrite Hret in Hinv. destruct Hinv as (pool & Hk & Hpool & Hfit & Hno & Htake).
    unfold take_block in Htake.
    destruct (free_list pool) as [fl |] eqn:Hfl; [| done].
    destruct (fl !! Z.to_nat (wrap32 (free_count pool - 1))) as [idx |] eqn:Hidx; [| done].
    exists pool, fl, idx. apply Hfits' in Hfit as [Hsz Hfc].
    injection Htake as <- <-.
    split; [done |]. split; [done |]. split; [done |].
    split; [| done].
    intros j q Hj Hq. apply Hfits. apply (Hno j q); [lia | done].
  - split.
    + intros Hret k pool Hpool. apply Hfits. unfold sf2000_malloc_fast in Hret.
      pose proof (malloc_loop_inv SF2000_POOL_COUNT 0 st size) as Hinv.
      rewrite Hret in Hinv. destruct Hinv as [_ Hno].
      apply (Hno k pool); [| done].
      apply lookup_lt_Some in Hpool. lia.
    + intros Hno. apply malloc_loop_skip.
      * intros j q Hj Hq. apply Hfits. by apply (Hno j q).
      * intros j Hj. apply lookup_pool; [done | lia].
  - intros k pool fl idx Hpool Hsz Hfc Hno Hfl Hidx.
    rewrite (Hselect k pool) by done.
    unfold take_block. by rewrite Hfl, Hidx.
  - intros Hs k pool Hpool Hsz Hfc Hno.
    pose proof (Hselect k pool Hpool Hsz Hfc Hno) as Htake.
    destruct (malloc_shape st size Hs)
      as [[Heq Hnone] | (k' & pool' & fl & idx & Hpool' & _ & _ & Hfl & Hidx & Hrange & Heq)].
    + specialize (Hnone k pool Hpool). apply Hfits in Hnone. lia.
    + assert (k' = k) as ->.
      { rewrite Heq in Htake. unfold take_block in Htake.
        repeat case_match; congruence. }
      rewrite Hpool in Hpool'. injection Hpool' as <-.
      by exists fl, idx.
Qed.

Lemma first_fit_witness :
  (∃ st', sf2000_malloc_fast booted 40 = Block 1 st' (1060896 + 127 * 64) ∧
          free_count <$> st' = [256; 127; 64; 32; 16; 8; 4; 2]) ∧
  ∃ fl block_index,
    fl !! 127%nat = Some block_index ∧ 0 ≤ block_index < 128 ∧
    sf2000_malloc_fast booted 40 =
      Block 1 (<[1%nat := mkPool 1060896 64 128 127 (Some fl)]> booted)
            (1060896 + block_index * 64).
Proof.
  destruct (first_fit booted 40 eq_refl) as (_ & _ & Hserve & Hsound).
  split.
  - eexists. split.
    + apply (Hserve 1%nat (mkPool 1060896 64 128 128 (Some (seqZ 0 128)))
                    (seqZ 0 128) 127).
      * exact booted_pool_1.
      * simpl. lia.
      * simpl. lia.
      * intros j q Hj Hq. assert (j = 0%nat) as -> by lia.
        rewrite booted_pool_0 in Hq. injection Hq as <-. simpl. lia.
      * reflexivity.
      * vm_compute. reflexivity.
    + vm_compute. reflexivity.
  - destruct (Hsound (proj1 booted_inv) 1%nat
                (mkPool 1060896 64 128 128 (Some (seqZ 0 128))))
      as (fl & idx & Hfl & Hidx & Hrange & Heq).
    + exact booted_pool_1.
    + simpl. lia.
    + simpl. lia.
    + intros j q Hj Hq. assert (j = 0%nat) as -> by lia.
      rewrite booted_pool_0 in Hq. injection Hq as <-. simpl. lia.
    + exists fl, idx. split; [exact Hidx |]. split; [exact Hrange | exact Heq].
Defined.

(** ** Initialisation, whatever the allocator answers *)

Lemma init_pool_cases pool size count sys :
  0 < count →
  init_pool pool size count sys
  = if list_unchecked sys then Fault NullDeref
    else Ok (initialised pool size count sys).
Proof.
  intros Hc. unfold init_pool, list_unchecked, initialised, fresh_pool.
  destruct (Z.eqb_spec (backing_malloc sys) 0) as [-> | Hb]; simpl; [done |].
  destruct (Z.eqb_spec (free_list_malloc sys) 0) as [Hf | Hf]; simpl.
  - destruct (Z.ltb_spec 0 count); [done | lia].
  - by rewrite init_free_list_fresh by lia.
Qed.

Lemma pools_init_loop_returns sys n : ∀ i st,
  (i + n ≤ SF2000_POOL_COUNT)%nat →
  (∀ j, (i ≤ j < i + n)%nat → is_Some (st !! j)) →
  (∀ j, (i ≤ j < i + n)%nat → list_unchecked (sys j) = false) →
  ∃ st', pools_init_loop n i sys st = Ok st' ∧ length st' = length st ∧
    (∀ j, ¬ (i ≤ j < i + n)%nat → st' !! j = st !! j) ∧
    (∀ j prev size count, (i ≤ j < i + n)%nat → st !! j = Some prev →
       SF2000_POOL_SIZES !! j = Some size → blocks_per_pool !! j = Some count →
       st' !! j = Some (initialised prev size count (sys j))).
Proof.
  induction n as [| n IH]; intros i st Hn Hlen Hgood; simpl.
  - exists st. repeat split; try done. intros; lia.
  - destruct (Hlen i ltac:(lia)) as [pool Hpool]. rewrite Hpool.
    destruct (pool_table_lookup i ltac:(lia)) as (size & count & Hsize & Hcount).
    rewrite Hsize, Hcount.
    destruct (pool_table i size count Hsize Hcount) as (_ & _ & Hc & _).
    rewrite init_pool_cases, (Hgood i) by lia.
    destruct (IH (S i) (<[i := initialised pool size count (sys i)]> st))
      as (st' & Heq & Hlen' & Hout & Hin); [lia | | |].
    { intros j Hj. apply list_lookup_insert_is_Some. apply Hlen. lia. }
    { intros j Hj. apply Hgood. lia. }
    exists st'. split; [done |]. split; [by rewrite Hlen', length_insert |]. split.
    + intros j Hj. rewrite Hout by lia. apply list_lookup_insert_ne. lia.
    + intros j prev size' count' Hj Hprev Hsize' Hcount'.
      destruct (decide (j = i)) as [-> | Hne].
      * rewrite Hout by lia. simplify_eq.
        apply list_lookup_insert_eq. by apply lookup_lt_is_Some.
      * apply Hin; [lia | | done | done].
        by rewrite list_lookup_insert_ne by lia.
Qed.

Lemma pools_init_loop_faults sys n : ∀ i st,
  (i + n ≤ SF2000_POOL_COUNT)%nat →
  (∀ j, (i ≤ j < i + n)%nat → is_Some (st !! j)) →
  (∃ j, (i ≤ j < i + n)%nat ∧ list_unchecked (sys j) = true) →
  pools_init_loop n i sys st = Fault NullDeref.
Proof.
  induction n as [| n IH]; intros i st Hn Hlen (b & Hb & Hbad); simpl; [lia |].
  destruct (Hlen i ltac:(lia)) as [pool Hpool]. rewrite Hpool.
  destruct (pool_table_lookup i ltac:(lia)) as (size & count & Hsize & Hcount).
  rewrite Hsize, Hcount.
  destruct (pool_table i size count Hsize Hcount) as (_ & _ & Hc & _).
  rewrite init_pool_cases by lia.
  destruct (list_unchecked (sys i)) eqn:Hi; [done |].
  apply IH; [lia | |].
  - intros j Hj. apply list_lookup_insert_is_Some. apply Hlen. lia.
  - exists b. split; [| done].
    destruct (decide (b = i)) as [-> | Hne]; [congruence | lia].
Qed.

Lemma list_unchecked_spec sys :
  list_unchecked sys = true ↔ backing_malloc sys ≠ 0 ∧ free_list_malloc sys = 0.
Proof.
  unfold list_unchecked.
  by rewrite andb_true_iff, negb_true_iff, Z.eqb_neq, Z.eqb_eq.
Qed.

Lemma pools_init_returns (sys : nat → pool_mallocs) (st : list SF2000_MemoryPool) :
  length st = SF2000_POOL_COUNT →
  (∀ i, (i < SF2000_POOL_COUNT)%nat →
        backing_malloc (sys i) = 0 ∨ free_list_malloc (sys i) ≠ 0) →
  ∃ st', sf2000_memory_pools_init sys st = Ok st' ∧
         length st' = SF2000_POOL_COUNT ∧
         ∀ i prev size count,
           st !! i = Some prev →
           SF2000_POOL_SIZES !! i = Some size → blocks_per_pool !! i = Some count →
           st' !! i = Some (initialised prev size count (sys i)).
Proof.
  intros Hlen Hgood. unfold sf2000_memory_pools_init.
  destruct (pools_init_loop_returns sys SF2000_POOL_COUNT 0 st)
    as (st' & Heq & Hlen' & _ & Hin); [lia | | |].
  { intros j Hj. apply lookup_pool; [done | lia]. }
  { intros j Hj. destruct (list_unchecked (sys j)) eqn:Hj'; [| done].
    apply list_unchecked_spec in Hj' as [H1 H2].
    destruct (Hgood j); [lia | done | done]. }
  exists st'. split; [done |]. split; [lia |].
  intros i prev size count Hprev Hsize Hcount.
  apply (Hin i prev size count); try done.
  apply lookup_lt_Some in Hprev. lia.
Qed.

Lemma init_ok_shape (sys : nat → pool_mallocs) (st st' : list SF2000_MemoryPool) :
  length st = SF2000_POOL_COUNT →
  sf2000_memory_pools_init sys st = Ok st' →
  length st' = SF2000_POOL_COUNT ∧
  ∀ i prev size count,
    st !! i = Some prev →
    SF2000_POOL_SIZES !! i = Some size → blocks_per_pool !! i = Some count →
    st' !! i = Some (initialised prev size count (sys i)).
Proof.
  intros Hlen Hinit.
  destruct (pools_init_returns sys st Hlen) as (st2 & Heq & Hlen2 & Hshape).
  - intros i Hi.
    destruct (Z.eqb_spec (backing_malloc (sys i)) 0) as [| Hb]; [by left |].
    destruct (Z.eqb_spec (free_list_malloc (sys i)) 0) as [Hf |]; [| by right].
    exfalso. unfold sf2000_memory_pools_init in Hinit.
    rewrite pools_init_loop_faults in Hinit; [done | lia | |].
    + intros j Hj. apply lookup_pool; [done | lia].
    + exists i. split; [lia | by apply list_unchecked_spec].
  - rewrite Hinit in Heq. by injection Heq as <-.
Qed.

Lemma initialised_table prev size count sys :
  block_size (initialised prev size count sys) = size ∧
  block_count (initialised prev size count sys) = count ∧
  free_count (initialised prev size count sys) = count.
Proof. unfold initialised, fresh_pool. by destruct (_ =? _). Qed.

(** X4. [sf2000_memory_pools_init], on any eight pools and whatever the
    general-purpose allocator answers, either writes a free list through a
    null pointer, which it does exactly when for some pool the backing
    storage is served and the free list refused (the result of that
    [malloc] is not tested), or returns. When it returns, the refusal of a
    backing storage has stopped nothing: that pool is left with a null
    [pool_memory], [free_count = block_count] and the free-list pointer it
    had before, and each other pool is fresh. *)
Theorem init_outcome (sys : nat → pool_mallocs) (st : list SF2000_MemoryPool) :
  length st = SF2000_POOL_COUNT →
  (sf2000_memory_pools_init sys st = Fault NullDeref ↔
   ∃ i, (i < SF2000_POOL_COUNT)%nat ∧
        backing_malloc (sys i) ≠ 0 ∧ free_list_malloc (sys i) = 0) ∧
  ((∀ i, (i < SF2000_POOL_COUNT)%nat →
         backing_malloc (sys i) = 0 ∨ free_list_malloc (sys i) ≠ 0) →
   ∃ st', sf2000_memory_pools_init sys st = Ok st' ∧
          length st' = SF2000_POOL_COUNT ∧
          ∀ i prev size count,
            st !! i = Some prev →
            SF2000_POOL_SIZES !! i = Some size → blocks_per_pool !! i = Some count →
            st' !! i = Some (if backing_malloc (sys i) =? 0
                             then mkPool 0 size count count (free_list prev)
                             else fresh_pool size count (sys i))).
Proof.
  intros Hlen.
  split; [| by apply pools_init_returns]. split.
  - intros Hfault.
    destruct (existsb (λ j, list_unchecked (sys j)) (seq 0 SF2000_POOL_COUNT)) eqn:Hex.
    + apply existsb_exists in Hex as (j & Hj & Hj').
      apply in_seq in Hj. exists j. split; [lia | by apply list_unchecked_spec].
    + destruct (pools_init_returns sys st Hlen) as (st' & Heq & _); [| congruence].
      intros i Hi.
      assert (list_unchecked (sys i) = false) as Hi'.
      { destruct (list_unchecked (sys i)) eqn:E; [| done].
        assert (existsb (λ j, list_unchecked (sys j)) (seq 0 SF2000_POOL_COUNT) = true)
          as Hcontra; [| congruence].
        apply existsb_exists. exists i. split; [apply in_seq; lia | done]. }
      unfold list_unchecked in Hi'.
      destruct (Z.eqb_spec (backing_malloc (sys i)) 0); [by left |].
      destruct (Z.eqb_spec (free_list_malloc (sys i)) 0); [done | by right].
  - intros (i & Hi & Hb & Hf). unfold sf2000_memory_pools_init.
    apply pools_init_loop_faults; [lia | |].
    + intros j Hj. apply lookup_pool; [done | lia].
    + exists i. split; [lia | by apply list_unchecked_spec].
Qed.

Lemma init_outcome_witness :
  (sf2000_memory_pools_init list_refused zero_pools = Fault NullDeref ↔
   ∃ i, (i < SF2000_POOL_COUNT)%nat ∧
        backing_malloc (list_refused i) ≠ 0 ∧ free_list_malloc (list_refused i) = 0) ∧
  sf2000_memory_pools_init list_refused zero_pools = Fault NullDeref.
Proof.
  destruct (init_outcome list_refused zero_pools eq_refl) as [Hiff _].
  split; [exact Hiff |]. apply Hiff. exists 2%nat.
  split; [unfold SF2000_POOL_COUNT; lia |]. split; [by vm_compute | reflexivity].
Defined.

(** ** The layout that a successful initialisation leaves *)

Lemma pool_sizes_range i size :
  SF2000_POOL_SIZES !! i = Some size →
  32 ≤ size ≤ 4096 ∧ size mod SF2000_CACHE_LINE_SIZE = 0.
Proof.
  intros Hs.
  do 8 (destruct i as [| i]; [simpl in Hs; simplify_eq; split; [lia | done] |]).
  done.
Qed.

(** X5. After a successful initialisation each pool has its eight
    kilobytes of blocks inside the block that [malloc] returned for it,
    starting at the first cache-line boundary of that block; the spans of
    two pools have no address in common; and every block is free, the
    free list holding the indices in the order of the blocks. *)
Theorem init_layout (sys : nat → pool_mallocs) :
  init_succeeds sys →
  ∃ st0, sf2000_memory_pools_init sys zero_pools = Ok st0 ∧
    length st0 = SF2000_POOL_COUNT ∧ apart st0 ∧
    ∀ i pool, st0 !! i = Some pool →
      ∃ size count,
        SF2000_POOL_SIZES !! i = Some size ∧ blocks_per_pool !! i = Some count ∧
        block_size pool = size ∧ block_count pool = count ∧
        free_count pool = count ∧ free_list pool = Some (seqZ 0 count) ∧
        pool_memory pool mod SF2000_CACHE_LINE_SIZE = 0 ∧
        backing_malloc (sys i) ≤ pool_memory pool < backing_malloc (sys i) + 32 ∧
        pool_memory pool + size * count
        ≤ backing_malloc (sys i) + backing_request size count.
Proof.
  intros Hinit. destruct (init_heap_inv sys Hinit) as (st0 & Heq & Hinv).
  destruct Hinv as ((Hlen & _) & _ & Hdisj & _). simpl in *.
  exists st0. split; [done |]. split; [done |]. split; [done |].
  intros i pool Hpool.
  assert (i < SF2000_POOL_COUNT)%nat as Hi.
  { rewrite <- Hlen. by eapply lookup_lt_Some. }
  destruct (pool_table_lookup i Hi) as (size & count & Hsize & Hcount).
  destruct Hinit as [Hserved _].
  destruct (Hserved i size count Hsize Hcount) as (Hpos & Hend & Hf).
  destruct (pool_table i size count Hsize Hcount) as (_ & _ & _ & Hmul & Hreq).
  destruct (pools_init_returns sys zero_pools eq_refl) as (st' & Heq' & _ & Hshape).
  { intros j Hj. destruct (pool_table_lookup j Hj) as (sj & cj & Hsj & Hcj).
    destruct (Hserved j sj cj Hsj Hcj) as (_ & _ & Hfj). by right. }
  rewrite Heq in Heq'. injection Heq' as <-.
  rewrite (Hshape i zero_pool size count) in Hpool; try done.
  2: { apply lookup_replicate_2. lia. }
  unfold initialised in Hpool.
  destruct (Z.eqb_spec (backing_malloc (sys i)) 0); [lia |].
  injection Hpool as <-. exists size, count. unfold fresh_pool; simpl.
  rewrite Hreq in *.
  destruct (align_cache_line_bounds (backing_malloc (sys i))) as [Hal Hmod];
    [lia | lia |].
  repeat split; try done; try lia.
Qed.

Lemma init_layout_witness :
  ∃ st0, sf2000_memory_pools_init served zero_pools = Ok st0 ∧
    length st0 = SF2000_POOL_COUNT ∧ apart st0 ∧
    ∀ i pool, st0 !! i = Some pool →
      ∃ size count,
        SF2000_POOL_SIZES !! i = Some size ∧ blocks_per_pool !! i = Some count ∧
        block_size pool = size ∧ block_count pool = count ∧
        free_count pool = count ∧ free_list pool = Some (seqZ 0 count) ∧
        pool_memory pool mod SF2000_CACHE_LINE_SIZE = 0 ∧
        backing_malloc (served i) ≤ pool_memory pool < backing_malloc (served i) + 32 ∧
        pool_memory pool + size * count
        ≤ backing_malloc (served i) + backing_request size count.
Proof. exact (init_layout served served_succeeds). Defined.

(** ** Along the sequences of calls *)

Lemma step_layout h c h' :
  step h c = Ok h' → layout <$> pools h' = layout <$> pools h.
Proof.
  intros Hstep. destruct c as [size sys | ptr]; simpl in Hstep.
  - destruct (sf2000_malloc_fast (pools h) size) as [k st a | n |] eqn:Hm;
      [| by injection Hstep as <- | done].
    injection Hstep as <-. simpl. by apply (malloc_keeps_layout _ size k st a).
  - destruct (sf2000_free_fast (pools h) ptr) as [st | p |] eqn:Hf;
      [| by injection Hstep as <- | done].
    injection Hstep as <-. simpl. by apply (free_keeps_layout _ ptr st).
Qed.

Lemma run_layout cs : ∀ h h',
  run h cs = Ok h' → layout <$> pools h' = layout <$> pools h.
Proof.
  induction cs as [| c cs IH]; intros h h' Hrun; simpl in Hrun.
  - by injection Hrun as <-.
  - destruct (step h c) as [h1 |] eqn:Hstep; [| done].
    rewrite (IH h1 h' Hrun). by apply (step_layout h c).
Qed.

Lemma layout_lookup (st st' : list SF2000_MemoryPool) i q :
  layout <$> st' = layout <$> st → st' !! i = Some q →
  ∃ p, st !! i = Some p ∧ layout p = layout q.
Proof.
  intros Hl Hq.
  assert ((layout <$> st) !! i = Some (layout q)) as H.
  { by rewrite <- Hl, list_lookup_fmap, Hq. }
  rewrite list_lookup_fmap in H.
  destruct (st !! i) as [p |]; [| done]. exists p. split; [done |].
  simpl in H. congruence.
Qed.

(** X6. After an initialisation that returns, whatever the general-purpose
    allocator answered to it, and after any sequence of calls that
    returns, a request of more than 4096 bytes (the largest block size)
    goes to the general-purpose allocator with its size, for every state
    of the pools. *)
Theorem oversize_goes_to_malloc (sys : nat → pool_mallocs)
    (cs : list call) st0 h (size : Z) :
  sf2000_memory_pools_init sys zero_pools = Ok st0 →
  run (mkHeap st0 []) cs = Ok h →
  4096 < size →
  sf2000_malloc_fast (pools h) size = SysMalloc size.
Proof.
  intros Hinit Hrun Hsize.
  destruct (init_ok_shape sys zero_pools st0 eq_refl Hinit) as [Hlen Hshape].
  pose proof (run_layout cs _ _ Hrun) as Hl. simpl in Hl.
  assert (length (pools h) = SF2000_POOL_COUNT) as Hlenh.
  { apply (f_equal length) in Hl. rewrite !length_fmap in Hl. lia. }
  apply malloc_loop_skip.
  - intros j q _ Hq.
    destruct (layout_lookup st0 (pools h) j q Hl Hq) as (p & Hp & Hpq).
    assert (j < SF2000_POOL_COUNT)%nat as Hj by (apply lookup_lt_Some in Hp; lia).
    destruct (pool_table_lookup j Hj) as (sz & cn & Hsz & Hcn).
    rewrite (Hshape j zero_pool sz cn) in Hp;
      [| apply lookup_replicate_2; lia | done | done].
    injection Hp as <-.
    destruct (initialised_table zero_pool sz cn (sys j)) as (Hbs & _).
    destruct (pool_sizes_range j sz Hsz) as [Hr _].
    injection Hpq as _ Hbs' _. unfold fits.
    apply andb_false_iff. left. apply Z.leb_gt. lia.
  - intros j Hj. apply lookup_pool; [done | lia].
Qed.

Lemma oversize_goes_to_malloc_witness :
  ∃ h, run (mkHeap degraded []) [Allocate 100 0; Free 0; Allocate 5000 0] = Ok h ∧
       sf2000_malloc_fast (pools h) 4097 = SysMalloc 4097.
Proof.
  eexists. split; [vm_compute; reflexivity |].
  eapply (oversize_goes_to_malloc first_refused
            [Allocate 100 0; Free 0; Allocate 5000 0] degraded).
  - vm_compute. reflexivity.
  - vm_compute. reflexivity.
  - lia.
Defined.

(** *** The blocks that are handed out *)

Lemma cache_aligned_layout (st st' : list SF2000_MemoryPool) :
  layout <$> st' = layout <$> st → cache_aligned st → cache_aligned st'.
Proof.
  intros Hl Hal q Hq. apply list_elem_of_lookup in Hq as [i Hi].
  destruct (layout_lookup st st' i q Hl Hi) as (p & Hp & Hpq).
  injection Hpq as H1 H2 H3. rewrite <- H1, <- H2.
  apply Hal. by eapply list_elem_of_lookup_2.
Qed.

Lemma init_cache_aligned sys st0 :
  init_succeeds sys →
  sf2000_memory_pools_init sys zero_pools = Ok st0 → cache_aligned st0.
Proof.
  intros [Hserved _] Hinit q Hq. apply list_elem_of_lookup in Hq as [i Hi].
  destruct (init_ok_shape sys zero_pools st0 eq_refl Hinit) as [Hlen Hshape].
  assert (i < SF2000_POOL_COUNT)%nat as Hlt by (apply lookup_lt_Some in Hi; lia).
  destruct (pool_table_lookup i Hlt) as (sz & cn & Hsz & Hcn).
  rewrite (Hshape i zero_pool sz cn) in Hi;
    [| apply lookup_replicate_2; lia | done | done].
  injection Hi as <-.
  destruct (Hserved i sz cn Hsz Hcn) as (Hpos & _ & _).
  destruct (pool_sizes_range i sz Hsz) as [_ Hmod].
  unfold initialised. destruct (Z.eqb_spec (backing_malloc (sys i)) 0); [lia |].
  unfold fresh_pool; simpl. split; [| done].
  by destruct (align_cache_line_le (backing_malloc (sys i))); [lia |].
Qed.

(** The states that the client reaches when it keeps to the contract. *)
Lemma reached sys cs st0 h :
  init_succeeds sys →
  sf2000_memory_pools_init sys zero_pools = Ok st0 →
  well_behaved (mkHeap st0 []) cs →
  run (mkHeap st0 []) cs = Ok h →
  heap_inv h ∧ cache_aligned (pools h).
Proof.
  intros Hsucc Hinit Hwb Hrun.
  destruct (init_heap_inv sys Hsucc) as (st & Heq & Hinv).
  rewrite Hinit in Heq. injection Heq as <-.
  destruct (run_inv cs _ Hinv Hwb) as (h' & Hrun' & Hinv').
  rewrite Hrun in Hrun'. injection Hrun' as <-.
  split; [done |].
  apply (cache_aligned_layout st0); [by apply (run_layout cs _ _ Hrun) |].
  by apply (init_cache_aligned sys).
Qed.

Lemma block_aligned pool idx :
  pool_memory pool mod SF2000_CACHE_LINE_SIZE = 0 →
  block_size pool mod SF2000_CACHE_LINE_SIZE = 0 →
  (pool_memory pool + idx * block_size pool) mod SF2000_CACHE_LINE_SIZE = 0.
Proof.
  unfold SF2000_CACHE_LINE_SIZE. intros H1 H2.
  apply Z.mod_divide in H1; [| lia]. apply Z.mod_divide in H2; [| lia].
  apply Z.mod_divide; [lia |].
  apply Z.divide_add_r; [done |]. by apply Z.divide_mul_r.
Qed.

(** X7. After a successful initialisation and any sequence of calls that
    keeps to the contract, a block that [sf2000_malloc_fast] returns is
    not null, is not one that the client still holds, starts on a cache
    line, and is a whole block, of at least the requested size, inside
    the span of the pool that serves the request. *)
Theorem allocation_is_fresh (sys : nat → pool_mallocs) (cs : list call)
    st0 h (size : Z) k st' ptr :
  init_succeeds sys →
  sf2000_memory_pools_init sys zero_pools = Ok st0 →
  well_behaved (mkHeap st0 []) cs →
  run (mkHeap st0 []) cs = Ok h →
  sf2000_malloc_fast (pools h) size = Block k st' ptr →
  ptr ≠ 0 ∧ (ptr ∉ live h) ∧ ptr mod SF2000_CACHE_LINE_SIZE = 0 ∧
  ∃ pool, pools h !! k = Some pool ∧ size ≤ block_size pool ∧
          pool_memory pool ≤ ptr ∧
          ptr + block_size pool
          ≤ pool_memory pool + block_size pool * block_count pool.
Proof.
  intros Hsucc Hinit Hwb Hrun Hmalloc.
  destruct (reached sys cs st0 h Hsucc Hinit Hwb Hrun) as [Hinv Hal].
  destruct Hinv as (Hs & _ & _ & Hacc).
  destruct (malloc_shape (pools h) size Hs)
    as [[Heq _] | (k' & pool & fl & idx & Hpool & Hfit & Hpos & Hfl & Hidx & Hrange & Heq)];
    rewrite Heq in Hmalloc; [done |].
  injection Hmalloc as <- <- <-.
  assert (pool ∈ pools h) as Hmem by (by eapply list_elem_of_lookup_2).
  destruct Hs as [_ Hsound]. destruct (Hsound pool Hmem) as [Hg Hb].
  destruct (accounted_take pool fl idx (live h) Hg Hb (Hacc pool Hmem) Hpos Hfl Hidx)
    as [Hfresh _].
  pose proof (block_offset pool idx Hg Hrange) as [Ho1 Ho2].
  destruct (Hal pool Hmem) as [Ha1 Ha2].
  split; [destruct Hg as (Hbase & _); lia |].
  split; [done |]. split; [by apply block_aligned |].
  exists pool. split; [done |].
  unfold fits in Hfit. apply andb_true_iff in Hfit as [Hle _]. apply Z.leb_le in Hle.
  repeat split; lia.
Qed.

(** X8. After a successful initialisation and any sequence of calls that
    keeps to the contract, two different pointers that the client holds
    into the pools are the starts of two blocks that do not overlap. *)
Theorem live_blocks_apart (sys : nat → pool_mallocs) (cs : list call)
    st0 h i j P Q (p q : Z) :
  init_succeeds sys →
  sf2000_memory_pools_init sys zero_pools = Ok st0 →
  well_behaved (mkHeap st0 []) cs →
  run (mkHeap st0 []) cs = Ok h →
  pools h !! i = Some P → pools h !! j = Some Q →
  p ∈ live h → q ∈ live h → p ≠ q →
  in_span P p = true → in_span Q q = true →
  p + block_size P ≤ q ∨ q + block_size Q ≤ p.
Proof.
  intros Hsucc Hinit Hwb Hrun HP HQ Hp Hq Hne HinP HinQ.
  destruct (reached sys cs st0 h Hsucc Hinit Hwb Hrun) as [Hinv _].
  destruct Hinv as ((_ & Hsound) & _ & Hdisj & Hacc).
  assert (P ∈ pools h) as HmP by (by eapply list_elem_of_lookup_2).
  assert (Q ∈ pools h) as HmQ by (by eapply list_elem_of_lookup_2).
  destruct (Hsound P HmP) as [HgP _]. destruct (Hsound Q HmQ) as [HgQ _].
  destruct (Hacc P HmP) as (_ & HliveP & _).
  destruct (Hacc Q HmQ) as (_ & HliveQ & _).
  destruct (HliveP p Hp HinP) as (ip & Hip & -> & _).
  destruct (HliveQ q Hq HinQ) as (iq & Hiq & -> & _).
  pose proof (block_offset P ip HgP Hip) as [HP1 HP2].
  pose proof (block_offset Q iq HgQ Hiq) as [HQ1 HQ2].
  destruct (decide (i = j)) as [-> | Hij].
  - rewrite HP in HQ. injection HQ as <-.
    destruct HgP as (_ & Hbs & _).
    assert (ip ≠ iq) as Hidx by (intros ->; done).
    destruct (Z.lt_ge_cases ip iq); [left | right]; nia.
  - destruct (Z.le_gt_cases (pool_memory P + ip * block_size P + block_size P)
                            (pool_memory Q + iq * block_size Q)) as [| H1];
      [by left |].
    destruct (Z.le_gt_cases (pool_memory Q + iq * block_size Q + block_size Q)
                            (pool_memory P + ip * block_size P)) as [| H2];
      [by right |].
    exfalso. apply Hij.
    apply (Hdisj i j P Q (Z.max (pool_memory P + ip * block_size P)
                                (pool_memory Q + iq * block_size Q))); try done.
    + apply in_span_geometry; [done |]. destruct HgP as (? & ? & ? & ?). lia.
    + apply in_span_geometry; [done |]. destruct HgQ as (? & ? & ? & ?). lia.
Qed.

Lemma allocation_is_fresh_witness :
  ∃ st',
    sf2000_malloc_fast busy 50 = Block 1 st' 1068960 ∧
    1068960 ≠ 0 ∧ (1068960 ∉ [1069024]) ∧
    1068960 mod SF2000_CACHE_LINE_SIZE = 0 ∧
    ∃ pool, busy !! 1%nat = Some pool ∧ 50 ≤ block_size pool ∧
            pool_memory pool ≤ 1068960 ∧
            1068960 + block_size pool
            ≤ pool_memory pool + block_size pool * block_count pool.
Proof.
  eexists. split; [vm_compute; reflexivity |].
  eapply (allocation_is_fresh served [Allocate 40 0] booted
            (mkHeap busy [1069024]) 50 1).
  - exact served_succeeds.
  - exact served_booted.
  - behave.
  - vm_compute. reflexivity.
  - vm_compute. reflexivity.
Defined.

Lemma busier_pool_1 :
  pools busier !! 1%nat = Some (mkPool 1060896 64 128 126 (Some (seqZ 0 128))).
Proof. vm_compute. reflexivity. Qed.

Lemma live_blocks_apart_witness :
  1068960 + 64 ≤ 1069024 ∨ 1069024 + 64 ≤ 1068960.
Proof.
  apply (live_blocks_apart served [Allocate 40 0; Allocate 40 0] booted busier
           1 1 (mkPool 1060896 64 128 126 (Some (seqZ 0 128)))
           (mkPool 1060896 64 128 126 (Some (seqZ 0 128))) 1068960 1069024).
  - exact served_succeeds.
  - exact served_booted.
  - behave.
  - vm_compute. reflexivity.
  - exact busier_pool_1.
  - exact busier_pool_1.
  - apply list_elem_of_In. vm_compute. tauto.
  - apply list_elem_of_In. vm_compute. tauto.
  - lia.
  - vm_compute. reflexivity.
  - vm_compute. reflexivity.
Defined.

(** *** Freeing a block twice *)

Lemma popped_sound st k pool fl :
  pools_sound st → st !! k = Some pool → free_list pool = Some fl →
  0 < free_count pool →
  pools_sound (<[k := mkPool (pool_memory pool) (block_size pool)
                             (block_count pool) (free_count pool - 1) (Some fl)]> st).
Proof.
  intros Hs Hpool Hfl Hpos. pose proof Hs as [_ Hsound].
  destruct (Hsound pool) as [Hg ((Hfc0 & Hfc) & fl' & Hfl' & Hrest)].
  { by eapply list_elem_of_lookup_2. }
  apply sound_insert; [done | done |]. split; simpl; [lia |].
  exists fl'. by rewrite Hfl in Hfl'.
Qed.

(** X9. Freeing a block twice makes the allocator hand it out twice. On
    sound pools whose spans are apart, two calls of [sf2000_free_fast] on
    the same pointer into block [idx] of a pool with room for two more
    indices both push [idx], and the next two allocations that this pool
    serves both return the start of that block. *)
Theorem double_free_aliases (st : list SF2000_MemoryPool) k pool fl idx off size :
  pools_sound st → apart st →
  st !! k = Some pool → free_list pool = Some fl →
  0 ≤ idx < block_count pool → 0 ≤ off < block_size pool →
  free_count pool + 2 ≤ block_count pool →
  size ≤ block_size pool →
  (∀ j q, (j < k)%nat → st !! j = Some q → fits size q = false) →
  ∃ st1 st2 st3 st4,
    sf2000_free_fast st (pool_memory pool + idx * block_size pool + off)
    = Returned st1 ∧
    sf2000_free_fast st1 (pool_memory pool + idx * block_size pool + off)
    = Returned st2 ∧
    sf2000_malloc_fast st2 size
    = Block k st3 (pool_memory pool + idx * block_size pool) ∧
    sf2000_malloc_fast st3 size
    = Block k st4 (pool_memory pool + idx * block_size pool).
Proof.
  intros Hs Hdisj Hpool Hfl Hi Ho Hroom Hsize Hfirst.
  pose proof Hs as [_ Hsound].
  destruct (Hsound pool) as [_ ((Hfc0 & Hfc) & fl' & Hfl' & Hlenfl & _)].
  { by eapply list_elem_of_lookup_2. }
  rewrite Hfl in Hfl'. injection Hfl' as <-.
  set (fl1 := <[Z.to_nat (free_count pool) := idx]> fl).
  set (p1 := mkPool (pool_memory pool) (block_size pool) (block_count pool)
                    (free_count pool + 1) (Some fl1)).
  set (fl2 := <[Z.to_nat (free_count pool + 1) := idx]> fl1).
  set (p2 := mkPool (pool_memory pool) (block_size pool) (block_count pool)
                    (free_count pool + 1 + 1) (Some fl2)).
  set (p3 := mkPool (pool_memory pool) (block_size pool) (block_count pool)
                    (free_count pool + 1 + 1 - 1) (Some fl2)).
  destruct (pushed_sound st k pool fl idx Hs Hdisj Hpool Hfl Hi) as (Hs1 & Hd1 & Hp1);
    [lia |]. fold fl1 p1 in Hs1, Hd1, Hp1.
  destruct (pushed_sound (<[k := p1]> st) k p1 fl1 idx Hs1 Hd1 Hp1 eq_refl)
    as (Hs2 & Hd2 & Hp2); [done | simpl; lia |]. simpl in Hs2, Hd2, Hp2.
  fold fl2 p2 in Hs2, Hd2, Hp2.
  assert (∀ (st' : list SF2000_MemoryPool) p' j q,
            (j < k)%nat → <[k := p']> st' !! j = Some q → st' !! j = Some q)
    as Hbelow.
  { intros st' p' j q Hj Hq. by rewrite list_lookup_insert_ne in Hq by lia. }
  assert (length fl1 = length fl) as Hlen1 by apply length_insert.
  assert (length fl2 = length fl) as Hlen2.
  { unfold fl2. by rewrite length_insert. }
  exists (<[k := p1]> st), (<[k := p2]> (<[k := p1]> st)),
         (<[k := p3]> (<[k := p2]> (<[k := p1]> st))).
  eexists. split; [| split; [| split]].
  - apply (free_pushes st k pool fl idx off); try done. lia.
  - apply (free_pushes (<[k := p1]> st) k p1 fl1 idx off); try done. simpl; lia.
  - apply (malloc_pops _ k p2 fl2 idx size Hs2 Hp2); simpl; try done; try lia.
    + replace (free_count pool + 1 + 1 - 1) with (free_count pool + 1) by lia.
      unfold fl2. apply list_lookup_insert_eq. lia.
    + intros j q Hj Hq. apply (Hfirst j q Hj). by do 2 (apply Hbelow in Hq; [| done]).
  - assert (<[k := p3]> (<[k := p2]> (<[k := p1]> st)) !! k = Some p3) as Hp3.
    { apply list_lookup_insert_eq. rewrite !length_insert. by eapply lookup_lt_Some. }
    apply (malloc_pops _ k p3 fl2 idx size); simpl; try done; try lia.
    + by apply (popped_sound _ k p2 fl2 Hs2 Hp2); [| simpl; lia].
    + replace (free_count pool + 1 + 1 - 1 - 1) with (free_count pool) by lia.
      unfold fl2. rewrite list_lookup_insert_ne by lia.
      unfold fl1. apply list_lookup_insert_eq. lia.
    + intros j q Hj Hq. apply (Hfirst j q Hj). by do 3 (apply Hbelow in Hq; [| done]).
Qed.

Lemma double_free_aliases_witness :
  ∃ st1 st2 st3 st4,
    sf2000_free_fast (pools busier) 1069024 = Returned st1 ∧
    sf2000_free_fast st1 1069024 = Returned st2 ∧
    sf2000_malloc_fast st2 64 = Block 1 st3 1069024 ∧
    sf2000_malloc_fast st3 64 = Block 1 st4 1069024.
Proof.
  assert (heap_inv busier) as Hinv.
  { destruct (run_inv [Allocate 40 0; Allocate 40 0] (mkHeap booted []) booted_inv)
      as (h & Hrun & Hinv); [behave |].
    vm_compute in Hrun. injection Hrun as <-. exact Hinv. }
  apply (double_free_aliases (pools busier) 1
           (mkPool 1060896 64 128 126 (Some (seqZ 0 128))) (seqZ 0 128) 127 0 64).
  - apply Hinv.
  - apply Hinv.
  - exact busier_pool_1.
  - reflexivity.
  - simpl. lia.
  - simpl. lia.
  - simpl. lia.
  - simpl. lia.
  - intros j q Hj Hq. assert (j = 0%nat) as -> by lia.
    assert (pools busier !! 0%nat
            = Some (mkPool 1048608 32 256 256 (Some (seqZ 0 256)))) as H0
      by (vm_compute; reflexivity).
    rewrite H0 in Hq. injection Hq as <-. reflexivity.
Defined.

(** ** The bulk mover on regions that overlap *)

Lemma copied_seq_forward m m1 m2 dst src n1 n2 :
  0 ≤ n1 → 0 ≤ n2 → dst ≤ src →
  copied m m1 dst src n1 →
  copied m1 m2 (dst + n1) (src + n1) n2 →
  copied m m2 dst src (n1 + n2).
Proof.
  intros Hn1 Hn2 Hd H1 H2 a. rewrite (H2 a).
  destruct (Z.leb_spec (dst + n1) a); destruct (Z.ltb_spec a (dst + n1 + n2)); simpl.
  - rewrite (H1 (src + n1 + (a - (dst + n1)))). range_cases.
  - rewrite (H1 a). range_cases.
  - rewrite (H1 a). range_cases.
  - rewrite (H1 a). range_cases.
Qed.

Lemma copy_bytes_forward n : ∀ m dst src,
  dst ≤ src → copied m (copy_bytes n m dst src) dst src (Z.of_nat n).
Proof.
  induction n as [| n IH]; intros m dst src Hd; simpl copy_bytes.
  - apply copied_refl.
  - replace (Z.of_nat (S n)) with (1 + Z.of_nat n) by lia.
    eapply copied_seq_forward; [lia | lia | done | apply copied_byte |].
    apply IH. lia.
Qed.

Lemma copy_words_forward be n : ∀ m dst src,
  byte_mem m → dst ≤ src →
  ∃ m', copy_words be n m dst src = (m', dst + 4 * Z.of_nat n, src + 4 * Z.of_nat n) ∧
        copied m m' dst src (4 * Z.of_nat n).
Proof.
  induction n as [| n IH]; intros m dst src Hm Hd; simpl copy_words.
  - exists m. split; [f_equal; [f_equal |]; lia | apply copied_refl].
  - replace (4 * Z.of_nat (S n)) with (4 + 4 * Z.of_nat n) by lia.
    destruct (IH (store32 be m dst (load32 be m src)) (dst + 4) (src + 4))
      as (m' & Heq & Hc); [by apply store32_byte_mem | lia |].
    exists m'. split.
    + rewrite Heq. f_equal; [f_equal |]; lia.
    + eapply copied_seq_forward; [lia | lia | done | by apply copied_word | done].
Qed.

Lemma sf2000_memcpy_aligned_forward be m dst src size :
  byte_mem m → 0 ≤ size →
  Z.land dst 3 = 0 → Z.land src 3 = 0 → dst ≤ src →
  copied m (sf2000_memcpy_aligned be m dst src size) dst src size.
Proof.
  intros Hm Hs Had Has Hd. unfold sf2000_memcpy_aligned.
  rewrite Had, Has. simpl.
  destruct (shiftr2_land3 size Hs) as (Hsplit & Hw & Hr).
  set (w := Z.shiftr size 2) in *. set (r := Z.land size 3) in *.
  clearbody w r. subst size.
  destruct (copy_words_forward be (Z.to_nat w) m dst src Hm Hd) as (m1 & Heq & Hc).
  rewrite Heq. rewrite Z2Nat.id in Hc |- * by done.
  destruct (Z.ltb_spec 0 r).
  - eapply copied_seq_forward; [lia | lia | done | done |].
    rewrite <- (Z2Nat.id r) at 2 by lia.
    apply copy_bytes_forward. lia.
  - replace (4 * w + r) with (4 * w) by lia. done.
Qed.

Lemma copied_snoc_word_forward be m m1 dst src n dst1 src1 :
  byte_mem m → 0 ≤ n → dst ≤ src →
  dst1 = dst + n → src1 = src + n →
  copied m m1 dst src n →
  copied m (store32 be m1 dst1 (load32 be m1 src1)) dst src (n + 4).
Proof.
  intros Hm Hn Hd -> -> Hc.
  eapply copied_seq_forward; [lia | lia | done | done |].
  apply copied_word. by eapply copied_byte_mem.
Qed.

Lemma burst_forward be m dst src :
  byte_mem m → dst ≤ src → copied m (burst be m dst src) dst src 32.
Proof.
  intros Hm Hd. unfold burst.
  change 32 with (0 + 4 + 4 + 4 + 4 + 4 + 4 + 4 + 4).
  repeat (eapply copied_snoc_word_forward; [done | lia | done | lia | lia |]).
  apply copied_refl.
Qed.

Lemma copy_bursts_forward be n : ∀ m dst src,
  byte_mem m → dst ≤ src →
  ∃ m', copy_bursts be n m dst src = (m', dst + 32 * Z.of_nat n, src + 32 * Z.of_nat n) ∧
        copied m m' dst src (32 * Z.of_nat n).
Proof.
  induction n as [| n IH]; intros m dst src Hm Hd; simpl copy_bursts.
  - exists m. split; [f_equal; [f_equal |]; lia | apply copied_refl].
  - replace (32 * Z.of_nat (S n)) with (32 + 32 * Z.of_nat n) by lia.
    assert (copied m (burst be m dst src) dst src 32) as Hb by (by apply burst_forward).
    destruct (IH (burst be m dst src) (dst + 4 * 8) (src + 4 * 8)) as (m' & Heq & Hc);
      [by eapply copied_byte_mem | lia |].
    exists m'. split.
    + rewrite Heq. f_equal; [f_equal |]; lia.
    + eapply copied_seq_forward; [lia | lia | done | done | done].
Qed.

Lemma land3_add32 x q : Z.land x 3 = 0 → Z.land (x + 32 * q) 3 = 0.
Proof.
  change 3 with (Z.ones 2). rewrite !Z.land_ones by lia. intros Hx.
  replace (x + 32 * q) with (x + (8 * q) * 2 ^ 2) by lia.
  by rewrite Z.mod_add by lia.
Qed.

Lemma sf2000_memcpy_burst_forward be m dst src size :
  byte_mem m → 0 ≤ size →
  Z.land dst 3 = 0 → Z.land src 3 = 0 → dst ≤ src →
  copied m (sf2000_memcpy_burst be m dst src size) dst src size.
Proof.
  intros Hm Hs Had Has Hd. unfold sf2000_memcpy_burst, SF2000_CACHE_LINE_SIZE.
  case_match; [| by apply sf2000_memcpy_aligned_forward].
  pose proof (Z.div_mod size 32 ltac:(lia)) as Hsplit.
  pose proof (Z.mod_pos_bound size 32 ltac:(lia)) as Hr.
  assert (0 ≤ size / 32) as Hq by (apply Z.div_pos; lia).
  set (q := size / 32) in *. set (r := size mod 32) in *.
  clearbody q r. subst size.
  destruct (copy_bursts_forward be (Z.to_nat q) m dst src Hm Hd) as (m1 & Heq & Hc).
  rewrite Heq. rewrite Z2Nat.id in Hc |- * by done.
  destruct (Z.ltb_spec 0 r).
  - eapply copied_seq_forward; [lia | lia | done | done |].
    apply sf2000_memcpy_aligned_forward;
      [by eapply copied_byte_mem | lia | by apply land3_add32
      | by apply land3_add32 | lia].
  - replace (32 * q + r) with (32 * q) by lia. done.
Qed.

(** X10. Between word-aligned addresses the two copies are safe on
    regions that overlap when the destination is not above the source:
    for every size, after [sf2000_memcpy_aligned] or [sf2000_memcpy_burst]
    the destination holds the bytes that the source held before the call
    and every other byte is as it was. *)
Theorem aligned_copy_moves_down be (m : mem) (dst src n : Z) :
  byte_mem m → 0 ≤ n →
  Z.land dst 3 = 0 → Z.land src 3 = 0 → dst ≤ src →
  (∀ i, 0 ≤ i < n → sf2000_memcpy_aligned be m dst src n (dst + i) = m (src + i)) ∧
  (∀ a, ¬ (dst ≤ a < dst + n) → sf2000_memcpy_aligned be m dst src n a = m a) ∧
  (∀ i, 0 ≤ i < n → sf2000_memcpy_burst be m dst src n (dst + i) = m (src + i)) ∧
  (∀ a, ¬ (dst ≤ a < dst + n) → sf2000_memcpy_burst be m dst src n a = m a).
Proof.
  intros Hm Hn Had Has Hd.
  pose proof (sf2000_memcpy_aligned_forward be m dst src n Hm Hn Had Has Hd) as Ha.
  pose proof (sf2000_memcpy_burst_forward be m dst src n Hm Hn Had Has Hd) as Hb.
  split; [| split; [| split]].
  - intros i Hi. rewrite (Ha (dst + i)). range_cases.
  - intros a Hout. rewrite (Ha a). range_cases.
  - intros i Hi. rewrite (Hb (dst + i)). range_cases.
  - intros a Hout. rewrite (Hb a). range_cases.
Qed.

Lemma aligned_copy_moves_down_witness :
  let a' := sf2000_memcpy_aligned false ramp 64 72 100 in
  let b' := sf2000_memcpy_burst false ramp 64 72 100 in
  (∀ i, 0 ≤ i < 100 → a' (64 + i) = ramp (72 + i)) ∧
  (∀ a, ¬ (64 ≤ a < 64 + 100) → a' a = ramp a) ∧
  (∀ i, 0 ≤ i < 100 → b' (64 + i) = ramp (72 + i)) ∧
  (∀ a, ¬ (64 ≤ a < 64 + 100) → b' a = ramp a).
Proof.
  apply (aligned_copy_moves_down false ramp 64 72 100).
  - exact ramp_byte_mem.
  - lia.
  - reflexivity.
  - reflexivity.
  - lia.
Defined.

(** X11. For every size and on regions that do not overlap,
    [sf2000_memcpy_burst] leaves in the destination the bytes of the
    source, leaves every other byte as it was, and leaves a memory of
    bytes. *)
Theorem burst_copy_correct be (m : mem) (dst src n : Z) :
  byte_mem m → 0 ≤ n → disjoint dst src n →
  (∀ i, 0 ≤ i < n → sf2000_memcpy_burst be m dst src n (dst + i) = m (src + i)) ∧
  (∀ a, ¬ (dst ≤ a < dst + n) → sf2000_memcpy_burst be m dst src n a = m a) ∧
  byte_mem (sf2000_memcpy_burst be m dst src n).
Proof.
  intros Hm Hn Hd.
  pose proof (sf2000_memcpy_burst_copied be m dst src n Hm Hn Hd) as Hb.
  split; [| split].
  - intros i Hi. rewrite (Hb (dst + i)). range_cases.
  - intros a Hout. rewrite (Hb a). range_cases.
  - by eapply copied_byte_mem.
Qed.

Lemma burst_copy_correct_witness :
  let b' := sf2000_memcpy_burst true ramp 8192 64 5000 in
  (∀ i, 0 ≤ i < 5000 → b' (8192 + i) = ramp (64 + i)) ∧
  (∀ a, ¬ (8192 ≤ a < 8192 + 5000) → b' a = ramp a) ∧
  byte_mem b'.
Proof.
  apply (burst_copy_correct true ramp 8192 64 5000).
  - exact ramp_byte_mem.
  - lia.
  - unfold disjoint. lia.
Defined.

(** An overlap the other way is not a copy: the source is overwritten
    before it is read. *)
Example aligned_copy_up_repeats :
  map (sf2000_memcpy_aligned false ramp 72 64 16) (seqZ 64 24)
  = [64; 65; 66; 67; 68; 69; 70; 71; 64; 65; 66; 67; 68; 69; 70; 71;
     64; 65; 66; 67; 68; 69; 70; 71].
Proof. vm_compute. reflexivity. Qed.

(** ** The loader and the memory *)

Lemma store_bytes_frame data : ∀ m ptr x,
  x < ptr ∨ ptr + Z.of_nat (length data) ≤ x → store_bytes m ptr data x = m x.
Proof.
  induction data as [| b data IH]; intros m ptr x Hx; simpl; [done |].
  simpl length in Hx. rewrite IH by lia.
  unfold store8. destruct (Z.eqb_spec x ptr); [lia | done].
Qed.

Lemma read_chunks_frame file file_size fuel : ∀ m bytes_read write_ptr m',
  0 < file_size < 2 ^ 32 → 0 ≤ bytes_read ≤ file_size →
  read_chunks fuel file file_size m bytes_read write_ptr = ReadDone m' ∨
  read_chunks fuel file file_size m bytes_read write_ptr = ReadError m' →
  ∀ a, a < write_ptr ∨ write_ptr + (file_size - bytes_read) ≤ a → m' a = m a.
Proof.
  induction fuel as [| fuel IH]; intros m pos wp m' Hrange Hpos Hout a Ha;
    simpl read_chunks in Hout; [by destruct Hout |].
  rewrite (wrap32_small file_size) in Hout by lia.
  destruct (Z.ltb_spec pos file_size) as [Hlt | Hge].
  2: { destruct Hout as [Hout | Hout]; [by injection Hout as <- | done]. }
  rewrite (wrap32_small (file_size - pos)) in Hout by lia. unfold chunk_size in Hout.
  set (to_read := if file_size - pos <? 8192 then file_size - pos else 8192) in Hout.
  assert (0 < to_read ≤ file_size - pos) as Htr.
  { unfold to_read. destruct (Z.ltb_spec (file_size - pos) 8192); lia. }
  pose proof (length_fread file pos to_read ltac:(lia) ltac:(lia)) as Hlen.
  assert (store_bytes m wp (fread file pos to_read) a = m a) as Hstore.
  { apply store_bytes_frame. lia. }
  destruct (Z.eqb_spec (Z.of_nat (length (fread file pos to_read))) to_read)
    as [Heq | Hne].
  - rewrite Heq in Hout. rewrite (wrap32_small (pos + to_read)) in Hout by lia.
    assert (0 ≤ pos + to_read ≤ file_size) as Hpos' by lia.
    rewrite (IH _ (pos + to_read) (wp + to_read) m' Hrange Hpos' Hout a) by lia.
    done.
  - destruct Hout as [Hout | Hout]; [done | by injection Hout as <-].
Qed.

(** X12. Whatever the state of the pools, a call of
    [sf2000_rom_load_optimized] that returns either leaves the memory as
    it was or has written only among the [L] bytes that follow the
    cache-line alignment of the pointer [p] that the allocator returned
    for the [L + 32] bytes requested, [L] being the length of the file:
    inside the block allocated when that block lies in the address space.
    This holds for a load that fails on a short read as well. *)
Theorem load_writes_inside (fopen : string → option FILE) (malloc : Z → Z)
    (st : list SF2000_MemoryPool) (m : mem) (filename : string)
    buffer size st' m' freed :
  sf2000_rom_load_optimized fopen malloc st m filename
  = Loaded buffer size st' m' freed →
  (∀ a, m' a = m a) ∨
  ∃ file p,
    fopen filename = Some file ∧
    allocation malloc st (told file + SF2000_CACHE_LINE_SIZE) = Some p ∧
    (∀ a, ¬ (align_cache_line p ≤ a < align_cache_line p + told file) →
          m' a = m a) ∧
    (0 ≤ p → p + told file + SF2000_CACHE_LINE_SIZE ≤ 2 ^ 32 →
     ∀ a, ¬ (p ≤ a < p + told file + SF2000_CACHE_LINE_SIZE) → m' a = m a).
Proof.
  intros Hload. unfold sf2000_rom_load_optimized in Hload.
  destruct (fopen filename) as [file |]; [| left; by injection Hload as _ _ _ <-].
  destruct (Z.leb_spec (told file) 0) as [Hneg | Hpos]; simpl orb in Hload;
    [left; by injection Hload as _ _ _ <- |].
  destruct (Z.ltb_spec SF2000_MAX_ROM_SIZE (told file)) as [Hbig | Hmax];
    [left; by injection Hload as _ _ _ <- |].
  unfold SF2000_MAX_ROM_SIZE, SF2000_CACHE_LINE_SIZE in *.
  rewrite (wrap32_small (told file + 32)) in Hload by lia.
  assert (∀ st1 p,
    (if p =? 0 then Loaded 0 0 st1 m None
     else match read_chunks (Z.to_nat (told file / chunk_size) + 2) file
                  (told file) m 0 (align_cache_line p) with
          | ReadDone m1 => Loaded (align_cache_line p) (told file) st1 m1 None
          | ReadError m1 =>
              match sf2000_free_fast st1 p with
              | Returned st2 => Loaded 0 0 st2 m1 None
              | SysFree ptr => Loaded 0 0 st1 m1 (Some ptr)
              | FreeFault f => LoadFault f
              end
          | ReadMore => LoadRunning
          end) = Loaded buffer size st' m' freed →
    ∀ a, ¬ (align_cache_line p ≤ a < align_cache_line p + told file) →
         m' a = m a) as Hrest.
  { intros st1 p Hl a Ha.
    destruct (p =? 0); [by injection Hl as _ _ _ <- |].
    destruct (read_chunks _ _ _ _ _ _) as [m1 | m1 |] eqn:Hread; [| | done].
    - injection Hl as _ _ _ <-.
      eapply (read_chunks_frame file (told file) _ m 0 (align_cache_line p));
        [lia | lia | left; exact Hread | lia].
    - assert (m' = m1) as ->.
      { destruct (sf2000_free_fast st1 p); try done; by injection Hl as _ _ _ <-. }
      eapply (read_chunks_frame file (told file) _ m 0 (align_cache_line p));
        [lia | lia | right; exact Hread | lia]. }
  right. unfold allocation.
  destruct (sf2000_malloc_fast st (told file + 32)) as [k st1 p | n |] eqn:Hm;
    [| | simpl in Hload; discriminate].
  - exists file, p. split; [done |]. split; [by rewrite Hm |].
    pose proof (Hrest st1 p Hload) as Hframe. split; [done |].
    intros Hp Hend a Ha. apply Hframe.
    destruct (align_cache_line_bounds p) as [Hal _]; lia.
  - exists file, (malloc n). split; [done |]. split; [by rewrite Hm |].
    pose proof (Hrest st (malloc n) Hload) as Hframe. split; [done |].
    intros Hp Hend a Ha. apply Hframe.
    destruct (align_cache_line_bounds (malloc n)) as [Hal _]; lia.
Qed.

Lemma load_writes_inside_witness :
  ∃ buffer size st' m' freed,
    sf2000_rom_load_optimized roms sys_malloc booted ramp "boot.rom"
    = Loaded buffer size st' m' freed ∧
    ((∀ a, m' a = ramp a) ∨
     ∃ file p,
       roms "boot.rom" = Some file ∧
       allocation sys_malloc booted (told file + SF2000_CACHE_LINE_SIZE) = Some p ∧
       (∀ a, ¬ (align_cache_line p ≤ a < align_cache_line p + told file) →
             m' a = ramp a) ∧
       (0 ≤ p → p + told file + SF2000_CACHE_LINE_SIZE ≤ 2 ^ 32 →
        ∀ a, ¬ (p ≤ a < p + told file + SF2000_CACHE_LINE_SIZE) → m' a = ramp a)).
Proof.
  destruct (sf2000_rom_load_optimized roms sys_malloc booted ramp "boot.rom")
    as [buffer size st' m' freed | f |] eqn:Hload.
  - exists buffer, size, st', m', freed. split; [reflexivity |].
    exact (load_writes_inside roms sys_malloc booted ramp "boot.rom"
             buffer size st' m' freed Hload).
  - vm_compute in Hload. discriminate Hload.
  - vm_compute in Hload. discriminate Hload.
Defined.

(** ** The loader and the pools *)

Lemma aligned_is_fixed p :
  0 ≤ p < 2 ^ 32 → p mod SF2000_CACHE_LINE_SIZE = 0 → align_cache_line p = p.
Proof.
  unfold SF2000_CACHE_LINE_SIZE. intros Hp Hmod.
  rewrite align_cache_line_eq by (Z.div_mod_to_equations; lia).
  Z.div_mod_to_equations; lia.
Qed.

Lemma pool_block_aligned (st : list SF2000_MemoryPool) k pool idx :
  pools_sound st → cache_aligned st →
  st !! k = Some pool → 0 ≤ idx < block_count pool →
  align_cache_line (pool_memory pool + idx * block_size pool)
  = pool_memory pool + idx * block_size pool.
Proof.
  intros [_ Hs] Hal Hpool Hidx.
  assert (pool ∈ st) as Hin by (by eapply list_elem_of_lookup_2).
  destruct (Hs pool Hin) as [(Hmem & Hbs & Hcount & Hend) _].
  destruct (Hal pool Hin) as [Hm Hb].
  apply aligned_is_fixed; [nia | by apply block_aligned].
Qed.

(** The ways in which a load returns. *)
Lemma load_cases (fopen : string → option FILE) (malloc : Z → Z)
    (st : list SF2000_MemoryPool) (m : mem) (filename : string) :
  pools_sound st → apart st → cache_aligned st →
  (∀ n, 32 ≤ n ≤ SF2000_MAX_ROM_SIZE + 32 → sys_block st (malloc n) n) →
  sf2000_rom_load_optimized fopen malloc st m filename = Loaded 0 0 st m None ∨
  ∃ file m',
    fopen filename = Some file ∧ 0 < told file ≤ SF2000_MAX_ROM_SIZE ∧
    ((∃ k st1 p,
        sf2000_malloc_fast st (told file + 32) = Block k st1 p ∧
        p ≠ 0 ∧ align_cache_line p = p ∧
        sf2000_free_fast st1 p = Returned st ∧
        (sf2000_rom_load_optimized fopen malloc st m filename
         = Loaded p (told file) st1 m' None ∨
         sf2000_rom_load_optimized fopen malloc st m filename
         = Loaded 0 0 st m' None)) ∨
     (∃ p,
        sf2000_malloc_fast st (told file + 32) = SysMalloc (told file + 32) ∧
        p = malloc (told file + 32) ∧
        0 < p ∧ p ≤ align_cache_line p ≤ p + 31 ∧
        sf2000_free_fast st (align_cache_line p) = SysFree (align_cache_line p) ∧
        (sf2000_rom_load_optimized fopen malloc st m filename
         = Loaded (align_cache_line p) (told file) st m' None ∨
         sf2000_rom_load_optimized fopen malloc st m filename
         = Loaded 0 0 st m' (Some p)))).
Proof.
  intros Hs Hdisj Hal Hsys. unfold sf2000_rom_load_optimized.
  destruct (fopen filename) as [file |] eqn:Hopen; [| by left].
  destruct (Z.leb_spec (told file) 0) as [Hneg | Hpos]; simpl orb; [by left |].
  destruct (Z.ltb_spec SF2000_MAX_ROM_SIZE (told file)) as [Hbig | Hmax]; [by left |].
  unfold SF2000_MAX_ROM_SIZE, SF2000_CACHE_LINE_SIZE in *.
  rewrite (wrap32_small (told file + 32)) by lia.
  pose proof (load_fuel (told file) Hpos) as Hfuel.
  assert (0 < told file < 2 ^ 32) as Hrange by lia.
  assert (∀ p, ∃ m',
    read_chunks (Z.to_nat (told file / chunk_size) + 2) file (told file) m 0 p
    = ReadDone m' ∨
    read_chunks (Z.to_nat (told file / chunk_size) + 2) file (told file) m 0 p
    = ReadError m') as Hread.
  { intros p.
    destruct (decide (told file ≤ Z.of_nat (length (stored file)))) as [Hfull | Hcut].
    - eexists. left. apply read_chunks_done; done || lia.
    - destruct (read_chunks_error file (told file)
                  (Z.to_nat (told file / chunk_size) + 2) m 0 p) as [m' Hm'];
        [done | lia | lia | done |].
      exists m'. by right. }
  destruct (malloc_shape st (told file + 32) Hs)
    as [[Heq _] | (k & pool & fl & idx & Hpool & _ & _ & _ & _ & Hidx & Heq)];
    rewrite Heq.
  - (* the general-purpose allocator answers *)
    destruct (Z.eqb_spec (malloc (told file + 32)) 0) as [Hnull | Hptr]; [by left |].
    destruct (Hsys (told file + 32) ltac:(lia)) as [? | (Hp & Hend & Hout)]; [done |].
    destruct (align_cache_line_bounds (malloc (told file + 32))) as [Hbounds _];
      [lia | lia |].
    assert (sf2000_free_fast st (align_cache_line (malloc (told file + 32)))
            = SysFree (align_cache_line (malloc (told file + 32)))) as Hfree.
    { apply sys_block_freed; [done | lia |]. intros q Hq. apply Hout; [lia | done]. }
    destruct (Hread (align_cache_line (malloc (told file + 32)))) as [m' [Hr | Hr]];
      rewrite Hr; right; exists file, m'; (split; [done |]); (split; [lia |]);
      right; exists (malloc (told file + 32)).
    + do 5 (split; [done || lia |]). by left.
    + rewrite (sys_block_freed st (malloc (told file + 32))); [| done | done |];
        [| intros q Hq; apply Hout; [lia | done]].
      do 5 (split; [done || lia |]). by right.
  - (* a block of pool [k] *)
    destruct (take_then_return st (told file + 32) k _ _ Hs Hdisj Heq) as [Hptr Hfree].
    pose proof (pool_block_aligned st k pool idx Hs Hal Hpool Hidx) as Hfix.
    destruct (Z.eqb_spec (pool_memory pool + idx * block_size pool) 0) as [| _];
      [done |].
    rewrite Hfix.
    destruct (Hread (pool_memory pool + idx * block_size pool)) as [m' [Hr | Hr]];
      rewrite Hr; right; exists file, m'; (split; [done |]); (split; [lia |]);
      left; eexists k, _, _; (split; [exact Heq |]); (split; [done |]);
      (split; [done |]); (split; [exact Hfree |]).
    + by left.
    + rewrite Hfree. by right.
Qed.

(** The spans of the pools of [booted] end below the answer of
    [sys_malloc]. *)
Lemma sys_malloc_block n :
  32 ≤ n ≤ SF2000_MAX_ROM_SIZE + 32 → sys_block booted (sys_malloc n) n.
Proof.
  unfold SF2000_MAX_ROM_SIZE, sys_malloc. intros Hn. right.
  split; [lia |]. split; [lia |]. intros a pool Ha Hin.
  assert (forallb (λ p, wrap32 (pool_memory p + wrap32 (block_size p * block_count p))
                        <=? 0x300004) booted = true) as Hall
    by (vm_compute; reflexivity).
  rewrite forallb_forall in Hall.
  specialize (Hall pool ltac:(by apply list_elem_of_In)). apply Z.leb_le in Hall.
  unfold in_span.
  destruct (Z.ltb_spec a (wrap32 (pool_memory pool
              + wrap32 (block_size pool * block_count pool)))); [lia |].
  apply andb_false_r.
Qed.

Lemma booted_cache_aligned : cache_aligned booted.
Proof. exact (init_cache_aligned served booted served_succeeds served_booted). Qed.

(** X13. On sound pools whose blocks start on cache lines, and with a
    general-purpose allocator whose blocks lie in the address space
    outside the pools, the two results of [sf2000_rom_load_optimized]
    agree: the buffer is null exactly when the size is 0. A buffer that
    is not null starts on a cache line; and every load that fails,
    whatever the cause, leaves the pools as they were before the call,
    while only a load that fails gives a block to the general-purpose
    [free]. *)
Theorem load_sentinel (fopen : string → option FILE) (malloc : Z → Z)
    (st : list SF2000_MemoryPool) (m : mem) (filename : string)
    buffer size st' m' freed :
  pools_sound st → apart st → cache_aligned st →
  (∀ n, 32 ≤ n ≤ SF2000_MAX_ROM_SIZE + 32 → sys_block st (malloc n) n) →
  sf2000_rom_load_optimized fopen malloc st m filename
  = Loaded buffer size st' m' freed →
  (buffer = 0 ↔ size = 0) ∧
  buffer mod SF2000_CACHE_LINE_SIZE = 0 ∧
  (size = 0 → st' = st) ∧
  (size ≠ 0 → freed = None).
Proof.
  intros Hs Hdisj Hal Hsys Hload.
  destruct (load_cases fopen malloc st m filename Hs Hdisj Hal Hsys)
    as [Hl | (file & m1 & Hopen & Hrange &
              [(k & st1 & p & Hm & Hp & Hfix & Hfree & [Hl | Hl]) |
               (p & Hm & -> & Hp & Hbounds & Hfree & [Hl | Hl])])];
    rewrite Hl in Hload; injection Hload as <- <- <- <- <-;
    try (split; [done |]; split; [done |]; split; done).
  - split; [split; lia |]. split; [| split; [lia | done]].
    rewrite <- Hfix. apply align_cache_line_le. 
    destruct (malloc_shape st (told file + 32) Hs)
      as [[Heq _] | (k' & pool & fl & idx & Hpool & _ & _ & _ & _ & Hidx & Heq)];
      rewrite Heq in Hm; [done |]. injection Hm as _ _ <-.
    destruct Hs as [_ Hs].
    destruct (Hs pool ltac:(by eapply list_elem_of_lookup_2))
      as [(Hmem & Hbs & _) _]. nia.
  - split; [split; lia |]. split; [| split; [lia | done]].
    apply align_cache_line_le. lia.
Qed.

Lemma load_sentinel_witness :
  ∃ buffer size st' m' freed,
    sf2000_rom_load_optimized roms sys_malloc booted ramp "boot.rom"
    = Loaded buffer size st' m' freed ∧
    (buffer = 0 ↔ size = 0) ∧
    buffer mod SF2000_CACHE_LINE_SIZE = 0 ∧
    (size = 0 → st' = booted) ∧
    (size ≠ 0 → freed = None).
Proof.
  destruct (sf2000_rom_load_optimized roms sys_malloc booted ramp "boot.rom")
    as [buffer size st' m' freed | f |] eqn:Hload.
  - exists buffer, size, st', m', freed. split; [reflexivity |].
    apply (load_sentinel roms sys_malloc booted ramp "boot.rom"
             buffer size st' m' freed).
    + apply booted_inv.
    + apply booted_inv.
    + exact booted_cache_aligned.
    + exact sys_malloc_block.
    + exact Hload.
  - vm_compute in Hload. discriminate Hload.
  - vm_compute in Hload. discriminate Hload.
Defined.

(** X14. Under the same conditions, what [sf2000_free_fast] does with the
    buffer of a successful load of [size] bytes depends on where the
    [size + 32] bytes came from. A block of a pool is the buffer itself,
    and freeing it puts the pools back as they were before the load. A
    block [p] of the general-purpose allocator is given to [free] as the
    cache-line alignment of [p], which is [p] only when [p] itself is on
    a cache line: otherwise [free] receives an address up to 31 bytes
    inside the block that [malloc] returned. *)
Theorem load_then_free (fopen : string → option FILE) (malloc : Z → Z)
    (st : list SF2000_MemoryPool) (m : mem) (filename : string)
    buffer size st' m' freed :
  pools_sound st → apart st → cache_aligned st →
  (∀ n, 32 ≤ n ≤ SF2000_MAX_ROM_SIZE + 32 → sys_block st (malloc n) n) →
  sf2000_rom_load_optimized fopen malloc st m filename
  = Loaded buffer size st' m' freed →
  size ≠ 0 →
  match sf2000_malloc_fast st (size + 32) with
  | Block k st1 p =>
      buffer = p ∧ st' = st1 ∧ sf2000_free_fast st' buffer = Returned st
  | SysMalloc n =>
      st' = st ∧ sf2000_free_fast st' buffer = SysFree buffer ∧
      malloc n ≤ buffer ≤ malloc n + 31 ∧
      (buffer = malloc n ↔ malloc n mod SF2000_CACHE_LINE_SIZE = 0)
  | MallocFault _ => False
  end.
Proof.
  intros Hs Hdisj Hal Hsys Hload Hsize.
  destruct (load_cases fopen malloc st m filename Hs Hdisj Hal Hsys)
    as [Hl | (file & m1 & Hopen & Hrange &
              [(k & st1 & p & Hm & Hp & Hfix & Hfree & [Hl | Hl]) |
               (p & Hm & -> & Hp & Hbounds & Hfree & [Hl | Hl])])];
    rewrite Hl in Hload; injection Hload as <- <- <- <- <-; try done.
  - by rewrite Hm.
  - rewrite Hm. split; [done |]. split; [done |]. split; [done |].
    unfold SF2000_CACHE_LINE_SIZE.
    destruct (align_cache_line_le (malloc (told file + 32)) ltac:(lia)) as [_ Hmod].
    split; [intros <-; done |]. intros Hmod'.
    apply aligned_is_fixed; [| done].
    unfold SF2000_MAX_ROM_SIZE in *.
    destruct (Hsys (told file + 32) ltac:(lia)) as [? | (_ & Hend & _)]; lia.
Qed.

Lemma load_then_free_witness :
  ∃ buffer size st' m' freed,
    sf2000_rom_load_optimized roms sys_malloc booted ramp "boot.rom"
    = Loaded buffer size st' m' freed ∧
    size ≠ 0 ∧
    match sf2000_malloc_fast booted (size + 32) with
    | Block k st1 p =>
        buffer = p ∧ st' = st1 ∧ sf2000_free_fast st' buffer = Returned booted
    | SysMalloc n =>
        st' = booted ∧ sf2000_free_fast st' buffer = SysFree buffer ∧
        sys_malloc n ≤ buffer ≤ sys_malloc n + 31 ∧
        (buffer = sys_malloc n ↔ sys_malloc n mod SF2000_CACHE_LINE_SIZE = 0)
    | MallocFault _ => False
    end.
Proof.
  destruct (sf2000_rom_load_optimized roms sys_malloc booted ramp "boot.rom")
    as [buffer size st' m' freed | f |] eqn:Hload.
  - assert (size ≠ 0) as Hsize.
    { vm_compute in Hload. injection Hload as _ <- _ _ _. discriminate. }
    exists buffer, size, st', m', freed. split; [reflexivity |]. split; [exact Hsize |].
    apply (load_then_free roms sys_malloc booted ramp "boot.rom"
             buffer size st' m' freed).
    + apply booted_inv.
    + apply booted_inv.
    + exact booted_cache_aligned.
    + exact sys_malloc_block.
    + exact Hload.
    + exact Hsize.
  - vm_compute in Hload. discriminate Hload.
  - vm_compute in Hload. discriminate Hload.
Defined.

(** A ROM of 5000 bytes gets its buffer from the general-purpose
    allocator, which here answers [0x300004]: the buffer returned, and
    given later to [free], is [0x300020]. *)
Example load_game_rom_unaligned :
  match sf2000_rom_load_optimized roms sys_malloc booted ramp "game.rom" with
  | Loaded buffer size st' m' freed =>
      sf2000_malloc_fast booted (size + 32) = SysMalloc 5032 ∧
      sys_malloc 5032 = 0x300004 ∧
      sf2000_free_fast st' buffer = SysFree 0x300020
  | _ => False
  end.
Proof. vm_compute. split; [reflexivity |]. split; reflexivity. Qed.

(** ** Cleanup of the pools *)

(** In this part a cleanup that returns is one whose calls of [free] have
    all returned. *)

Lemma cleanup_pool_cases i pool :
  cleanup_pool i pool
  = ((if pool_memory pool =? 0 then [] else [FreeMemory (pool_memory pool)])
     ++ match free_list pool with Some _ => [FreeList i] | None => [] end,
     released pool).
Proof.
  unfold cleanup_pool, released.
  destruct (Z.eqb_spec (pool_memory pool) 0) as [-> | _];
    by destruct (free_list pool).
Qed.

Lemma bind_seq_ext {A} (f g : nat → list A) n : ∀ i,
  (∀ j, (i ≤ j < i + n)%nat → f j = g j) →
  seq i n ≫= f = seq i n ≫= g.
Proof.
  induction n as [| n IH]; intros i Hfg; [done |].
  simpl. rewrite (Hfg i) by lia. f_equal. apply IH. intros j Hj. apply Hfg. lia.
Qed.

Lemma pools_cleanup_loop_spec n : ∀ i (st : list SF2000_MemoryPool) log,
  (i + n ≤ length st)%nat →
  ∃ st',
    pools_cleanup_loop n i st log
    = Ok (log ++ (seq i n ≫= λ j, match st !! j with
                                   | Some pool => (cleanup_pool j pool).1
                                   | None => []
                                   end), st') ∧
    length st' = length st ∧
    (∀ j, ¬ (i ≤ j < i + n)%nat → st' !! j = st !! j) ∧
    (∀ j pool, (i ≤ j < i + n)%nat → st !! j = Some pool →
               st' !! j = Some (released pool)).
Proof.
  induction n as [| n IH]; intros i st log Hlen.
  - exists st. simpl. rewrite app_nil_r. split; [done |]. split; [done |].
    split; [done |]. intros; lia.
  - destruct (lookup_lt_is_Some_2 st i ltac:(lia)) as [pool Hpool].
    cbn [pools_cleanup_loop]. rewrite Hpool.
    rewrite cleanup_pool_cases.
    destruct (IH (S i) (<[i := released pool]> st)
                 (log ++ ((if pool_memory pool =? 0 then []
                           else [FreeMemory (pool_memory pool)])
                          ++ match free_list pool with
                             | Some _ => [FreeList i]
                             | None => []
                             end)))
      as (st' & Heq & Hlen' & Hout & Hin).
    { rewrite length_insert. lia. }
    exists st'. rewrite Heq. rewrite length_insert in Hlen'.
    split; [| split; [done | split]].
    + f_equal. f_equal. rewrite <- app_assoc. f_equal.
      simpl. rewrite Hpool, cleanup_pool_cases. simpl. f_equal.
      apply bind_seq_ext. intros j Hj.
      by rewrite list_lookup_insert_ne by lia.
    + intros j Hj. rewrite Hout by lia.
      apply list_lookup_insert_ne. lia.
    + intros j q Hj Hq. destruct (decide (j = i)) as [-> | Hne].
      * rewrite Hout by lia. rewrite Hpool in Hq. injection Hq as <-.
        apply list_lookup_insert_eq. lia.
      * apply Hin; [lia |]. by rewrite list_lookup_insert_ne.
Qed.

Lemma cleanup_returns (st : list SF2000_MemoryPool) :
  length st = SF2000_POOL_COUNT →
  sf2000_memory_pools_cleanup st
  = Ok (seq 0 SF2000_POOL_COUNT ≫= (λ j, match st !! j with
                                         | Some pool => (cleanup_pool j pool).1
                                         | None => []
                                         end),
        released <$> st).
Proof.
  intros Hlen. unfold sf2000_memory_pools_cleanup.
  destruct (pools_cleanup_loop_spec SF2000_POOL_COUNT 0 st [] ltac:(lia))
    as (st' & Heq & Hlen' & _ & Hin).
  rewrite Heq. simpl app. f_equal. f_equal.
  apply list_eq. intros j. rewrite list_lookup_fmap.
  destruct (st !! j) as [pool |] eqn:Hpool; simpl.
  - apply Hin; [| done]. apply lookup_lt_Some in Hpool. lia.
  - apply lookup_ge_None. apply lookup_ge_None in Hpool. lia.
Qed.

Lemma cleanup_again (st : list SF2000_MemoryPool) :
  length st = SF2000_POOL_COUNT →
  sf2000_memory_pools_cleanup (released <$> st) = Ok ([], released <$> st).
Proof.
  intros Hlen. rewrite cleanup_returns by (by rewrite length_fmap).
  f_equal. f_equal.
  - clear Hlen. generalize 0%nat. generalize SF2000_POOL_COUNT.
    intros n. induction n as [| n IH]; intros i; [done |].
    simpl. rewrite IH, app_nil_r. rewrite list_lookup_fmap.
    by destruct (st !! i) as [pool |].
  - rewrite <- list_fmap_compose. by apply list_fmap_ext.
Qed.

(** X15. When [sf2000_memory_pools_cleanup] has returned, which it does
    when each of its calls of [free] returns (and [free] may be given an
    address that [malloc] never returned, see X18), it has left every
    pool with both pointers null and its three counters as they were.
    The calls of [free] it made are for the [pool_memory] of the pools
    where that was not null, never for a null pointer, and for the free
    list of the pools that had one. A second cleanup then makes no call
    of [free] and changes nothing. *)
Theorem cleanup_outcome (st : list SF2000_MemoryPool) log st' :
  length st = SF2000_POOL_COUNT →
  sf2000_memory_pools_cleanup st = Ok (log, st') →
  st' = released <$> st ∧
  (∀ ptr, FreeMemory ptr ∈ log ↔
          ptr ≠ 0 ∧ ∃ pool, pool ∈ st ∧ pool_memory pool = ptr) ∧
  (∀ i, FreeList i ∈ log ↔
        ∃ pool fl, st !! i = Some pool ∧ free_list pool = Some fl) ∧
  sf2000_memory_pools_cleanup st' = Ok ([], st').
Proof.
  intros Hlen Hclean. rewrite cleanup_returns in Hclean by done.
  assert (st' = released <$> st) as -> by congruence.
  assert (log = seq 0 SF2000_POOL_COUNT ≫=
                  (λ j, match st !! j with
                        | Some pool => (cleanup_pool j pool).1
                        | None => []
                        end)) as -> by congruence.
  clear Hclean.
  split; [done |]. split; [| split; [| by apply cleanup_again]].
  - intros ptr. rewrite list_elem_of_bind. split.
    + intros (j & Hin & _). destruct (st !! j) as [pool |] eqn:Hpool;
        [| by apply elem_of_nil in Hin].
      rewrite cleanup_pool_cases in Hin. simpl in Hin.
      apply elem_of_app in Hin as [Hin | Hin].
      * destruct (Z.eqb_spec (pool_memory pool) 0) as [| Hne];
          [by apply elem_of_nil in Hin |].
        apply list_elem_of_singleton in Hin. injection Hin as ->.
        split; [done |]. exists pool. split; [| done].
        by eapply list_elem_of_lookup_2.
      * destruct (free_list pool); [| by apply elem_of_nil in Hin].
        by apply list_elem_of_singleton in Hin.
    + intros (Hptr & pool & Hin & <-).
      apply list_elem_of_lookup in Hin as [j Hj]. exists j.
      split; [| apply elem_of_seq; apply lookup_lt_Some in Hj; lia].
      rewrite Hj, cleanup_pool_cases. simpl. apply elem_of_app. left.
      destruct (Z.eqb_spec (pool_memory pool) 0); [done |].
      by apply list_elem_of_singleton.
  - intros i. rewrite list_elem_of_bind. split.
    + intros (j & Hin & _). destruct (st !! j) as [pool |] eqn:Hpool;
        [| by apply elem_of_nil in Hin].
      rewrite cleanup_pool_cases in Hin. simpl in Hin.
      apply elem_of_app in Hin as [Hin | Hin].
      * destruct (pool_memory pool =? 0); [by apply elem_of_nil in Hin |].
        by apply list_elem_of_singleton in Hin.
      * destruct (free_list pool) as [fl |] eqn:Hfl; [| by apply elem_of_nil in Hin].
        apply list_elem_of_singleton in Hin. injection Hin as ->.
        by exists pool, fl.
    + intros (pool & fl & Hpool & Hfl). exists i.
      split; [| apply elem_of_seq; apply lookup_lt_Some in Hpool; lia].
      rewrite Hpool, cleanup_pool_cases, Hfl. simpl. apply elem_of_app. right.
      by apply list_elem_of_singleton.
Qed.

Lemma cleanup_outcome_witness :
  ∃ log st',
    sf2000_memory_pools_cleanup degraded = Ok (log, st') ∧
    st' = released <$> degraded ∧
    (∀ ptr, FreeMemory ptr ∈ log ↔
            ptr ≠ 0 ∧ ∃ pool, pool ∈ degraded ∧ pool_memory pool = ptr) ∧
    (∀ i, FreeList i ∈ log ↔
          ∃ pool fl, degraded !! i = Some pool ∧ free_list pool = Some fl) ∧
    sf2000_memory_pools_cleanup st' = Ok ([], st').
Proof.
  eexists _, _. split; [vm_compute; reflexivity |].
  eapply (cleanup_outcome degraded).
  - vm_compute. reflexivity.
  - vm_compute. reflexivity.
Defined.

(** ** The pools after the cleanup *)

Lemma fits_released size pool : fits size (released pool) = fits size pool.
Proof. done. Qed.

Lemma malloc_released (st : list SF2000_MemoryPool) size :
  length st = SF2000_POOL_COUNT →
  sf2000_malloc_fast (released <$> st) size
  = if existsb (fits size) st then MallocFault NullDeref else SysMalloc size.
Proof.
  intros Hlen.
  destruct (existsb (fits size) st) eqn:Hex.
  - (* the first pool that fits is read through its null free list *)
    assert (∃ k pool, st !! k = Some pool ∧ fits size pool = true ∧
                      ∀ j q, (j < k)%nat → st !! j = Some q → fits size q = false)
      as (k & pool & Hpool & Hfit & Hno).
    { clear Hlen. induction st as [| p st IH]; [done |].
      simpl in Hex. destruct (fits size p) eqn:Hp.
      - exists 0%nat, p. split; [done |]. split; [done |]. intros; lia.
      - destruct (IH Hex) as (k & pool & Hpool & Hfit & Hno).
        exists (S k), pool. split; [done |]. split; [done |].
        intros [| j] q Hj Hq; [by injection Hq as <- |].
        apply (Hno j q); [lia | done]. }
    apply (null_free_list_is_read _ size k (released pool)).
    + by rewrite length_fmap.
    + by rewrite list_lookup_fmap, Hpool.
    + done.
    + done.
    + intros j q Hj Hq. rewrite list_lookup_fmap in Hq.
      destruct (st !! j) as [q' |] eqn:Hq'; [| done]. injection Hq as <-.
      rewrite fits_released. by apply (Hno j).
  - unfold sf2000_malloc_fast. apply malloc_loop_skip.
    + intros j q _ Hq. rewrite list_lookup_fmap in Hq.
      destruct (st !! j) as [q' |] eqn:Hq'; [| done]. injection Hq as <-.
      rewrite fits_released.
      destruct (fits size q') eqn:Hfit; [| done].
      assert (existsb (fits size) st = true) as Hex'; [| congruence].
      apply existsb_exists. exists q'. split; [| done].
      apply list_elem_of_In. by eapply list_elem_of_lookup_2.
    + intros j Hj. apply lookup_lt_is_Some. rewrite length_fmap. lia.
Qed.

(** X16. The pools are not usable after [sf2000_memory_pools_cleanup],
    which leaves the counters of free blocks as they were. A request that
    some pool with a free block can hold, and that was served by a pool
    before, now reads the null free list of the first such pool; only the
    requests that reached the general-purpose allocator before still do.
    And [sf2000_free_fast] gives to the general-purpose [free] every
    pointer that is not below the size in bytes of a pool, the blocks of
    the pools among them. *)
Theorem cleanup_then_use (st : list SF2000_MemoryPool) log st' :
  length st = SF2000_POOL_COUNT →
  sf2000_memory_pools_cleanup st = Ok (log, st') →
  (∀ size,
     sf2000_malloc_fast st' size
     = if existsb (fits size) st then MallocFault NullDeref else SysMalloc size) ∧
  (∀ ptr,
     ptr ≠ 0 →
     (∀ pool, pool ∈ st → wrap32 (block_size pool * block_count pool) ≤ ptr) →
     sf2000_free_fast st' ptr = SysFree ptr).
Proof.
  intros Hlen Hclean. rewrite cleanup_returns in Hclean by done.
  injection Hclean as _ <-. split.
  - intros size. by apply malloc_released.
  - intros ptr Hptr Habove. apply free_foreign; [by rewrite length_fmap | done |].
    intros q Hq. apply list_elem_of_fmap in Hq as (pool & -> & Hin).
    specialize (Habove pool Hin). unfold in_span, released.
    cbn [pool_memory block_size block_count]. rewrite Z.add_0_l.
    pose proof (wrap32_range (block_size pool * block_count pool)) as Hr.
    rewrite (wrap32_small (wrap32 _)) by done.
    destruct (Z.ltb_spec ptr (wrap32 (block_size pool * block_count pool))); [lia |].
    apply andb_false_r.
Qed.

Lemma cleanup_then_use_witness :
  ∃ log st',
    sf2000_memory_pools_cleanup booted = Ok (log, st') ∧
    (∀ size,
       sf2000_malloc_fast st' size
       = if existsb (fits size) booted
         then MallocFault NullDeref else SysMalloc size) ∧
    (∀ ptr,
       ptr ≠ 0 →
       (∀ pool, pool ∈ booted → wrap32 (block_size pool * block_count pool) ≤ ptr) →
       sf2000_free_fast st' ptr = SysFree ptr).
Proof.
  eexists _, _. split; [vm_compute; reflexivity |].
  eapply (cleanup_then_use booted).
  - vm_compute. reflexivity.
  - vm_compute. reflexivity.
Defined.

(** What [sf2000_memory_pools_init] reads of the pools it finds: the
    free-list pointers. *)
Lemma init_pool_reads pool pool' size count sys :
  free_list pool = free_list pool' →
  init_pool pool size count sys = init_pool pool' size count sys.
Proof. intros Hfl. unfold init_pool. by rewrite Hfl. Qed.

Lemma pools_init_loop_reads sys n : ∀ i (st1 st2 : list SF2000_MemoryPool),
  length st1 = length st2 → (length st1 ≤ i + n)%nat →
  (∀ j, (j < i)%nat → st1 !! j = st2 !! j) →
  (∀ j, free_list <$> st1 !! j = free_list <$> st2 !! j) →
  pools_init_loop n i sys st1 = pools_init_loop n i sys st2.
Proof.
  induction n as [| n IH]; intros i st1 st2 Hlen Hend Hdone Hfl; simpl.
  - f_equal. apply list_eq. intros j.
    destruct (decide (j < i)%nat); [by apply Hdone |].
    rewrite !(proj2 (lookup_ge_None _ _)); [done | lia | lia].
  - pose proof (Hfl i) as Hi.
    destruct (st1 !! i) as [p1 |] eqn:H1, (st2 !! i) as [p2 |] eqn:H2;
      try done.
    simpl in Hi. injection Hi as Hi.
    destruct (SF2000_POOL_SIZES !! i) as [size |]; [| done].
    destruct (blocks_per_pool !! i) as [count |]; [| done].
    rewrite (init_pool_reads p1 p2) by done.
    destruct (init_pool p2 size count (sys i)) as [pool' | f]; [| done].
    apply IH.
    + by rewrite !length_insert.
    + rewrite length_insert. lia.
    + intros j Hj. destruct (decide (j = i)) as [-> | Hne].
      * rewrite !list_lookup_insert_eq; [done | | ].
        -- by apply lookup_lt_Some in H2.
        -- by apply lookup_lt_Some in H1.
      * rewrite !list_lookup_insert_ne by done. apply Hdone. lia.
    + intros j. destruct (decide (j = i)) as [-> | Hne].
      * rewrite !list_lookup_insert_eq; [done | | ].
        -- by apply lookup_lt_Some in H2.
        -- by apply lookup_lt_Some in H1.
      * rewrite !list_lookup_insert_ne by done. apply Hfl.
Qed.

(** X17. After [sf2000_memory_pools_cleanup], a new
    [sf2000_memory_pools_init] does what the first one did on the
    zero-initialised pools, whatever the general-purpose allocator
    answers: it returns the same pools or stops on the same fault. *)
Theorem cleanup_then_init (st : list SF2000_MemoryPool) log st' :
  length st = SF2000_POOL_COUNT →
  sf2000_memory_pools_cleanup st = Ok (log, st') →
  ∀ sys, sf2000_memory_pools_init sys st' = sf2000_memory_pools_init sys zero_pools.
Proof.
  intros Hlen Hclean sys. rewrite cleanup_returns in Hclean by done.
  injection Hclean as _ <-. unfold sf2000_memory_pools_init.
  apply pools_init_loop_reads.
  - by rewrite length_fmap, Hlen.
  - rewrite length_fmap. lia.
  - intros; lia.
  - intros j. rewrite list_lookup_fmap. unfold zero_pools.
    destruct (decide (j < SF2000_POOL_COUNT)%nat) as [Hj | Hj].
    + rewrite lookup_replicate_2 by done.
      by destruct (lookup_lt_is_Some_2 st j ltac:(lia)) as [pool ->].
    + rewrite !(proj2 (lookup_ge_None _ _));
        [done | rewrite length_replicate; lia | lia].
Qed.

Lemma cleanup_then_init_witness :
  ∃ log st',
    sf2000_memory_pools_cleanup busy = Ok (log, st') ∧
    ∀ sys, sf2000_memory_pools_init sys st'
           = sf2000_memory_pools_init sys zero_pools.
Proof.
  eexists _, _. split; [vm_compute; reflexivity |].
  eapply (cleanup_then_init busy).
  - vm_compute. reflexivity.
  - vm_compute. reflexivity.
Defined.

(** X18. When [sf2000_memory_pools_init] succeeds, then after every
    sequence of calls of [sf2000_malloc_fast] and [sf2000_free_fast] the
    cleanup gives to [free], pool after pool, the cache-line alignment of
    the address that [malloc] returned for the backing storage and then
    the free list. The address freed is the one that [malloc] returned
    only when that one is on a cache line: otherwise it is up to 31 bytes
    above it. *)
Theorem cleanup_frees_aligned (sys : nat → pool_mallocs) st0 (cs : list call) :
  init_succeeds sys →
  sf2000_memory_pools_init sys zero_pools = Ok st0 →
  ∃ h,
    run (mkHeap st0 []) cs = Ok h ∧
    sf2000_memory_pools_cleanup (pools h)
    = Ok (seq 0 SF2000_POOL_COUNT ≫=
            (λ i, both_freed (align_cache_line (backing_malloc (sys i))) i),
          released <$> pools h) ∧
    ∀ i, (i < SF2000_POOL_COUNT)%nat →
      backing_malloc (sys i) ≤ align_cache_line (backing_malloc (sys i))
        ≤ backing_malloc (sys i) + 31 ∧
      (align_cache_line (backing_malloc (sys i)) = backing_malloc (sys i) ↔
       backing_malloc (sys i) mod SF2000_CACHE_LINE_SIZE = 0).
Proof.
  intros Hinit Hst0.
  destruct (init_heap_inv sys Hinit) as (st0' & Heq & Hinv).
  rewrite Hst0 in Heq. injection Heq as <-.
  destruct Hinv as (Hs & _). simpl in Hs.
  destruct (run_sound cs (mkHeap st0 []) Hs) as (h & Hrun & Hs').
  pose proof (run_layout cs _ _ Hrun) as Hlay. simpl in Hlay.
  destruct Hinit as [Hserved _].
  assert (∀ i size count,
    SF2000_POOL_SIZES !! i = Some size → blocks_per_pool !! i = Some count →
    backing_malloc (sys i) ≤ align_cache_line (backing_malloc (sys i))
      ≤ backing_malloc (sys i) + 31 ∧
    align_cache_line (backing_malloc (sys i)) mod 32 = 0 ∧
    0 < backing_malloc (sys i) ∧ backing_malloc (sys i) + 31 < 2 ^ 32) as Hal.
  { intros i size count Hsize Hcount.
    destruct (Hserved i size count Hsize Hcount) as (Hpos & Hend & _).
    destruct (pool_table i size count Hsize Hcount) as (_ & _ & _ & _ & Hreq).
    rewrite Hreq in Hend.
    destruct (align_cache_line_bounds (backing_malloc (sys i))) as [Hb Hm];
      [lia | lia |].
    split; [done |]. split; [done |]. lia. }
  exists h. split; [done |]. split.
  - rewrite cleanup_returns by apply Hs'. f_equal. f_equal.
    apply bind_seq_ext. intros i Hi.
    destruct (pool_table_lookup i ltac:(lia)) as (size & count & Hsize & Hcount).
    destruct (lookup_lt_is_Some_2 (pools h) i) as [pool Hpool];
      [destruct Hs' as [-> _]; lia |].
    rewrite Hpool, cleanup_pool_cases. simpl.
    destruct (layout_lookup st0 (pools h) i pool Hlay Hpool) as (p0 & Hp0 & Hl).
    destruct (pools_init_returns sys zero_pools eq_refl) as (st' & Heq' & _ & Hshape).
    { intros j Hj. destruct (pool_table_lookup j Hj) as (sj & cj & Hsj & Hcj).
      destruct (Hserved j sj cj Hsj Hcj) as (_ & _ & Hfj). by right. }
    rewrite Hst0 in Heq'. injection Heq' as <-.
    rewrite (Hshape i zero_pool size count) in Hp0; try done.
    2: { apply lookup_replicate_2. lia. }
    unfold initialised in Hp0.
    destruct (Hal i size count Hsize Hcount) as (Hb & _ & Hpos & _).
    destruct (Z.eqb_spec (backing_malloc (sys i)) 0); [lia |].
    injection Hp0 as <-. unfold layout, fresh_pool in Hl. simpl in Hl.
    injection Hl as Hmem _ _. rewrite <- Hmem.
    destruct (Z.eqb_spec (align_cache_line (backing_malloc (sys i))) 0); [lia |].
    destruct Hs' as [_ Hs'].
    destruct (Hs' pool ltac:(by eapply list_elem_of_lookup_2))
      as [_ (_ & fl & -> & _)].
    done.
  - intros i Hi.
    destruct (pool_table_lookup i Hi) as (size & count & Hsize & Hcount).
    destruct (Hal i size count Hsize Hcount) as (Hb & Hm & Hpos & Hend).
    split; [done |]. unfold SF2000_CACHE_LINE_SIZE. split.
    + intros <-. done.
    + intros Hmod. apply aligned_is_fixed; [lia | done].
Qed.

Lemma cleanup_frees_aligned_witness :
  ∃ h,
    run (mkHeap booted []) [Allocate 40 0; Allocate 5000 0x300004; Free 0x300004]
    = Ok h ∧
    sf2000_memory_pools_cleanup (pools h)
    = Ok (seq 0 SF2000_POOL_COUNT ≫=
            (λ i, both_freed (align_cache_line (backing_malloc (served i))) i),
          released <$> pools h) ∧
    ∀ i, (i < SF2000_POOL_COUNT)%nat →
      backing_malloc (served i) ≤ align_cache_line (backing_malloc (served i))
        ≤ backing_malloc (served i) + 31 ∧
      (align_cache_line (backing_malloc (served i)) = backing_malloc (served i) ↔
       backing_malloc (served i) mod SF2000_CACHE_LINE_SIZE = 0).
Proof.
  exact (cleanup_frees_aligned served booted
           [Allocate 40 0; Allocate 5000 0x300004; Free 0x300004]
           served_succeeds served_booted).
Defined.

(** The first pool of [booted] is at [0x100020], 28 bytes above the
    address [0x100004] that the allocator returned: it is [0x100020] that
    the cleanup gives to [free]. *)
Example cleanup_booted_first :
  match sf2000_memory_pools_cleanup booted with
  | Ok (log, _) => log !! 0%nat = Some (FreeMemory 0x100020) ∧
                   backing_malloc (served 0) = 0x100004
  | Fault _ => False
  end.
Proof. vm_compute. split; reflexivity. Qed.

(** ** Prefetching a page *)

Lemma prefetch_loop_reads page_data n : ∀ fuel k reads,
  0 ≤ k → k + Z.of_nat n = 256 → (n < fuel)%nat →
  prefetch_loop fuel page_data (32 * k) reads
  = reads ++ ((λ j, page_data + 32 * j) <$> seqZ k (Z.of_nat n)).
Proof.
  induction n as [| n IH]; intros fuel k reads Hk Hn Hfuel;
    (destruct fuel as [| fuel]; [lia |]); simpl prefetch_loop;
    unfold SF2000_PAGE_SIZE, SF2000_CACHE_LINE_SIZE.
  - destruct (Z.ltb_spec (32 * k) 8192); [lia |]. simpl. by rewrite app_nil_r.
  - destruct (Z.ltb_spec (32 * k) 8192); [| lia].
    rewrite wrap32_small by lia.
    replace (32 * k + 32) with (32 * (k + 1)) by lia.
    rewrite IH by lia. rewrite <- app_assoc. f_equal.
    replace (Z.of_nat (S n)) with (Z.succ (Z.of_nat n)) by lia.
    rewrite (seqZ_cons k) by lia. rewrite fmap_cons. f_equal.
    f_equal. f_equal; lia.
Qed.

(** X19. [sf2000_prefetch_page] reads nothing through a null pointer.
    Through any other it reads 256 bytes, those at the start of each of
    the 256 cache lines of the page in ascending order, all of them
    within the 8 KiB that follow [page_data]; and the loop has ended by
    then: more iterations read nothing more. *)
Theorem prefetch_reads (page_data : Z) :
  sf2000_prefetch_page 0 = [] ∧
  (page_data ≠ 0 →
   sf2000_prefetch_page page_data
   = (λ j, page_data + SF2000_CACHE_LINE_SIZE * j) <$> seqZ 0 256) ∧
  length (sf2000_prefetch_page page_data)
  = (if page_data =? 0 then 0%nat else 256%nat) ∧
  (∀ a, a ∈ sf2000_prefetch_page page_data →
        page_data ≤ a < page_data + SF2000_PAGE_SIZE ∧
        (a - page_data) mod SF2000_CACHE_LINE_SIZE = 0) ∧
  (∀ fuel, (256 < fuel)%nat →
           page_data ≠ 0 →
           prefetch_loop fuel page_data 0 [] = sf2000_prefetch_page page_data).
Proof.
  assert (∀ fuel, (256 < fuel)%nat →
    prefetch_loop fuel page_data 0 []
    = (λ j, page_data + 32 * j) <$> seqZ 0 256) as Hloop.
  { intros fuel Hfuel.
    apply (prefetch_loop_reads page_data 256 fuel 0 []); lia. }
  assert (page_data ≠ 0 →
    sf2000_prefetch_page page_data = (λ j, page_data + 32 * j) <$> seqZ 0 256)
    as Hpage.
  { intros Hp. unfold sf2000_prefetch_page.
    destruct (Z.eqb_spec page_data 0); [done |].
    apply Hloop. vm_compute. lia. }
  unfold SF2000_CACHE_LINE_SIZE, SF2000_PAGE_SIZE.
  split; [done |]. split; [done |]. split; [| split].
  - destruct (Z.eqb_spec page_data 0) as [-> | Hp]; [done |].
    rewrite Hpage by done. by rewrite length_fmap, length_seqZ.
  - intros a Ha. destruct (Z.eqb_spec page_data 0) as [-> | Hp];
      [by apply elem_of_nil in Ha |].
    rewrite Hpage in Ha by done.
    apply list_elem_of_fmap in Ha as (j & -> & Hj).
    apply elem_of_seqZ in Hj. split; [lia |].
    replace (page_data + 32 * j - page_data) with (j * 32) by lia.
    apply Z.mod_mul. lia.
  - intros fuel Hfuel Hp. rewrite Hpage by done. by apply Hloop.
Qed.
